(** * Grasphoffer: the retrieval pipeline and its job store

    A shallow embedding of the JavaScript back end of Grasphoffer:
    the embedding service (chunking, cosine similarity, ranking) and the
    TheHopper routes (request store, submit/status/result handlers and the
    background task [processRAGRequest]).

    JavaScript strings are sequences of UTF-16 code units, numbers are
    IEEE-754 binary64 values ([PrimFloat]) or, where the code only ever
    holds integers (lengths, indices, HTTP codes, milliseconds), [Z]. *)

From Stdlib Require Import ZArith NArith List Bool Lia.
From Stdlib Require Import Floats.
From Stdlib Require Import Ascii String.
From Stdlib Require Import Sorted Permutation.
From stdpp Require Import base gmap list.

Local Open Scope Z_scope.

(* ===================================================================== *)
(** ** JavaScript strings *)
(* ===================================================================== *)

Module Js.

(** A string is the list of its UTF-16 code units. *)
Abbreviation jsstring := (list N).

(** A literal of the source, written as a Rocq string. *)
Definition lit (s : string) : jsstring :=
  map N_of_ascii (list_ascii_of_string s).

(** [s.length] *)
Definition len (s : jsstring) : Z := Z.of_nat (length s).

(** Truthiness of a string: only the empty string is falsy. *)
Definition truthy (s : jsstring) : bool :=
  match s with [] => false | _ => true end.

(** WhiteSpace and LineTerminator code points, the set [trim] strips. *)
Definition is_space (c : N) : bool :=
  ((9 <=? c) && (c <=? 13) || (c =? 32) || (c =? 160) || (c =? 5760)
   || (8192 <=? c) && (c <=? 8202) || (c =? 8232) || (c =? 8233)
   || (c =? 8239) || (c =? 8287) || (c =? 12288) || (c =? 65279))%N.

Fixpoint trimStart (s : jsstring) : jsstring :=
  match s with
  | c :: s' => if is_space c then trimStart s' else s
  | [] => []
  end.

Definition trimEnd (s : jsstring) : jsstring := rev (trimStart (rev s)).

(** [s.trim()] *)
Definition trim (s : jsstring) : jsstring := trimEnd (trimStart s).

(** [s.substring(start)], with [start] clamped into [0, s.length]. *)
Definition substring (s : jsstring) (start : Z) : jsstring :=
  drop (Z.to_nat (Z.max 0 (Z.min start (len s)))) s.

Fixpoint startsWith (s p : jsstring) : bool :=
  match p, s with
  | [], _ => true
  | _ :: _, [] => false
  | a :: p', b :: s' => (a =? b)%N && startsWith s' p'
  end.

Fixpoint indexOf_from (i : Z) (s p : jsstring) : Z :=
  if startsWith s p then i
  else match s with
       | [] => -1
       | _ :: s' => indexOf_from (i + 1) s' p
       end.

(** [s.indexOf(p)] *)
Definition indexOf (s p : jsstring) : Z := indexOf_from 0 s p.

Fixpoint lastIndexOf_from (i best : Z) (s p : jsstring) : Z :=
  let best' := if startsWith s p then i else best in
  match s with
  | [] => best'
  | _ :: s' => lastIndexOf_from (i + 1) best' s' p
  end.

(** [s.lastIndexOf(p)] *)
Definition lastIndexOf (s p : jsstring) : Z := lastIndexOf_from 0 (-1) s p.

(** The character class of the regular expression [/[.!?]+/]. *)
Definition is_sentence_end (c : N) : bool :=
  ((c =? 46) || (c =? 33) || (c =? 63))%N.

(** [s.split(/[.!?]+/)]: the pieces between the maximal runs of
    sentence-ending punctuation; [cur] holds the piece being read, in
    reverse, and [in_run] tells that the previous unit was punctuation. *)
Fixpoint split_runs (cur : jsstring) (in_run : bool) (s : jsstring)
  : list jsstring :=
  match s with
  | [] => [rev cur]
  | c :: s' =>
      if is_sentence_end c then
        if in_run then split_runs [] true s'
        else rev cur :: split_runs [] true s'
      else split_runs (c :: cur) false s'
  end.

Definition split_sentence_ends (s : jsstring) : list jsstring :=
  split_runs [] false s.

(** [arr.slice(0, k)]: a negative end counts from the back. *)
Definition slice0 {A} (l : list A) (k : Z) : list A :=
  let n := Z.of_nat (length l) in
  let final := if k <? 0 then Z.max (n + k) 0 else Z.min k n in
  take (Z.to_nat final) l.

(** [arr.join(sep)] on an array of strings. *)
Fixpoint join (sep : jsstring) (l : list jsstring) : jsstring :=
  match l with
  | [] => []
  | [s] => s
  | s :: rest => s ++ sep ++ join sep rest
  end.

End Js.

Import Js.

(* ===================================================================== *)
(** ** The embedding service (embeddingService.js) *)
(* ===================================================================== *)

Module EmbeddingService.

(** An embedding, [Array.from(result.data)]. *)
Definition vector := list float.

(** The loaded feature-extraction model: text to vector, [None] when
    inference throws. *)
Definition pipeline := jsstring -> option vector.

(** The fields of the singleton [EmbeddingService]. *)
Record service := {
  embedder : option pipeline;
  isInitialized : bool
}.

(** [constructor()] *)
Definition constructor : service :=
  {| embedder := None; isInitialized := false |}.

(** The shape of [chunk.metadata]. *)
Record chunkMetadata := { startChar : Z; length : Z }.

(** A document: what [splitText] pushes, plus the [embedding] that
    [findSimilar] caches on the object. *)
Record document := {
  text : jsstring;
  index : Z;
  metadata : chunkMetadata;
  embedding : option vector
}.

(** An entry of [similarities], with its fields [index], [score] and
    [document]; the last is the object [documents[index]] as it stands
    when [findSimilar] returns. *)
Record similarity := {
  sim_index : Z;
  score : float;
  sim_document : document
}.

(** *** Cosine similarity *)

(** One turn of the [for] loop: the three accumulators. *)
Definition accumulate (acc : float * float * float) (ab : float * float)
  : float * float * float :=
  let '(dotProduct, normA, normB) := acc in
  let '(a, b) := ab in
  (dotProduct + a * b, normA + a * a, normB + b * b)%float.

(** [cosineSimilarity(vecA, vecB)]; [inl] is the thrown message. *)
Definition cosineSimilarity (vecA vecB : vector) : jsstring + float :=
  if negb (Nat.eqb (List.length vecA) (List.length vecB)) then
    inl (lit "Vectors must have the same length")
  else
    let '(dotProduct, normA, normB) :=
      fold_left accumulate (combine vecA vecB) (0, 0, 0)%float in
    let normA := PrimFloat.sqrt normA in
    let normB := PrimFloat.sqrt normB in
    if (normA =? 0)%float || (normB =? 0)%float then inr 0%float
    else inr (dotProduct / (normA * normB))%float.

(** The Euclidean norm of a vector as the loop computes it: the square
    root of the running sum of squares. *)
Definition norm (v : vector) : float :=
  PrimFloat.sqrt (fold_left (fun n a => n + a * a)%float v 0%float).

(** *** The chunker *)

(** The state of the packing loop of [splitText]. *)
Record packer := {
  chunks : list document;
  currentChunk : jsstring;
  chunkIndex : Z
}.

(** The chunk pushed for [currentChunk]; [at_] is [text.indexOf] or
    [text.lastIndexOf]. *)
Definition mkChunk (at_ : jsstring -> jsstring -> Z) (text0 : jsstring)
    (current : jsstring) (idx : Z) : document :=
  {| text := current ++ lit ".";
     index := idx;
     metadata := {| startChar := at_ text0 current; length := len current |};
     embedding := None |}.

(** The body of [for (const sentence of sentences)]. *)
Definition pack (text0 : jsstring) (chunkSize overlap : Z)
    (st : packer) (sentence : jsstring) : packer :=
  let trimmedSentence := trim sentence in
  let cur := currentChunk st in
  if len cur + len trimmedSentence + 1 <=? chunkSize then
    {| chunks := chunks st;
       currentChunk :=
         cur ++ (if truthy cur then lit ". " else lit "") ++ trimmedSentence;
       chunkIndex := chunkIndex st |}
  else
    let pushed :=
      if truthy cur
      then (chunks st ++ [mkChunk indexOf text0 cur (chunkIndex st)],
            chunkIndex st + 1)
      else (chunks st, chunkIndex st) in
    {| chunks := fst pushed;
       currentChunk :=
         if (0 <? overlap) && (overlap <? len cur)
         then substring cur (len cur - overlap) ++ lit ". " ++ trimmedSentence
         else trimmedSentence;
       chunkIndex := snd pushed |}.

(** [text.split(/[.!?]+/).filter(s => s.trim().length > 0)] *)
Definition sentencesOf (text0 : jsstring) : list jsstring :=
  List.filter (fun s => 0 <? len (trim s)) (split_sentence_ends text0).

(** The packing loop run over a list of sentences. *)
Definition packAll (text0 : jsstring) (chunkSize overlap : Z)
    (sentences : list jsstring) : packer :=
  fold_left (pack text0 chunkSize overlap) sentences
    {| chunks := []; currentChunk := lit ""; chunkIndex := 0 |}.

(** The last chunk, pushed after the loop when [currentChunk] is not
    empty. *)
Definition flush (text0 : jsstring) (st : packer) : list document :=
  if truthy (currentChunk st)
  then chunks st ++ [mkChunk lastIndexOf text0 (currentChunk st) (chunkIndex st)]
  else chunks st.

(** [splitText(text, chunkSize, overlap)] *)
Definition splitText (text0 : jsstring) (chunkSize overlap : Z)
  : list document :=
  flush text0 (packAll text0 chunkSize overlap (sentencesOf text0)).

(** *** Sorting by score *)

(** The comparator [(a, b) => b.score - a.score]. *)
Definition byScoreDescending (a b : similarity) : float :=
  (score b - score a)%float.

(** [Array.prototype.sort(comparefn)] is stable, and with a consistent
    comparator its result is unique; it is computed here by insertion:
    [a] goes after [b] exactly when [comparefn(a, b) > 0].  When a
    verdict is [NaN] the comparator is not consistent and ECMAScript
    leaves the order to the implementation; the list computed here is
    then one permutation among those an engine may return, and nothing
    below draws on its order in that case. *)
Fixpoint insertSorted {A} (comparefn : A -> A -> float) (a : A)
    (l : list A) : list A :=
  match l with
  | [] => [a]
  | b :: l' =>
      if (0 <? comparefn a b)%float then b :: insertSorted comparefn a l'
      else a :: l
  end.

Fixpoint sort {A} (comparefn : A -> A -> float) (l : list A) : list A :=
  match l with
  | [] => []
  | a :: l' => insertSorted comparefn a (sort comparefn l')
  end.

(** *** Embedding and ranking: a state and exception monad over the
    service's fields *)

Definition M (A : Type) : Type := service -> (jsstring + A) * service.

Definition ret {A} (a : A) : M A := fun s => (inr a, s).
Definition throw {A} (msg : jsstring) : M A := fun s => (inl msg, s).
Definition bind {A B} (m : M A) (k : A -> M B) : M B :=
  fun s => match m s with
           | (inr a, s') => k a s'
           | (inl e, s') => (inl e, s')
           end.
(** [try { m } catch (error) { h error.message }] *)
Definition catch {A} (m : M A) (h : jsstring -> M A) : M A :=
  fun s => match m s with
           | (inr a, s') => (inr a, s')
           | (inl e, s') => h e s'
           end.

Section WithModel.

(** What [await pipeline('feature-extraction', ...)] yields: the model,
    or [None] when loading throws. *)
Variable load : option pipeline.

(** [initialize()] *)
Definition initialize : M unit := fun s =>
  if isInitialized s then ret tt s
  else match load with
       | Some p => ret tt {| embedder := Some p; isInitialized := true |}
       | None => throw (lit "Failed to initialize embedding model") s
       end.

(** [embed(text)] *)
Definition embed (t : jsstring) : M vector :=
  bind (fun s => if isInitialized s then ret tt s else initialize s)
    (fun _ s =>
       match embedder s with
       | Some p => match p t with
                   | Some v => ret v s
                   | None => throw (lit "Failed to generate embedding") s
                   end
       | None => throw (lit "Failed to generate embedding") s
       end).

(** The loop [for (const doc of documents)]: the embeddings collected
    so far and the documents with their caches filled; on a throw the
    documents already visited keep their cache. *)
Fixpoint embedDocuments (documents : list document) (s : service)
  : (jsstring + list vector) * list document * service :=
  match documents with
  | [] => (inr [], [], s)
  | doc :: rest =>
      match embedding doc with
      | Some e =>
          let '(r, rest', s') := embedDocuments rest s in
          (match r with inr es => inr (e :: es) | inl m => inl m end,
           doc :: rest', s')
      | None =>
          match embed (text doc) s with
          | (inl m, s') => (inl m, doc :: rest, s')
          | (inr e, s') =>
              let doc' := {| text := text doc; index := index doc;
                             metadata := metadata doc; embedding := Some e |} in
              let '(r, rest', s'') := embedDocuments rest s' in
              (match r with inr es => inr (e :: es) | inl m => inl m end,
               doc' :: rest', s'')
          end
      end
  end.

(** [documentEmbeddings.map((docEmbedding, index) => ...)], from
    position [i] on. *)
Fixpoint scoreFrom (i : Z) (queryEmbedding : vector)
    (documentEmbeddings : list vector) (documents : list document)
  : jsstring + list similarity :=
  match documentEmbeddings, documents with
  | e :: es, d :: ds =>
      match cosineSimilarity queryEmbedding e with
      | inl m => inl m
      | inr sc =>
          match scoreFrom (i + 1) queryEmbedding es ds with
          | inl m => inl m
          | inr rest =>
              inr ({| sim_index := i; score := sc; sim_document := d |} :: rest)
          end
      end
  | _, _ => inr []
  end.

(** The body of [findSimilar] up to the sort: the query embedding, the
    document embeddings (cached on the documents), the scores.  The
    outcome, the documents after the call, the service after the call. *)
Definition similaritiesOf (query : jsstring) (documents : list document)
    (s : service)
  : (jsstring + list similarity) * list document * service :=
  match embed query s with
  | (inl m, s1) => (inl m, documents, s1)
  | (inr queryEmbedding, s1) =>
      match embedDocuments documents s1 with
      | (inl m, documents', s2) => (inl m, documents', s2)
      | (inr documentEmbeddings, documents', s2) =>
          (scoreFrom 0 queryEmbedding documentEmbeddings documents',
           documents', s2)
      end
  end.

(** [findSimilar(query, documents, k)]: whatever is thrown inside is
    rethrown as one fixed message. *)
Definition findSimilar (query : jsstring) (documents : list document)
    (k : Z) (s : service)
  : (jsstring + list similarity) * list document * service :=
  match similaritiesOf query documents s with
  | (inl _, documents', s') =>
      (inl (lit "Failed to find similar documents"), documents', s')
  | (inr similarities, documents', s') =>
      (inr (slice0 (sort byScoreDescending similarities) k), documents', s')
  end.

(** [findSimilar] on an array nobody else holds: only the outcome and
    the service matter. *)
Definition rankChunks (query : jsstring) (chunks0 : list document) (k : Z)
  : M (list similarity) := fun s =>
  let '(r, _, s') := findSimilar query chunks0 k s in (r, s').

(** [getRelevantContext(context, query, k)]; whatever is thrown inside is
    caught and answered with the full context. *)
Definition getRelevantContext (context query : jsstring) (k : Z)
  : M jsstring :=
  catch
    (fun s =>
       let chunks0 := splitText context 1000 200 in
       if Z.of_nat (List.length chunks0) <=? k then ret context s
       else
         bind (rankChunks query chunks0 k)
           (fun similarChunks =>
              ret (join [10; 10]%N
                     (map (fun r => text (sim_document r)) similarChunks)))
           s)
    (fun _ => ret context).

End WithModel.

End EmbeddingService.


(* ===================================================================== *)
(** ** The TheHopper routes (the Express router) *)
(* ===================================================================== *)

Module Routes.

#[local] Unset Elimination Schemes.

(** A JSON value, as [express.json()] hands it over and [res.json] sends
    it. *)
Inductive json :=
| JNull
| JBool (b : bool)
| JNum (x : float)
| JStr (s : jsstring)
| JArr (items : list json)
| JObj (fields : list (jsstring * json)).

#[local] Set Elimination Schemes.

(** An integer as a JavaScript number. *)
Definition num (z : Z) : json :=
  JNum (SF2Prim (binary_normalize prec emax z 0 false)).

(** Truthiness of a value that may be [undefined] ([None]). *)
Definition truthy_value (v : option json) : bool :=
  match v with
  | None | Some JNull => false
  | Some (JBool b) => b
  | Some (JNum x) => negb (is_zero x || is_nan x)
  | Some (JStr s) => truthy s
  | Some (JArr _) | Some (JObj _) => true
  end.

(** [a || b] *)
Definition or_else (a : option json) (b : json) : json :=
  match a with
  | Some v => if truthy_value a then v else b
  | None => b
  end.

(** The fields the submit handler reads off [req.body]. *)
Record body := {
  body_question : option json;
  body_context : option json;
  body_weakConcepts : option json
}.

(** What [ragService.generateResponse] resolves with, as far as the routes
    read it. *)
Record ragResponse := {
  answer : option json;
  citations : option json;
  themes : option json
}.

(** [request.result]: the response spread, with [processingTime]
    overwritten. *)
Record ragResult := {
  response : ragResponse;
  processingTime : Z
}.

(** A value of [requestStore]. [progress], [message], [result] and
    [error] are [undefined] until assigned. *)
Record request := {
  status : jsstring;
  question : json;
  context : json;
  weakConcepts : json;
  createdAt : Z;
  service : jsstring;
  progress : option Z;
  message : option jsstring;
  result : option ragResult;
  error : option jsstring
}.

(** Where a running [processRAGRequest] is suspended; [startTime] is its
    local variable. *)
Inductive stage :=
| AwaitingContext (startTime : Z)
| AwaitingResponse (startTime : Z).

(** The module state: the request store, the pending [setTimeout]
    callbacks (due time and the id each deletes), and the suspended
    background tasks. *)
Record server := {
  requestStore : gmap jsstring request;
  timers : list (Z * jsstring);
  tasks : gmap jsstring stage
}.

(** The server at start-up: an empty store, nothing pending. *)
Definition initial : server :=
  {| requestStore := ∅; timers := []; tasks := ∅ |}.

(** An HTTP response: [res.status(code).json(payload)]. *)
Record reply := {
  code : Z;
  payload : list (jsstring * json)
}.

(** [res.status(c).json({ success: false, error: msg })] *)
Definition failure (c : Z) (msg : string) : reply :=
  {| code := c;
     payload := [(lit "success", JBool false); (lit "error", JStr (lit msg))] |}.

(** Assignments to the request object held in the store. *)
Definition setProgress (p : Z) (r : request) : request :=
  {| status := status r; question := question r; context := context r;
     weakConcepts := weakConcepts r; createdAt := createdAt r;
     service := service r;
     progress := Some p; message := message r;
     result := result r; error := error r |}.

Definition setStatus (st : string) (r : request) : request :=
  {| status := lit st; question := question r; context := context r;
     weakConcepts := weakConcepts r; createdAt := createdAt r;
     service := service r;
     progress := progress r; message := message r;
     result := result r; error := error r |}.

Definition setResult (res : ragResult) (r : request) : request :=
  {| status := status r; question := question r; context := context r;
     weakConcepts := weakConcepts r; createdAt := createdAt r;
     service := service r;
     progress := progress r; message := message r;
     result := Some res; error := error r |}.

Definition setError (msg : jsstring) (r : request) : request :=
  {| status := status r; question := question r; context := context r;
     weakConcepts := weakConcepts r; createdAt := createdAt r;
     service := service r;
     progress := progress r; message := message r;
     result := result r; error := Some msg |}.

Definition setMessage (msg : string) (r : request) : request :=
  {| status := status r; question := question r; context := context r;
     weakConcepts := weakConcepts r; createdAt := createdAt r;
     service := service r;
     progress := progress r; message := Some (lit msg);
     result := result r; error := error r |}.

(** One hour, in milliseconds: [60 * 60 * 1000]. *)
Definition retention : Z := 60 * 60 * 1000.

(** [processRAGRequest] from its call to its first [await]. *)
Definition processRAGRequest (now : Z) (requestId : jsstring) (sv : server)
  : server :=
  match requestStore sv !! requestId with
  | None => sv
  | Some r =>
      {| requestStore :=
           <[requestId := setMessage "Processing context..."
                            (setProgress 10 (setStatus "processing" r))]>
             (requestStore sv);
         timers := timers sv;
         tasks := <[requestId := AwaitingContext now]> (tasks sv) |}
  end.

(** The [catch] block of [processRAGRequest]. *)
Definition processingFailed (requestId : jsstring) (msg : jsstring)
    (sv : server) : server :=
  {| requestStore :=
       match requestStore sv !! requestId with
       | Some r =>
           <[requestId := setMessage "Processing failed"
                            (setError msg (setStatus "error" r))]>
             (requestStore sv)
       | None => requestStore sv
       end;
     timers := timers sv;
     tasks := delete requestId (tasks sv) |}.

(** [processRAGRequest] resumed when [contextProcessor.processContext]
    settles; [inl] is a rejection with that message. *)
Definition contextSettled (requestId : jsstring) (outcome : jsstring + json)
    (sv : server) : server :=
  match tasks sv !! requestId with
  | Some (AwaitingContext startTime) =>
      match outcome with
      | inl msg => processingFailed requestId msg sv
      | inr _ =>
          {| requestStore :=
               alter (fun r => setMessage "Generating embeddings..."
                                 (setProgress 30 r))
                 requestId (requestStore sv);
             timers := timers sv;
             tasks := <[requestId := AwaitingResponse startTime]> (tasks sv) |}
      end
  | _ => sv
  end.

(** [processRAGRequest] resumed when [ragService.generateResponse]
    settles, at time [now]. *)
Definition responseSettled (now : Z) (requestId : jsstring)
    (outcome : jsstring + ragResponse) (sv : server) : server :=
  match tasks sv !! requestId with
  | Some (AwaitingResponse startTime) =>
      match outcome with
      | inl msg => processingFailed requestId msg sv
      | inr res =>
          {| requestStore :=
               alter (fun r =>
                        setResult {| response := res;
                                     processingTime := now - startTime |}
                          (setMessage "Processing complete"
                             (setStatus "completed" (setProgress 100 r))))
                 requestId (requestStore sv);
             timers := timers sv ++ [(now + retention, requestId)];
             tasks := delete requestId (tasks sv) |}
      end
  | _ => sv
  end.

(** The timers that are due at [now] run: each deletes its request. *)
Definition elapse (now : Z) (sv : server) : server :=
  {| requestStore :=
       fold_left (fun store t => if fst t <=? now then delete (snd t) store
                                 else store)
         (timers sv) (requestStore sv);
     timers := List.filter (fun t => negb (fst t <=? now)) (timers sv);
     tasks := tasks sv |}.

(** [POST /thehopper/ask], with the time [new Date()] reads and the id
    [uuidv4()] draws. *)
Definition postAsk (now : Z) (requestId : jsstring) (b : body) (sv : server)
  : server * reply :=
  if negb (truthy_value (body_question b)) || negb (truthy_value (body_context b))
  then (sv, failure 400 "Question and context are required")
  else
    match body_question b, body_context b with
    | Some q, Some c =>
        let stored :=
          {| status := lit "processing"; question := q; context := c;
             weakConcepts := or_else (body_weakConcepts b) (JArr []);
             createdAt := now; service := lit "thehopper";
             progress := None; message := None;
             result := None; error := None |} in
        let sv1 :=
          {| requestStore := <[requestId := stored]> (requestStore sv);
             timers := timers sv; tasks := tasks sv |} in
        (processRAGRequest now requestId sv1,
         {| code := 200;
            payload := [(lit "success", JBool true);
                        (lit "requestId", JStr requestId);
                        (lit "message",
                         JStr (lit "Question submitted for processing"))] |})
    | _, _ => (sv, failure 400 "Question and context are required")
    end.

(** [GET /:service/status/:requestId] *)
Definition getStatus (svc requestId : jsstring) (sv : server) : reply :=
  match requestStore sv !! requestId with
  | None => failure 404 "Request not found"
  | Some r =>
      if negb (bool_decide (service r = svc)) then failure 400 "Service mismatch"
      else
        {| code := 200;
           payload := [(lit "success", JBool true);
                       (lit "status", JStr (status r));
                       (lit "progress",
                        num (match progress r with
                             | Some p => if p =? 0 then 0 else p
                             | None => 0
                             end));
                       (lit "message",
                        JStr (match message r with
                              | Some m => if truthy m then m else lit ""
                              | None => lit ""
                              end))] |}
  end.

(** [GET /:service/result/:requestId] *)
Definition getResult (svc requestId : jsstring) (sv : server) : reply :=
  match requestStore sv !! requestId with
  | None => failure 404 "Request not found"
  | Some r =>
      if negb (bool_decide (service r = svc)) then failure 400 "Service mismatch"
      else if negb (bool_decide (status r = lit "completed")) then
        {| code := 202;
           payload := [(lit "success", JBool false);
                       (lit "error", JStr (lit "Request not completed yet"));
                       (lit "status", JStr (status r))] |}
      else
        match result r with
        | None => failure 500 "Failed to get request result"
        | Some res =>
            {| code := 200;
               payload :=
                 [(lit "success", JBool true)]
                 ++ match answer (response res) with
                    | Some a => [(lit "answer", a)]
                    | None => []
                    end
                 ++ [(lit "citations",
                      or_else (citations (response res)) (JArr []));
                     (lit "themes",
                      or_else (themes (response res)) (JStr (lit "")));
                     (lit "processingTime", num (processingTime res))] |}
        end
  end.

(** What can happen to the server. *)
Inductive event :=
| Ask (now : Z) (requestId : jsstring) (b : body)
| ContextSettled (requestId : jsstring) (outcome : jsstring + json)
| ResponseSettled (now : Z) (requestId : jsstring)
    (outcome : jsstring + ragResponse)
| Elapse (now : Z).

Definition handle (e : event) (sv : server) : server :=
  match e with
  | Ask now requestId b => fst (postAsk now requestId b sv)
  | ContextSettled requestId outcome => contextSettled requestId outcome sv
  | ResponseSettled now requestId outcome =>
      responseSettled now requestId outcome sv
  | Elapse now => elapse now sv
  end.

(** [uuidv4()] never draws an identifier twice: a submission carries one
    the store does not hold. *)
Definition admissible (e : event) (sv : server) : Prop :=
  match e with
  | Ask _ requestId _ => requestStore sv !! requestId = None
  | _ => True
  end.

(** The states the server can be in. *)
Inductive reachable : server -> Prop :=
| reachable_initial : reachable initial
| reachable_step sv e :
    reachable sv -> admissible e sv -> reachable (handle e sv).

(** The message [ragService.generateResponse] rejects with, from the
    message of what it caught. *)
Definition pipelineFailure (cause : jsstring) : jsstring :=
  lit "RAG pipeline failed: " ++ cause.

End Routes.

(* ===================================================================== *)
(** ** Vocabulary of the statements *)
(* ===================================================================== *)

Module RankerSpec.
Import EmbeddingService.

(** [s] occurs in [t] as a contiguous piece. *)
Definition occursIn (s t : jsstring) : Prop := exists p q, t = p ++ s ++ q.

(** During packing a sentence is held when it occurs in an emitted chunk
    or in the chunk being filled. *)
Definition held (st : packer) (s : jsstring) : Prop :=
  (exists c, In c (chunks st) /\ occursIn s (text c))
  \/ occursIn s (currentChunk st).

(** The place of a binary64 value on the integer line: a finite value
    [m * 2^e] sits at [m * 2^(e - emin)], the infinities beyond every
    finite value, both zeros at [0]. *)
Definition SFord (x : spec_float) : Z :=
  match x with
  | S754_zero _ | S754_nan => 0
  | S754_infinity s => cond_Zopp s (2 ^ (emax - emin))
  | S754_finite s m e => cond_Zopp s (Zpos m * 2 ^ (e - emin))
  end.

Definition rank (x : float) : Z := SFord (Prim2SF x).

(** [0 < x] on specification floats. *)
Definition positive_result (x : spec_float) : bool :=
  SFltb (S754_zero false) x.

(** No score of the list is [NaN]. *)
Definition comparable (l : list similarity) : Prop :=
  Forall (fun r => is_nan (score r) = false) l.

(** [a] is ranked before [b]: its score is not lower, and on equal scores
    it comes first in the documents. *)
Definition ranksBefore (a b : similarity) : Prop :=
  (score b <=? score a)%float = true
  /\ ((score a =? score b)%float = true -> sim_index a < sim_index b).

(** The same order read on the integer line. *)
Definition before (a b : similarity) : Prop :=
  rank (score b) < rank (score a)
  \/ (rank (score a) = rank (score b) /\ sim_index a < sim_index b).

(** The service holds a loaded model. *)
Definition ready (s : service) (p : pipeline) : Prop :=
  isInitialized s = true /\ embedder s = Some p.

(** A model that embeds every text as the one-component vector [1]. *)
Definition unitModel : pipeline := fun _ => Some [1%float].

(** A model whose second component is the length of the text. *)
Definition lengthModel : pipeline := fun t =>
  Some [1%float; of_uint63 (Uint63.of_Z (len t))].

(** A bare document holding [t]. *)
Definition doc (t : string) : document :=
  {| text := lit t; index := 0;
     metadata := {| startChar := 0; length := 0 |}; embedding := None |}.

(** A document with a cached embedding. *)
Definition cachedDoc (t : string) (e : vector) : document :=
  {| text := lit t; index := 0;
     metadata := {| startChar := 0; length := 0 |}; embedding := Some e |}.

(** [a] stands before [b] with a score that is not lower, as [>=] on
    numbers reads it. *)
Definition nonIncreasing (a b : similarity) : Prop :=
  (score b <=? score a)%float = true.

(** A model whose embeddings are finite and overflow once squared: it
    embeds every text as the one-component vector [2^600]. *)
Definition hugeModel : pipeline := fun _ => Some [0x1p+600%float].

End RankerSpec.

Module StoreSpec.
Import Routes.

(** The server after a sequence of events. *)
Definition run (events : list event) (sv : server) : server :=
  fold_left (fun s e => handle e s) events sv.

(** The three shapes a stored request can have. *)
Definition consistent (r : request) : Prop :=
  (status r = lit "processing" /\ result r = None /\ error r = None)
  \/ (status r = lit "completed" /\ is_Some (result r) /\ error r = None)
  \/ (status r = lit "error" /\ result r = None /\ is_Some (error r)).

(** What holds of every reachable server. *)
Record invariant (sv : server) : Prop := {
  inv_jobs : forall id r, requestStore sv !! id = Some r -> consistent r;
  inv_tasks : forall id st, tasks sv !! id = Some st ->
    exists r, requestStore sv !! id = Some r
              /\ status r = lit "processing"
              /\ result r = None /\ error r = None;
  inv_timers : forall t id, In (t, id) (timers sv) ->
    tasks sv !! id = None
    /\ exists r, requestStore sv !! id = Some r /\ status r = lit "completed";
  inv_nodup : List.NoDup (map snd (timers sv));
  inv_completed : forall id r, requestStore sv !! id = Some r ->
    status r = lit "completed" -> exists t, In (t, id) (timers sv)
}.

(** Whether a timer due at [now] deletes [id]. *)
Definition dueFor (now : Z) (id : jsstring) (l : list (Z * jsstring)) : bool :=
  existsb (fun t => (fst t <=? now) && bool_decide (snd t = id)) l.

(** A well-formed submission. *)
Definition sampleBody : body :=
  {| body_question := Some (JStr (lit "What is machine learning?"));
     body_context := Some (JStr (lit "Machine learning is a subset of AI."));
     body_weakConcepts := Some (JArr [JStr (lit "algorithms")]) |}.

Definition sampleId : jsstring := lit "1b4e28ba-2fa1-4d3b-a3f5-ef19b5a7633b".

(** The rejection of a failed language-model call. *)
Definition sampleError : jsstring :=
  pipelineFailure (lit "Groq API error: Connection error.").

(** A submission whose language-model call fails five seconds later. *)
Definition failedRun : server :=
  run [Ask 0 sampleId sampleBody;
       ContextSettled sampleId (inr JNull);
       ResponseSettled 5000 sampleId (inl sampleError)] initial.

End StoreSpec.

From Stdlib Require Import DecimalString DecimalPos.

(* ===================================================================== *)
(** ** Further specifications: the life of a request, the chunks *)
(* ===================================================================== *)

Module LifecycleSpec.
Import Routes.

(** What a stored request looks like, given the stage its background task
    is suspended at ([None]: the task has ended). *)
Definition shaped (r : request) (t : option stage) : Prop :=
  service r = lit "thehopper"
  /\ match t with
     | Some (AwaitingContext startTime) =>
         status r = lit "processing" /\ progress r = Some 10
         /\ message r = Some (lit "Processing context...")
         /\ createdAt r = startTime
     | Some (AwaitingResponse startTime) =>
         status r = lit "processing" /\ progress r = Some 30
         /\ message r = Some (lit "Generating embeddings...")
         /\ createdAt r = startTime
     | None =>
         (status r = lit "completed" /\ progress r = Some 100
          /\ message r = Some (lit "Processing complete")
          /\ is_Some (result r))
         \/ (status r = lit "error"
             /\ message r = Some (lit "Processing failed")
             /\ (progress r = Some 10 \/ progress r = Some 30))
     end.

(** Every stored request has the shape its task's stage gives it. *)
Definition wellShaped (sv : server) : Prop :=
  forall id r, requestStore sv !! id = Some r -> shaped r (tasks sv !! id).

(** The request concerned by an event, if any. *)
Definition subject (e : event) : option jsstring :=
  match e with
  | Ask _ id _ | ContextSettled id _ | ResponseSettled _ id _ => Some id
  | Elapse _ => None
  end.

(** [progress] read as a number, [undefined] counting as 0. *)
Definition progressOf (r : request) : Z :=
  match progress r with Some p => p | None => 0 end.

(** What the pipeline resolves with in the examples. *)
Definition sampleResponse : ragResponse :=
  {| answer := Some (JStr (lit "It is a subset of AI."));
     citations := None; themes := None |}.

(** A submission answered five seconds later. *)
Definition completedRun : server :=
  StoreSpec.run [Ask 0 StoreSpec.sampleId StoreSpec.sampleBody;
                 ContextSettled StoreSpec.sampleId (inr JNull);
                 ResponseSettled 5000 StoreSpec.sampleId (inr sampleResponse)]
    initial.

End LifecycleSpec.

Module ChunkSpec.
Import EmbeddingService RankerSpec.

(** A chunk as [splitText] builds it: a non-empty body and a full stop,
    the body's length in [metadata.length], no embedding yet, and in
    [metadata.startChar] either [-1] or an offset of the body in the
    text. *)
Definition wellFormedChunk (text0 : jsstring) (c : document) : Prop :=
  exists body,
    body <> []
    /\ text c = body ++ lit "."
    /\ length (metadata c) = len body
    /\ embedding c = None
    /\ (startChar (metadata c) = -1
        \/ exists pre post,
             text0 = pre ++ body ++ post
             /\ startChar (metadata c) = len pre).

(** What the packing loop keeps true of the chunks emitted so far. *)
Definition tidy (text0 : jsstring) (st : packer) : Prop :=
  Forall (wellFormedChunk text0) (chunks st)
  /\ chunkIndex st = Z.of_nat (List.length (chunks st))
  /\ map index (chunks st)
     = map Z.of_nat (seq 0 (List.length (chunks st))).

(** The chunks a packer will have emitted once flushed. *)
Definition pending (st : packer) : nat :=
  (List.length (chunks st) + (if truthy (currentChunk st) then 1 else 0))%nat.

End ChunkSpec.

(* ===================================================================== *)
(** ** The embedding service: [embedBatch]; what retrieval keeps *)
(* ===================================================================== *)

Module Batch.
Import EmbeddingService.

Section WithModel.
Variable load : option pipeline.

(** The loop [for (const text of texts)] of [embedBatch]. *)
Fixpoint embedEach (texts : list jsstring) : M (list vector) :=
  match texts with
  | [] => ret []
  | t :: rest =>
      bind (embed load t)
        (fun e => bind (embedEach rest) (fun es => ret (e :: es)))
  end.

(** [embedBatch(texts)]: the model is loaded outside the [try]; whatever
    the loop throws is rethrown as one fixed message. *)
Definition embedBatch (texts : list jsstring) : M (list vector) :=
  bind (fun s => if isInitialized s then ret tt s else initialize load s)
    (fun _ =>
       catch (embedEach texts)
         (fun _ => throw (lit "Failed to generate batch embeddings"))).

End WithModel.

End Batch.

Module RetrievalSpec.
Import EmbeddingService RankerSpec.

(** [d'] is [d] after a call: the same text, index and metadata, and
    whatever embedding [d] had cached is still there. *)
Definition cachedFrom (d d' : document) : Prop :=
  text d' = text d /\ index d' = index d /\ metadata d' = metadata d
  /\ forall e, embedding d = Some e -> embedding d' = Some e.

(** [r] is the entry of [documents] at its own index, scored against
    the query embedding [qv] with the embedding cached on it. *)
Definition pointsInto (qv : vector) (documents : list document)
    (r : similarity) : Prop :=
  0 <= sim_index r
  /\ documents !! Z.to_nat (sim_index r) = Some (sim_document r)
  /\ exists e, embedding (sim_document r) = Some e
               /\ cosineSimilarity qv e = inr (score r).

(** A result as [findSimilar] computes it from [documents] with the
    model [p]: the entry of [documents'] at its own index, scored against
    [qv] with the embedding cached on it, which is the one [documents]
    already held there or, where none was cached, the one [p] gives for
    the text. *)
Definition scoredBy (p : pipeline) (qv : vector)
    (documents documents' : list document) (r : similarity) : Prop :=
  pointsInto qv documents' r
  /\ exists d, documents !! Z.to_nat (sim_index r) = Some d
               /\ text (sim_document r) = text d
               /\ embedding (sim_document r)
                  = match embedding d with
                    | Some e => Some e
                    | None => p (text d)
                    end.

(** A context of 1440 characters: [splitText] with chunks of 1000 cuts
    it in two. *)
Definition longContext : jsstring :=
  List.concat (repeat (lit "Machine learning is a subset of AI. ") 40).

End RetrievalSpec.

(* ===================================================================== *)
(** ** Values shared by the models below *)
(* ===================================================================== *)

Module JsValues.
Import Routes.

(** An integer as a template literal prints it. *)
Definition decimal (n : Z) : jsstring :=
  lit (NilZero.string_of_int (Z.to_int n)).

(** [s.includes(p)] *)
Definition includes (s p : jsstring) : bool := negb (indexOf s p =? -1).

(** [o.k] on a parsed JSON object, which holds each key once; [None] is
    [undefined]. *)
Fixpoint field (k : string) (o : list (jsstring * json)) : option json :=
  match o with
  | [] => None
  | (k', v) :: rest => if bool_decide (k' = lit k) then Some v else field k rest
  end.

End JsValues.

(* ===================================================================== *)
(** ** The front-end client of the routes: [callTheHopper] *)
(* ===================================================================== *)

Module TheHopperClient.
Import Routes JsValues.

(** [v === 's'] *)
Definition equals (v : option json) (s : string) : bool :=
  match v with
  | Some (JStr t) => bool_decide (t = lit s)
  | _ => false
  end.

(** The requests the client sends. *)
Inductive call :=
| PostAsk (question context weakConcepts Stats : json)
| GetStatus (requestId : jsstring)
| GetResult (requestId : jsstring).

(** What [await fetch(...)] does: it rejects with a [TypeError] when the
    network fails, or resolves with a response whose body is a JSON
    object. *)
Inductive fetched :=
| Rejected (message : jsstring)
| Resolved (response : reply).

(** [response.ok] *)
Definition ok (r : reply) : bool := (200 <=? code r) && (code r <=? 299).

(** What is thrown inside the polling loop: the rejection of [fetch], or
    an [Error] the loop builds. *)
Inductive thrown :=
| TypeError (message : jsstring)
| Error (message : jsstring).

Definition messageOf (e : thrown) : jsstring :=
  match e with TypeError m | Error m => m end.

(** [error.name === 'TypeError' || error.message.includes('fetch')] *)
Definition retried (e : thrown) : bool :=
  match e with
  | TypeError _ => true
  | Error m => includes m (lit "fetch")
  end.

(** The object [callTheHopper] resolves with ([success] is [true]). *)
Record hopperAnswer := {
  ans_answer : option json;
  ans_citations : json;
  ans_themes : json;
  ans_processingTime : option json;
  ans_source : json;
  ans_model : option json
}.

(** How one turn of the polling loop ends. *)
Inductive verdict :=
| Return (a : hopperAnswer)
| Throw (e : thrown)
| Next.

Definition maxAttempts : nat := 300.

Section Transport.

(** The world the client talks to: [fetch] and the one-second wait both
    move it on. *)
Context {World : Type}.
Variable fetch : call -> World -> fetched * World.
Variable sleep : World -> World.

(** [String(v)], as [new Error(v)] and template literals apply it. *)
Variable toString : json -> jsstring.

(** The [try] block of one turn of the loop, up to the wait. *)
Definition attempt (requestId : jsstring) (w : World) : verdict * World :=
  match fetch (GetStatus requestId) w with
  | (Rejected m, w1) => (Throw (TypeError m), w1)
  | (Resolved statusResponse, w1) =>
      if negb (ok statusResponse) then (Next, w1)
      else
        let statusResult := payload statusResponse in
        if negb (truthy_value (field "success" statusResult)) then (Next, w1)
        else
          let status := field "status" statusResult in
          if equals status "completed" then
            match fetch (GetResult requestId) w1 with
            | (Rejected m, w2) => (Throw (TypeError m), w2)
            | (Resolved resultResponse, w2) =>
                if ok resultResponse then
                  let result := payload resultResponse in
                  if truthy_value (field "success" result) then
                    (Return
                       {| ans_answer := field "answer" result;
                          ans_citations :=
                            or_else (field "citations" result) (JArr []);
                          ans_themes :=
                            or_else (field "themes" result) (JStr (lit ""));
                          ans_processingTime := field "processingTime" result;
                          ans_source :=
                            or_else (field "source" result)
                              (JStr (lit "RAG_SYSTEM"));
                          ans_model := field "model" result |}, w2)
                  else
                    (Throw (Error
                       (toString
                          (or_else (field "error" result)
                             (JStr (lit "Failed to get response from TheHopper"))))),
                     w2)
                else
                  (Throw (Error (lit "Failed to fetch result: "
                                 ++ decimal (code resultResponse))), w2)
            end
          else if equals status "failed" then
            match fetch (GetResult requestId) w1 with
            | (Rejected m, w2) => (Throw (TypeError m), w2)
            | (Resolved resultResponse, w2) =>
                if ok resultResponse then
                  (Throw (Error
                     (toString
                        (or_else (field "error" (payload resultResponse))
                           (JStr (lit "Processing failed"))))), w2)
                else (Throw (Error (lit "Processing failed")), w2)
            end
          else (Next, w1)
  end.

(** [while (attempts < maxAttempts)], with [remaining] turns left. *)
Fixpoint poll (remaining : nat) (requestId : jsstring) (w : World)
  : (jsstring + hopperAnswer) * World :=
  match remaining with
  | O => (inl (lit "Request timed out after 5 minutes of polling"), w)
  | S remaining' =>
      match attempt requestId w with
      | (Return a, w1) => (inr a, w1)
      | (Next, w1) => poll remaining' requestId (sleep w1)
      | (Throw e, w1) =>
          if retried e then poll remaining' requestId (sleep w1)
          else (inl (messageOf e), w1)
      end
  end.

(** The message of the error the outer [catch] rethrows. *)
Definition backendError (message : jsstring) : jsstring :=
  lit "RAG Backend API Error: " ++ message
  ++ lit ". Please ensure the backend server is running on the correct port.".

(** [callTheHopper(question, context, weakConcepts, Stats)] without a
    progress callback; [inl] is the message of the rejection. *)
Definition callTheHopper (question context weakConcepts Stats : json)
    (w : World) : (jsstring + hopperAnswer) * World :=
  let '(r, w') :=
    match fetch (PostAsk question context weakConcepts Stats) w with
    | (Rejected m, w1) => (inl m, w1)
    | (Resolved submitResponse, w1) =>
        if negb (ok submitResponse) then
          (inl (lit "HTTP error! status: " ++ decimal (code submitResponse)),
           w1)
        else
          let submitResult := payload submitResponse in
          match field "requestId" submitResult with
          | Some requestId =>
              if negb (truthy_value (field "success" submitResult))
                 || negb (truthy_value (Some requestId))
              then (inl (lit "Failed to submit question to TheHopper"), w1)
              else poll maxAttempts (toString requestId) w1
          | None => (inl (lit "Failed to submit question to TheHopper"), w1)
          end
    end in
  (match r with
   | inl m => inl (backendError m)
   | inr a => inr a
   end, w').

End Transport.

(** *** The client against this server *)

(** The server and the number of requests it has answered. *)
Record world := { srv : server; tick : nat }.

(** A rendering that is [String(v)] on strings, [null] and booleans. *)
Definition display (v : json) : jsstring :=
  match v with
  | JStr s => s
  | JNull => lit "null"
  | JBool true => lit "true"
  | JBool false => lit "false"
  | _ => lit "[object Object]"
  end.

Section Deployment.

(** What surrounds the client: the events the server handles before it
    answers the [n]-th request, whether that request fails on the
    network (with which message; it then does not reach the server), the
    time the server reads, and the identifier [uuidv4()] draws for the
    client's submission. *)
Variable background : nat -> list event.
Variable down : nat -> option jsstring.
Variable clock : nat -> Z.
Variable uuid : jsstring.
Variable toString : json -> jsstring.

Definition serve (c : call) (w : world) : fetched * world :=
  let sv := StoreSpec.run (background (tick w)) (srv w) in
  match down (tick w) with
  | Some m => (Rejected m, {| srv := sv; tick := S (tick w) |})
  | None =>
      match c with
      | PostAsk q c wc _ =>
          let '(sv', r) :=
            postAsk (clock (tick w)) uuid
              {| body_question := Some q; body_context := Some c;
                 body_weakConcepts := Some wc |} sv in
          (Resolved r, {| srv := sv'; tick := S (tick w) |})
      | GetStatus requestId =>
          (Resolved (getStatus (lit "thehopper") requestId sv),
           {| srv := sv; tick := S (tick w) |})
      | GetResult requestId =>
          (Resolved (getResult (lit "thehopper") requestId sv),
           {| srv := sv; tick := S (tick w) |})
      end
  end.

(** [callTheHopper] run against the routes. *)
Definition ask (question context weakConcepts Stats : json) (sv : server)
  : (jsstring + hopperAnswer) * world :=
  callTheHopper serve (fun w => w) toString question context weakConcepts Stats
    {| srv := sv; tick := 0 |}.

End Deployment.

End TheHopperClient.

(* ===================================================================== *)
(** ** Vocabulary for the client *)
(* ===================================================================== *)

Module ClientSpec.
Import Routes JsValues TheHopperClient.

(** What the store says of one request. *)
Inductive phase :=
| Gone
| Processing
| Failed
| Completed (res : ragResult).

Definition inPhase (id : jsstring) (sv : server) (ph : phase) : Prop :=
  match ph with
  | Gone => requestStore sv !! id = None
  | Processing =>
      exists r, requestStore sv !! id = Some r
                /\ service r = lit "thehopper"
                /\ status r = lit "processing"
  | Failed =>
      exists r, requestStore sv !! id = Some r
                /\ service r = lit "thehopper"
                /\ status r = lit "error"
                /\ tasks sv !! id = None
  | Completed res =>
      exists r, requestStore sv !! id = Some r
                /\ service r = lit "thehopper"
                /\ status r = lit "completed"
                /\ result r = Some res
                /\ tasks sv !! id = None
  end.

(** The phases a request can move to while nobody submits under its
    identifier again. *)
Definition next (ph ph' : phase) : Prop :=
  match ph with
  | Gone => ph' = Gone
  | Processing => True
  | Failed => ph' = Failed \/ ph' = Gone
  | Completed res => ph' = Completed res \/ ph' = Gone
  end.

(** The [status] the routes report in each phase. *)
Definition statusName (ph : phase) : string :=
  match ph with
  | Completed _ => "completed"
  | Failed => "error"
  | _ => "processing"
  end.

Definition unfinished (ph : phase) : Prop :=
  match ph with Completed _ => False | _ => True end.

(** The event submits under [id]. *)
Definition asks (id : jsstring) (e : event) : Prop :=
  exists now b, e = Ask now id b.

(** The event is a successful answer of the language model for [id]. *)
Definition answers (id : jsstring) (e : event) : Prop :=
  exists now res, e = ResponseSettled now id (inr res).

(** The time a suspended background task was started at. *)
Definition startOf (stg : stage) : Z :=
  match stg with
  | AwaitingContext startTime | AwaitingResponse startTime => startTime
  end.

(** [res] is what [processRAGRequest] stores for an answer the language
    model gave to the request [id] submitted at [t0]: some event of the
    surroundings settles the response of [id] with [resp], and the
    processing time runs from [t0] to that event. *)
Definition answeredBy (background : nat -> list event) (id : jsstring)
    (t0 : Z) (res : ragResult) : Prop :=
  exists n now resp,
    In (ResponseSettled now id (inr resp)) (background n)
    /\ res = {| response := resp; processingTime := now - t0 |}.

(** The request stored under [id] is the one submitted at [t0] with the
    question [q] and the context [c]: its task, while it runs, was
    started at [t0], and a result it holds is an answer to it. *)
Definition traced (background : nat -> list event) (id : jsstring)
    (t0 : Z) (q c : json) (sv : server) : Prop :=
  (forall stg, tasks sv !! id = Some stg -> startOf stg = t0)
  /\ (forall r, requestStore sv !! id = Some r ->
                question r = q /\ context r = c
                /\ forall res, result r = Some res ->
                               answeredBy background id t0 res).

(** What the client makes of a stored result. *)
Definition answerOf (res : ragResult) : hopperAnswer :=
  {| ans_answer := answer (response res);
     ans_citations :=
       or_else (Some (or_else (citations (response res)) (JArr [])))
         (JArr []);
     ans_themes :=
       or_else (Some (or_else (themes (response res)) (JStr (lit ""))))
         (JStr (lit ""));
     ans_processingTime := Some (num (processingTime res));
     ans_source := JStr (lit "RAG_SYSTEM");
     ans_model := None |}.

Definition timedOut : jsstring :=
  backendError (lit "Request timed out after 5 minutes of polling").

(** Surroundings in which the language model rejects the one request
    the server ever gets. *)
Definition failingBackground (id : jsstring) (n : nat) : list event :=
  match n with
  | 1%nat => [ContextSettled id (inr JNull)]
  | 2%nat => [ResponseSettled 5000 id (inl StoreSpec.sampleError)]
  | _ => []
  end.

(** Surroundings in which the request is answered before the third
    poll. *)
Definition answeringBackground (id : jsstring) (n : nat) : list event :=
  match n with
  | 1%nat => [ContextSettled id (inr JNull)]
  | 3%nat => [ResponseSettled 5000 id (inr LifecycleSpec.sampleResponse)]
  | _ => []
  end.

End ClientSpec.

(* ===================================================================== *)
(** ** The context processor: [getTopRelevantContext] *)
(* ===================================================================== *)

Module ContextProcessor.

(** The look-ahead [(?=##\s)] succeeds at the head of [s]. *)
Definition atHeading (s : jsstring) : bool :=
  match s with
  | a :: b :: c :: _ => (a =? 35)%N && (b =? 35)%N && is_space c
  | _ => false
  end.

(** [context.split(/(?=##\s)/g)], with [cur] the piece being read: an
    empty match splits the text wherever it succeeds, except at the
    start of a piece. *)
Fixpoint split_headings (cur s : jsstring) : list jsstring :=
  match s with
  | [] => [cur]
  | c :: s' =>
      if atHeading s && truthy cur then cur :: split_headings [c] s'
      else split_headings (cur ++ [c]) s'
  end.

(** [context.split(/(?=##\s)/g).filter(section => section.trim().length > 0)] *)
Definition sectionsOf (context : jsstring) : list jsstring :=
  List.filter (fun section => 0 <? len (trim section))
    (split_headings [] context).

(** [getTopRelevantContext(context, k)] *)
Definition getTopRelevantContext (context : jsstring) (k : Z) : jsstring :=
  let sections := sectionsOf context in
  if Z.of_nat (List.length sections) <=? k then context
  else join [10; 10]%N (slice0 sections k).

(** Three headed sections of one line each. *)
Definition sampleContext : jsstring :=
  lit "## Notes" ++ [10]%N ++ lit "Machine learning is a subset of AI."
  ++ [10]%N ++ lit "## Flashcards" ++ [10]%N ++ lit "Q: What is AI?"
  ++ [10]%N ++ lit "## Progress" ++ [10]%N ++ lit "Two sessions done.".

End ContextProcessor.

(* ===================================================================== *)
(** ** The RAG service: [validatePayload] *)
(* ===================================================================== *)

Module RagService.
Import Routes JsValues.

(** [v.k] for one of the keys the validator reads: [undefined] unless
    [v] is an object that holds [k]. *)
Definition prop (k : string) (v : option json) : option json :=
  match v with
  | Some (JObj o) => field k o
  | _ => None
  end.

(** [typeof v === 'string'] *)
Definition isString (v : option json) : bool :=
  match v with Some (JStr _) => true | _ => false end.

(** [Array.isArray(v)] *)
Definition isArray (v : option json) : bool :=
  match v with Some (JArr _) => true | _ => false end.

(** What [validatePayload] returns. *)
Record validation := { valid : bool; errors : list jsstring }.

(** The errors pushed for [payload.Stats]. *)
Definition statsErrors (Stats : option json) : list jsstring :=
  if truthy_value Stats then
    match Stats with
    | Some (JArr items) =>
        if negb (List.length items =? 2)%nat then
          [lit "Stats must contain exactly 2 arrays [areasOfDifficulty, learningProgress]"]
        else
          (if negb (isArray (items !! 0%nat))
           then [lit "Stats[0] (areasOfDifficulty) must be an array"] else [])
          ++ (if negb (isArray (items !! 1%nat))
              then [lit "Stats[1] (learningProgress) must be an array"] else [])
    | _ => [lit "Stats must be an array"]
    end
  else [].

(** [validatePayload(payload)] *)
Definition validatePayload (payload : option json) : validation :=
  if negb (truthy_value payload) then
    {| valid := false; errors := [lit "Payload is required"] |}
  else
    let errors :=
      (if negb (truthy_value (prop "question" payload))
          || negb (isString (prop "question" payload))
       then [lit "Question is required and must be a string"] else [])
      ++ (if negb (truthy_value (prop "context" payload))
             || negb (isString (prop "context" payload))
          then [lit "Context is required and must be a string"] else [])
      ++ (if truthy_value (prop "weakConcepts" payload)
             && negb (isArray (prop "weakConcepts" payload))
          then [lit "WeakConcepts must be an array"] else [])
      ++ statsErrors (prop "Stats" payload) in
    {| valid := (List.length errors =? 0)%nat; errors := errors |}.

(** [req.body] as the submit handler destructures it. *)
Definition bodyOf (payload : option json) : body :=
  {| body_question := prop "question" payload;
     body_context := prop "context" payload;
     body_weakConcepts := prop "weakConcepts" payload |}.

(** A submission the route takes and the validator refuses: the question
    is a number. *)
Definition numericQuestion : option json :=
  Some (JObj [(lit "question", num 42);
              (lit "context", JStr (lit "Machine learning is a subset of AI."))]).

(** The payload [testPipeline] builds. *)
Definition testPayload : option json :=
  Some (JObj
    [(lit "question", JStr (lit "What is machine learning?"));
     (lit "context", JStr (lit "Machine learning is a subset of artificial intelligence that enables computers to learn and make decisions from data without being explicitly programmed."));
     (lit "weakConcepts",
      JArr [JStr (lit "algorithms"); JStr (lit "data processing")]);
     (lit "Stats",
      JArr [JArr [JStr (lit "Understanding algorithms");
                  JStr (lit "Data preprocessing")];
            JArr [JStr (lit "Completed basic ML course");
                  JStr (lit "70% accuracy on practice tests")]])]).

End RagService.

(* ===================================================================== *)
(** ** The WAV header of the speech service *)
(* ===================================================================== *)

Module Wav.
Import JsValues.

(** The audio parameters [parseMimeType] returns.  [sampleRate] is
    [None] when it is [NaN]; the numbers are integers of a size at which
    the products below are exact in binary64. *)
Record options := {
  numChannels : Z;
  sampleRate : option Z;
  bitsPerSample : Z
}.

(** The bytes of an [ArrayBuffer]. *)
Definition buffer := list Z.

(** [view.setUint8(offset, value)]; every offset used lies inside the
    buffer, where no [RangeError] is thrown. *)
Definition setUint8 (offset : nat) (value : Z) (b : buffer) : buffer :=
  <[offset := value mod 256]> b.

(** [view.setUint16(offset, value, true)]: little-endian. *)
Definition setUint16 (offset : nat) (value : Z) (b : buffer) : buffer :=
  let v := value mod 65536 in
  setUint8 (offset + 1) (v / 256) (setUint8 offset v b).

(** [view.setUint32(offset, value, true)]: little-endian. *)
Definition setUint32 (offset : nat) (value : Z) (b : buffer) : buffer :=
  let v := value mod 4294967296 in
  setUint8 (offset + 3) (v / 16777216)
    (setUint8 (offset + 2) (v / 65536)
       (setUint8 (offset + 1) (v / 256) (setUint8 offset v b))).

(** [writeString(offset, string)] *)
Fixpoint writeString (offset : nat) (s : jsstring) (b : buffer) : buffer :=
  match s with
  | [] => b
  | c :: s' => writeString (S offset) s' (setUint8 offset (Z.of_N c) b)
  end.

(** The integer a [DataView] setter makes of the number [eighths / 8]:
    [NaN] is [0], a fraction is truncated toward zero. *)
Definition toInteger (eighths : option Z) : Z :=
  match eighths with
  | Some n => Z.quot n 8
  | None => 0
  end.

(** [createWavHeader(dataLength, options)] *)
Definition createWavHeader (dataLength : Z) (o : options) : buffer :=
  let byteRate :=
    toInteger (option_map (fun rate => rate * numChannels o * bitsPerSample o)
                 (sampleRate o)) in
  let blockAlign := toInteger (Some (numChannels o * bitsPerSample o)) in
  let view := repeat 0 44 in
  let view := writeString 0 (lit "RIFF") view in
  let view := setUint32 4 (36 + dataLength) view in
  let view := writeString 8 (lit "WAVE") view in
  let view := writeString 12 (lit "fmt ") view in
  let view := setUint32 16 16 view in
  let view := setUint16 20 1 view in
  let view := setUint16 22 (numChannels o) view in
  let view := setUint32 24 (match sampleRate o with Some r => r | None => 0 end)
                view in
  let view := setUint32 28 byteRate view in
  let view := setUint16 32 blockAlign view in
  let view := setUint16 34 (bitsPerSample o) view in
  let view := writeString 36 (lit "data") view in
  setUint32 40 dataLength view.

(** [s.split(sep)] for a separator of one character. *)
Fixpoint splitOn (sep : N) (s : jsstring) : list jsstring :=
  match s with
  | [] => [[]]
  | c :: s' =>
      if (c =? sep)%N then [] :: splitOn sep s'
      else match splitOn sep s' with
           | piece :: pieces => (c :: piece) :: pieces
           | [] => [[c]]
           end
  end.

(** The value of a decimal digit. *)
Definition digitOf (c : N) : option Z :=
  if ((48 <=? c) && (c <=? 57))%N then Some (Z.of_N c - 48) else None.

(** The integer the leading digits of [s] spell, [acc] being what was
    read so far; [None] while no digit was read. *)
Fixpoint digits (acc : option Z) (s : jsstring) : option Z :=
  match s with
  | [] => acc
  | c :: s' =>
      match digitOf c with
      | Some d =>
          digits (Some (10 * (match acc with Some a => a | None => 0 end) + d))
            s'
      | None => acc
      end
  end.

(** [parseInt(s, 10)] on a string or [undefined]; [None] is [NaN].  The
    integer is exact, where JavaScript rounds beyond 2^53. *)
Definition parseInt (s : option jsstring) : option Z :=
  match s with
  | None => None
  | Some s =>
      match trimStart s with
      | c :: rest =>
          if (c =? 45)%N then option_map Z.opp (digits None rest)
          else if (c =? 43)%N then digits None rest
          else digits None (c :: rest)
      | [] => None
      end
  end.

(** The loop over the parameters: a [rate] sets the sample rate. *)
Definition readParam (rate : option Z) (param : jsstring) : option Z :=
  let keyValue := map trim (splitOn 61 param) in
  if bool_decide (keyValue !! 0%nat = Some (lit "rate"))
  then parseInt (keyValue !! 1%nat)
  else rate.

(** [parseMimeType(mimeType)]; [split] never yields an empty array. *)
Definition parseMimeType (mimeType : jsstring) : options :=
  match map trim (splitOn 59 mimeType) with
  | [] => {| numChannels := 1; sampleRate := Some 24000; bitsPerSample := 16 |}
  | fileType :: params =>
      let format := splitOn 47 fileType !! 1%nat in
      {| numChannels := 1;
         sampleRate := fold_left readParam params (Some 24000);
         bitsPerSample :=
           match format with
           | Some f =>
               if truthy f && startsWith f (lit "L") then
                 match parseInt (Some (drop 1 f)) with
                 | Some bits => bits
                 | None => 16
                 end
               else 16
           | None => 16
           end |}
  end.

Section Blob.

(** [Buffer.from(rawData, 'base64')], the decoded bytes. *)
Variable fromBase64 : jsstring -> list Z.

(** [convertToWav(rawData, mimeType)]: the bytes of the blob, the header
    first. *)
Definition convertToWav (rawData mimeType : jsstring) : list Z :=
  let options := parseMimeType mimeType in
  let wavHeader := createWavHeader (len rawData) options in
  let buffer := fromBase64 rawData in
  wavHeader ++ buffer.

End Blob.

(** The numbers are integers below 2^53 in size, and so are the products
    the header is computed from: the arithmetic of the source is exact
    on them. *)
Definition exact (dataLength : Z) (o : options) : Prop :=
  let rate := match sampleRate o with Some r => r | None => 0 end in
  0 <= dataLength < 2 ^ 53 - 36
  /\ Z.abs (numChannels o) < 2 ^ 53
  /\ Z.abs (bitsPerSample o) < 2 ^ 53
  /\ Z.abs rate < 2 ^ 53
  /\ Z.abs (rate * numChannels o) < 2 ^ 53
  /\ Z.abs (rate * numChannels o * bitsPerSample o) < 2 ^ 53
  /\ Z.abs (numChannels o * bitsPerSample o) < 2 ^ 53.

(** A character of a printed integer: a digit or the minus sign. *)
Definition numeric (c : N) : bool :=
  ((c =? 45) || (48 <=? c) && (c <=? 57))%N.

(** Reading the header back: [width] bytes at [offset], little-endian. *)
Fixpoint readLE (width : nat) (b : buffer) : Z :=
  match width, b with
  | S w, x :: b' => x + 256 * readLE w b'
  | _, _ => 0
  end.

Definition getUint (width offset : nat) (b : buffer) : Z :=
  readLE width (drop offset b).

(** The text held at [offset]. *)
Definition getString (offset width : nat) (b : buffer) : list Z :=
  take width (drop offset b).

End Wav.

(* ===================================================================== *)
(** ** The order of binary64 values *)
(* ===================================================================== *)

Module FloatOrder.
Import RankerSpec.

Lemma digits2_pos_bounds (m : positive) :
  2 ^ (Zpos (digits2_pos m) - 1) <= Zpos m < 2 ^ Zpos (digits2_pos m).
Proof.
  induction m as [m IH|m IH|]; cbn [digits2_pos].
  - rewrite Pos2Z.inj_succ.
    replace (Z.succ (Zpos (digits2_pos m)) - 1) with (Z.succ (Zpos (digits2_pos m) - 1)) by lia.
    rewrite !Z.pow_succ_r by lia. lia.
  - rewrite Pos2Z.inj_succ.
    replace (Z.succ (Zpos (digits2_pos m)) - 1) with (Z.succ (Zpos (digits2_pos m) - 1)) by lia.
    rewrite !Z.pow_succ_r by lia. lia.
  - cbn. lia.
Qed.

Lemma valid_finite s m e :
  valid_binary (S754_finite s m e) = true ->
  emin <= e <= emax - prec
  /\ Zpos (digits2_pos m) <= prec
  /\ (emin < e -> Zpos (digits2_pos m) = prec).
Proof.
  cbn [SpecFloat.valid_binary]. unfold bounded, canonical_mantissa, fexp.
  intros H. apply andb_prop in H as [H1 H2].
  apply Z.eqb_eq in H1. apply Z.leb_le in H2.
  unfold SpecFloat.emin, prec, emax in *. lia.
Qed.

Lemma finite_magnitude s m e :
  valid_binary (S754_finite s m e) = true ->
  0 < Zpos m * 2 ^ (e - emin) < 2 ^ (emax - emin).
Proof.
  intros H. destruct (valid_finite _ _ _ H) as (He & Hd & _).
  pose proof (digits2_pos_bounds m) as [_ Hm].
  assert (Hp : 0 < 2 ^ (e - emin)) by (apply Z.pow_pos_nonneg; lia).
  split; [lia|].
  assert (H1 : 2 ^ Zpos (digits2_pos m) <= 2 ^ prec)
    by (apply Z.pow_le_mono_r; lia).
  assert (H2 : 2 ^ (e - emin) <= 2 ^ (emax - prec - emin))
    by (apply Z.pow_le_mono_r; lia).
  assert (H3 : 2 ^ prec * 2 ^ (emax - prec - emin) = 2 ^ (emax - emin)).
  { rewrite <- Z.pow_add_r by (unfold SpecFloat.emin, prec, emax; lia).
    f_equal. }
  assert (H4 : 0 < 2 ^ prec) by (apply Z.pow_pos_nonneg; unfold prec; lia).
  rewrite <- H3. nia.
Qed.

Lemma lower_exponent_smaller s1 m1 e1 s2 m2 e2 :
  valid_binary (S754_finite s1 m1 e1) = true ->
  valid_binary (S754_finite s2 m2 e2) = true ->
  e1 < e2 ->
  Zpos m1 * 2 ^ (e1 - emin) < Zpos m2 * 2 ^ (e2 - emin).
Proof.
  intros V1 V2 Hlt.
  destruct (valid_finite _ _ _ V1) as (He1 & Hd1 & _).
  destruct (valid_finite _ _ _ V2) as (He2 & _ & Hd2).
  specialize (Hd2 ltac:(lia)).
  pose proof (digits2_pos_bounds m1) as [_ Hm1].
  pose proof (digits2_pos_bounds m2) as [Hm2 _].
  rewrite Hd2 in Hm2.
  assert (H1 : 2 ^ Zpos (digits2_pos m1) <= 2 ^ prec)
    by (apply Z.pow_le_mono_r; lia).
  assert (Hp : 0 < 2 ^ (e1 - emin)) by (apply Z.pow_pos_nonneg; lia).
  assert (H2 : 2 * 2 ^ (e1 - emin) <= 2 ^ (e2 - emin)).
  { rewrite <- Z.pow_succ_r by lia. apply Z.pow_le_mono_r; lia. }
  assert (H3 : 2 ^ prec = 2 * 2 ^ (prec - 1)).
  { rewrite <- Z.pow_succ_r by (unfold prec; lia). f_equal. }
  assert (H4 : 0 < 2 ^ (prec - 1)) by (apply Z.pow_pos_nonneg; unfold prec; lia).
  nia.
Qed.

Lemma mul_compare_r (p a b : Z) : 0 < p -> (a * p ?= b * p) = (a ?= b).
Proof.
  intros Hp. destruct (Z.compare_spec a b) as [->|H|H].
  - apply Z.compare_refl.
  - apply Z.compare_lt_iff. nia.
  - apply Z.compare_gt_iff. nia.
Qed.

Lemma compare_finite_pos s1 m1 e1 s2 m2 e2 :
  valid_binary (S754_finite s1 m1 e1) = true ->
  valid_binary (S754_finite s2 m2 e2) = true ->
  match e1 ?= e2 with
  | Lt => Lt
  | Gt => Gt
  | Eq => PosDef.Pos.compare_cont Eq m1 m2
  end = (Zpos m1 * 2 ^ (e1 - emin) ?= Zpos m2 * 2 ^ (e2 - emin)).
Proof.
  intros V1 V2. destruct (Z.compare_spec e1 e2) as [->|Hlt|Hgt].
  - destruct (valid_finite _ _ _ V2) as (He & _ & _).
    rewrite mul_compare_r by (apply Z.pow_pos_nonneg; lia).
    reflexivity.
  - symmetry. apply Z.compare_lt_iff.
    eapply lower_exponent_smaller; eassumption.
  - symmetry. apply Z.compare_gt_iff.
    eapply lower_exponent_smaller; eassumption.
Qed.

Lemma SFcompare_ord (X Y : spec_float) :
  valid_binary X = true -> valid_binary Y = true ->
  X <> S754_nan -> Y <> S754_nan ->
  SFcompare X Y = Some (SFord X ?= SFord Y).
Proof.
  intros VX VY NX NY.
  destruct X as [sx|sx| |sx mx ex]; [| |contradiction|];
  destruct Y as [sy|sy| |sy my ey]; try contradiction.
  all: try pose proof (finite_magnitude _ _ _ VX) as MX.
  all: try pose proof (finite_magnitude _ _ _ VY) as MY.
  all: assert (HI : 0 < 2 ^ (emax - emin))
    by (apply Z.pow_pos_nonneg; unfold SpecFloat.emin, prec, emax; lia).
  all: cbn [SFcompare SFord cond_Zopp].
  all: try (destruct sx); try (destruct sy); cbn [cond_Zopp].
  all: try reflexivity.
  all: try (f_equal; symmetry;
            first [ apply Z.compare_lt_iff; lia
                  | apply Z.compare_gt_iff; lia
                  | apply Z.compare_eq_iff; lia ]).
  - rewrite Z.compare_opp.
    rewrite (Z.compare_antisym (Zpos mx * 2 ^ (ex - emin))).
    rewrite <- (compare_finite_pos _ _ _ _ _ _ VX VY).
    destruct (ex ?= ey); reflexivity.
  - rewrite <- (compare_finite_pos _ _ _ _ _ _ VX VY). reflexivity.
Qed.

Lemma Prim2SF_not_nan (x : float) : is_nan x = false -> Prim2SF x <> S754_nan.
Proof.
  intros H. unfold Prim2SF. rewrite H.
  destruct (is_zero x); [discriminate|].
  destruct (is_infinity x); [discriminate|].
  destruct (Z.frexp x) as [r e].
  destruct (shr_fexp _ _ _ _ _) as [mrs e'].
  destruct (shr_m mrs); discriminate.
Qed.

Lemma compare_rank (x y : float) :
  is_nan x = false -> is_nan y = false ->
  SFcompare (Prim2SF x) (Prim2SF y) = Some (rank x ?= rank y).
Proof.
  intros Hx Hy. apply SFcompare_ord.
  - apply Prim2SF_valid.
  - apply Prim2SF_valid.
  - apply Prim2SF_not_nan, Hx.
  - apply Prim2SF_not_nan, Hy.
Qed.

Lemma ltb_rank (x y : float) :
  is_nan x = false -> is_nan y = false ->
  (x <? y)%float = (rank x <? rank y).
Proof.
  intros Hx Hy. rewrite FloatAxioms.ltb_spec. unfold SFltb, Z.ltb.
  rewrite (compare_rank x y Hx Hy). reflexivity.
Qed.

Lemma leb_rank (x y : float) :
  is_nan x = false -> is_nan y = false ->
  (x <=? y)%float = (rank x <=? rank y).
Proof.
  intros Hx Hy. rewrite FloatAxioms.leb_spec. unfold SFleb, Z.leb.
  rewrite (compare_rank x y Hx Hy). destruct (rank x ?= rank y); reflexivity.
Qed.

Lemma eqb_rank (x y : float) :
  is_nan x = false -> is_nan y = false ->
  (x =? y)%float = (rank x =? rank y).
Proof.
  intros Hx Hy. rewrite FloatAxioms.eqb_spec. unfold SFeqb.
  rewrite (compare_rank x y Hx Hy).
  destruct (Z.compare_spec (rank x) (rank y)); symmetry;
    first [apply Z.eqb_eq; lia | apply Z.eqb_neq; lia].
Qed.

(** *** Rounding keeps the sign *)

Lemma iter_pos_nat {A} (f : A -> A) (p : positive) : forall x,
  SpecFloat.iter_pos f p x = Nat.iter (Pos.to_nat p) f x.
Proof.
  induction p as [p IH|p IH|]; intros x; cbn [SpecFloat.iter_pos].
  - rewrite !IH, Pos2Nat.inj_xI, <- Nat.iter_add, <- Nat.iter_succ_r.
    f_equal. lia.
  - rewrite !IH, Pos2Nat.inj_xO, <- Nat.iter_add. f_equal. lia.
  - reflexivity.
Qed.

Lemma shr_1_m (mrs : shr_record) :
  0 <= shr_m mrs -> shr_m (shr_1 mrs) = shr_m mrs / 2.
Proof.
  destruct mrs as [m r s]. cbn [shr_m]. intros Hm.
  rewrite <- Z.div2_div.
  destruct m as [|[p|p|]|p]; try reflexivity. lia.
Qed.

Lemma shr_iter_m (k : nat) (mrs : shr_record) :
  0 <= shr_m mrs ->
  shr_m (Nat.iter k shr_1 mrs) = shr_m mrs / 2 ^ Z.of_nat k.
Proof.
  intros Hm. induction k as [|k IH].
  - cbn. symmetry. apply Z.div_1_r.
  - change (Nat.iter (S k) shr_1 mrs) with (shr_1 (Nat.iter k shr_1 mrs)).
    rewrite shr_1_m.
    + rewrite IH, Nat2Z.inj_succ, Z.pow_succ_r by lia.
      rewrite Z.div_div by (try apply Z.pow_pos_nonneg; lia).
      f_equal. lia.
    + rewrite IH. apply Z.div_pos; [exact Hm | apply Z.pow_pos_nonneg; lia].
Qed.

Lemma shr_record_of_loc_m (m : Z) (l : location) :
  shr_m (shr_record_of_loc m l) = m.
Proof. destruct l as [|[]]; reflexivity. Qed.

Lemma shr_fexp_pos (m : positive) (e : Z) (l : location) :
  emin <= e ->
  exists m' mrs e',
    shr_fexp prec emax (Zpos m) e l = (mrs, e')
    /\ shr_m mrs = Zpos m' /\ emin <= e'.
Proof.
  intros He. unfold shr_fexp, shr. cbn [Zdigits2].
  destruct (fexp prec emax (Zpos (digits2_pos m) + e) - e) as [|p|p] eqn:En.
  - exists m. eexists. eexists. split; [reflexivity|].
    split; [apply shr_record_of_loc_m | exact He].
  - assert (Hp : Zpos p = Zpos (digits2_pos m) - prec).
    { unfold fexp in En. unfold SpecFloat.emin, prec, emax in *. lia. }
    pose proof (digits2_pos_bounds m) as [Hlo _].
    assert (Hpow : 2 ^ Zpos p <= Zpos m).
    { etransitivity; [|exact Hlo]. apply Z.pow_le_mono_r; unfold prec in Hp; lia. }
    assert (Hq : 0 < Zpos m / 2 ^ Zpos p).
    { apply Z.div_str_pos. split; [apply Z.pow_pos_nonneg; lia | exact Hpow]. }
    destruct (Zpos m / 2 ^ Zpos p) as [|q|q] eqn:Eq; try lia.
    exists q. eexists. eexists. split; [reflexivity|]. split; [|lia].
    rewrite iter_pos_nat, shr_iter_m, shr_record_of_loc_m, positive_nat_Z.
    + exact Eq.
    + rewrite shr_record_of_loc_m. lia.
  - exists m. eexists. eexists. split; [reflexivity|].
    split; [apply shr_record_of_loc_m | exact He].
Qed.

Lemma round_nearest_even_pos (m : positive) (l : location) :
  exists m', round_nearest_even (Zpos m) l = Zpos m'.
Proof.
  destruct l as [|[]]; cbn [round_nearest_even];
    try destruct (Z.even (Zpos m)); eexists; reflexivity.
Qed.

Lemma binary_round_aux_pos (m : positive) (e : Z) (l : location) :
  emin <= e ->
  positive_result (binary_round_aux prec emax false (Zpos m) e l) = true.
Proof.
  intros He. unfold binary_round_aux.
  destruct (shr_fexp_pos m e l He) as (m1 & mrs1 & e1 & -> & Hm1 & He1).
  rewrite Hm1.
  destruct (round_nearest_even_pos m1 (loc_of_shr_record mrs1)) as [m2 ->].
  destruct (shr_fexp_pos m2 e1 loc_Exact He1) as (m3 & mrs3 & e3 & -> & -> & He3).
  destruct (e3 <=? emax - prec); reflexivity.
Qed.

Lemma binary_round_aux_neg (mx e : Z) (l : location) :
  positive_result (binary_round_aux prec emax true mx e l) = false.
Proof.
  unfold binary_round_aux.
  destruct (shr_fexp prec emax mx e l) as [mrs1 e1].
  destruct (shr_fexp prec emax _ e1 loc_Exact) as [mrs2 e2].
  destruct (shr_m mrs2); [reflexivity| |reflexivity].
  destruct (e2 <=? emax - prec); reflexivity.
Qed.

Lemma iter_xO (m d : positive) :
  Zpos (Pos.iter xO m d) = Zpos m * 2 ^ Zpos d.
Proof.
  induction d as [|d IH] using Pos.peano_ind.
  - cbn [Pos.iter]. rewrite Z.pow_1_r. lia.
  - rewrite Pos.iter_succ, Pos2Z.inj_xO, IH, Pos2Z.inj_succ, Z.pow_succ_r by lia.
    lia.
Qed.

Lemma shl_align_fst (m : positive) (e e' : Z) :
  e' <= e -> Zpos (fst (shl_align m e e')) = Zpos m * 2 ^ (e - e').
Proof.
  intros H. unfold shl_align.
  destruct (e' - e) as [|d|d] eqn:E; cbn [fst]; try lia.
  - replace (e - e') with 0 by lia. rewrite Z.pow_0_r. lia.
  - rewrite iter_xO. f_equal. f_equal. lia.
Qed.

Lemma shl_align_snd (m : positive) (e e' lo : Z) :
  lo <= e -> lo <= e' -> lo <= snd (shl_align m e e').
Proof.
  intros H H'. unfold shl_align. destruct (e' - e); cbn [snd]; assumption.
Qed.

Lemma binary_round_pos (m : positive) (e : Z) :
  emin <= e -> positive_result (binary_round prec emax false m e) = true.
Proof.
  intros He. unfold binary_round.
  destruct (shl_align m e _) as [mz ez] eqn:E.
  apply binary_round_aux_pos.
  change ez with (snd (mz, ez)). rewrite <- E.
  apply shl_align_snd; [exact He|]. unfold fexp. lia.
Qed.

Lemma binary_round_neg (m : positive) (e : Z) :
  positive_result (binary_round prec emax true m e) = false.
Proof.
  unfold binary_round. destruct (shl_align m e _) as [mz ez].
  apply binary_round_aux_neg.
Qed.

Lemma binary_normalize_positive (d e : Z) :
  emin <= e ->
  positive_result (binary_normalize prec emax d e false) = (0 <? d).
Proof.
  intros He. destruct d as [|p|p]; cbn [binary_normalize].
  - reflexivity.
  - apply binary_round_pos, He.
  - apply binary_round_neg.
Qed.

Lemma finite_difference sx mx ex sy my ey :
  valid_binary (S754_finite sx mx ex) = true ->
  valid_binary (S754_finite sy my ey) = true ->
  let ez := Z.min ey ex in
  (0 <? cond_Zopp sy (Zpos (fst (shl_align my ey ez)))
        - cond_Zopp sx (Zpos (fst (shl_align mx ex ez))))
  = (SFord (S754_finite sx mx ex) <? SFord (S754_finite sy my ey)).
Proof.
  intros VX VY ez.
  destruct (valid_finite _ _ _ VX) as (Hex & _ & _).
  destruct (valid_finite _ _ _ VY) as (Hey & _ & _).
  rewrite !shl_align_fst by (unfold ez; lia).
  cbn [SFord].
  assert (Hx : Zpos mx * 2 ^ (ex - emin)
               = Zpos mx * 2 ^ (ex - ez) * 2 ^ (ez - emin)).
  { rewrite <- Z.mul_assoc, <- Z.pow_add_r by (unfold ez; lia).
    f_equal. f_equal. lia. }
  assert (Hy : Zpos my * 2 ^ (ey - emin)
               = Zpos my * 2 ^ (ey - ez) * 2 ^ (ez - emin)).
  { rewrite <- Z.mul_assoc, <- Z.pow_add_r by (unfold ez; lia).
    f_equal. f_equal. lia. }
  rewrite Hx, Hy.
  assert (Hp : 0 < 2 ^ (ez - emin)) by (apply Z.pow_pos_nonneg; unfold ez; lia).
  set (P := 2 ^ (ez - emin)) in *.
  set (A := Zpos mx * 2 ^ (ex - ez)). set (B := Zpos my * 2 ^ (ey - ez)).
  destruct sx, sy; cbn [cond_Zopp].
  all: match goal with
       | |- (?a <? ?b) = (?c <? ?d) =>
           destruct (Z.ltb_spec a b); destruct (Z.ltb_spec c d);
           try reflexivity; exfalso; nia
       end.
Qed.

Lemma SFsub_positive (X Y : spec_float) :
  valid_binary X = true -> valid_binary Y = true ->
  X <> S754_nan -> Y <> S754_nan ->
  positive_result (SF64sub Y X) = (SFord X <? SFord Y).
Proof.
  intros VX VY NX NY.
  destruct X as [sx|sx| |sx mx ex]; [| |contradiction|];
  destruct Y as [sy|sy| |sy my ey]; try contradiction.
  all: try pose proof (finite_magnitude _ _ _ VX) as MX.
  all: try pose proof (finite_magnitude _ _ _ VY) as MY.
  all: assert (HI : 0 < 2 ^ (emax - emin))
    by (apply Z.pow_pos_nonneg; unfold SpecFloat.emin, prec, emax; lia).
  9: { unfold SF64sub; cbn [SFsub].
        destruct (valid_finite _ _ _ VX) as (Hex & _ & _).
        destruct (valid_finite _ _ _ VY) as (Hey & _ & _).
        rewrite binary_normalize_positive by lia.
        apply finite_difference; assumption. }
  all: unfold SF64sub; cbn [SFsub SFord].
  all: try (destruct sx); try (destruct sy); cbn [cond_Zopp negb].
  all: unfold positive_result; cbn [SFltb SFcompare].
  all: symmetry;
       first [ apply Z.ltb_lt; lia | apply Z.ltb_ge; lia ].
Qed.

Lemma sub_positive_rank (x y : float) :
  is_nan x = false -> is_nan y = false ->
  (0 <? y - x)%float = (rank x <? rank y).
Proof.
  intros Hx Hy. rewrite FloatAxioms.ltb_spec, FloatAxioms.sub_spec.
  change (Prim2SF 0) with (S754_zero false).
  apply SFsub_positive.
  - apply Prim2SF_valid.
  - apply Prim2SF_valid.
  - apply Prim2SF_not_nan, Hx.
  - apply Prim2SF_not_nan, Hy.
Qed.


End FloatOrder.

(* ===================================================================== *)
(** ** Strings *)
(* ===================================================================== *)

Module JsFacts.

Example split_middle :
  split_sentence_ends (lit "a. b?!c") = [lit "a"; lit " b"; lit "c"].
Proof. reflexivity. Qed.

Example split_edges :
  split_sentence_ends (lit ".a..") = [lit ""; lit "a"; lit ""].
Proof. reflexivity. Qed.

Example trim_both : trim (lit "  a b ") = lit "a b".
Proof. reflexivity. Qed.

Example slice_negative_end : slice0 [1; 2; 3] (-1) = [1; 2].
Proof. reflexivity. Qed.

Example slice_past_end : slice0 [1; 2; 3] 7 = [1; 2; 3].
Proof. reflexivity. Qed.

End JsFacts.

(* ===================================================================== *)
(** ** Cosine similarity *)
(* ===================================================================== *)

Module CosineFacts.
Import EmbeddingService.

(** The loop keeps the three sums apart: each norm accumulator sees its
    own vector only. *)
Lemma fold_accumulate (vecA vecB : vector) : forall d na nb,
  List.length vecA = List.length vecB ->
  exists d',
    fold_left accumulate (combine vecA vecB) (d, na, nb)
    = (d', fold_left (fun n a => n + a * a)%float vecA na,
           fold_left (fun n a => n + a * a)%float vecB nb).
Proof.
  revert vecB.
  induction vecA as [|a vecA IH]; intros [|b vecB] d na nb Hlen;
    simpl in Hlen; try discriminate.
  - exists d. reflexivity.
  - injection Hlen as Hlen. simpl.
    apply (IH vecB (d + a * b)%float (na + a * a)%float (nb + b * b)%float Hlen).
Qed.

Lemma cosineSimilarity_mismatch (vecA vecB : vector) :
  List.length vecA <> List.length vecB ->
  cosineSimilarity vecA vecB = inl (lit "Vectors must have the same length").
Proof.
  intros H. unfold cosineSimilarity.
  apply Nat.eqb_neq in H. rewrite H. reflexivity.
Qed.

(** A vector of zeros, of either sign, has norm zero. *)
Lemma norm_zeros (v : vector) :
  Forall (fun x => x = 0%float \/ x = (-0)%float) v -> norm v = 0%float.
Proof.
  intros H. unfold norm.
  assert (E : fold_left (fun n a => n + a * a)%float v 0%float = 0%float).
  { induction H as [|x v [-> | ->] _ IH]; [reflexivity | exact IH | exact IH]. }
  rewrite E. reflexivity.
Qed.

(** C9. For vectors of equal length, when the norm of either is zero
    [cosineSimilarity] returns the number 0: the test on the norms is
    taken and the quotient is not computed. *)
Theorem cosineSimilarity_zero_norm (vecA vecB : vector) :
  List.length vecA = List.length vecB ->
  (norm vecA =? 0)%float || (norm vecB =? 0)%float = true ->
  cosineSimilarity vecA vecB = inr 0%float.
Proof.
  intros Hlen Hz. unfold cosineSimilarity.
  rewrite Hlen, Nat.eqb_refl. simpl negb. cbv iota.
  destruct (fold_accumulate vecA vecB 0%float 0%float 0%float Hlen) as [d' Hd].
  rewrite Hd. unfold norm in Hz. rewrite Hz. reflexivity.
Qed.

Lemma cosineSimilarity_zero_norm_witness :
  cosineSimilarity [0; 0; 0]%float [1; 2; 3]%float = inr 0%float.
Proof.
  apply (cosineSimilarity_zero_norm [0; 0; 0]%float [1; 2; 3]%float);
    reflexivity.
Defined.

(** A vector of zeros against any vector of its length. *)
Lemma cosineSimilarity_zeros (z v : vector) :
  Forall (fun x => x = 0%float \/ x = (-0)%float) z ->
  List.length z = List.length v ->
  cosineSimilarity z v = inr 0%float.
Proof.
  intros Hz Hlen. unfold cosineSimilarity.
  rewrite Hlen, Nat.eqb_refl. simpl negb. cbv iota.
  destruct (fold_accumulate z v 0%float 0%float 0%float Hlen) as [d' Hd].
  rewrite Hd. fold (norm z). rewrite (norm_zeros z Hz). reflexivity.
Qed.

End CosineFacts.

(* ===================================================================== *)
(** ** Ranking: [findSimilar] and [getRelevantContext] *)
(* ===================================================================== *)

Module RankerFacts.
Import EmbeddingService RankerSpec.

(** *** Lengths *)

Lemma slice0_length {A} (l : list A) (k : Z) :
  Z.of_nat (List.length (slice0 l k))
  = if k <? 0 then Z.max (Z.of_nat (List.length l) + k) 0
    else Z.min k (Z.of_nat (List.length l)).
Proof.
  unfold slice0. rewrite length_take.
  destruct (k <? 0) eqn:Hk; [apply Z.ltb_lt in Hk | apply Z.ltb_ge in Hk]; lia.
Qed.

Lemma insertSorted_length {A} (f : A -> A -> float) (a : A) (l : list A) :
  List.length (insertSorted f a l) = S (List.length l).
Proof.
  induction l as [|b l IH]; simpl; [reflexivity|].
  destruct (0 <? f a b)%float; simpl; congruence.
Qed.

Lemma sort_length {A} (f : A -> A -> float) (l : list A) :
  List.length (sort f l) = List.length l.
Proof.
  induction l as [|a l IH]; simpl; [reflexivity|].
  rewrite insertSorted_length. congruence.
Qed.

Section WithModel.
Variable load : option pipeline.

Lemma embedDocuments_length (documents : list document) :
  forall s r documents' s',
    embedDocuments load documents s = (r, documents', s') ->
    List.length documents' = List.length documents
    /\ forall es, r = inr es -> List.length es = List.length documents.
Proof.
  induction documents as [|d rest IH]; intros s r documents' s' H; simpl in H.
  - injection H as <- <- <-. split; [reflexivity|]. intros es [= <-]. reflexivity.
  - destruct (embedding d) as [e|].
    + destruct (embedDocuments load rest s) as [[r0 rest'] s0] eqn:E.
      destruct (IH _ _ _ _ E) as [Hl He].
      injection H as <- <- <-. split; [simpl; congruence|].
      intros es Hes. destruct r0 as [m|es0]; [discriminate|].
      injection Hes as <-. simpl. f_equal. apply He. reflexivity.
    + destruct (embed load (text d) s) as [[m|e] s1].
      * injection H as <- <- <-. split; [reflexivity|]. discriminate.
      * destruct (embedDocuments load rest s1) as [[r0 rest'] s0] eqn:E.
        destruct (IH _ _ _ _ E) as [Hl He].
        injection H as <- <- <-. split; [simpl; congruence|].
        intros es Hes. destruct r0 as [m|es0]; [discriminate|].
        injection Hes as <-. simpl. f_equal. apply He. reflexivity.
Qed.

Lemma scoreFrom_length (q : vector) (es : list vector) :
  forall i (ds : list document) sims,
    scoreFrom i q es ds = inr sims ->
    List.length sims = Nat.min (List.length es) (List.length ds).
Proof.
  induction es as [|e es IH]; intros i ds sims H; simpl in H.
  - injection H as <-. reflexivity.
  - destruct ds as [|d ds]; [injection H as <-; reflexivity|].
    destruct (cosineSimilarity q e) as [m|sc]; [discriminate|].
    destruct (scoreFrom (i + 1) q es ds) as [m|rest] eqn:E; [discriminate|].
    injection H as <-. simpl. f_equal. eapply IH. exact E.
Qed.

Lemma similaritiesOf_length query (documents : list document) s sims documents' s' :
  similaritiesOf load query documents s = (inr sims, documents', s') ->
  List.length sims = List.length documents
  /\ List.length documents' = List.length documents.
Proof.
  unfold similaritiesOf. intros H.
  destruct (embed load query s) as [[m|qe] s1]; [discriminate|].
  destruct (embedDocuments load documents s1) as [[[m|es] ds'] s2] eqn:E;
    [discriminate|].
  destruct (embedDocuments_length _ _ _ _ _ E) as [Hd He].
  specialize (He es eq_refl).
  injection H as H <- <-.
  apply scoreFrom_length in H. split; [lia | exact Hd].
Qed.

(** C4, as the code has it. When [findSimilar] returns, the number of
    results is [min(k, n)] for [k >= 0] and [max(n + k, 0)] for [k < 0],
    [n] being the number of documents: a negative [k] is not clamped to
    zero, [slice(0, k)] counts it from the end. *)
Theorem findSimilar_length query (documents : list document) k s
    res documents' s' :
  findSimilar load query documents k s = (inr res, documents', s') ->
  Z.of_nat (List.length res)
  = if k <? 0 then Z.max (Z.of_nat (List.length documents) + k) 0
    else Z.min k (Z.of_nat (List.length documents)).
Proof.
  unfold findSimilar. intros H.
  destruct (similaritiesOf load query documents s) as [[[m|sims] ds'] s2] eqn:E;
    [discriminate|].
  destruct (similaritiesOf_length _ _ _ _ _ _ E) as [Hs _].
  injection H as <- <- <-.
  rewrite slice0_length, sort_length, Hs. reflexivity.
Qed.

(** C6. When the context splits (size 1000, overlap 200) into at most [k]
    chunks, [getRelevantContext] answers with the context itself and
    leaves the service untouched: nothing is embedded. *)
Theorem getRelevantContext_few_chunks context query k s :
  Z.of_nat (List.length (splitText context 1000 200)) <= k ->
  getRelevantContext load context query k s = (inr context, s).
Proof.
  intros H. unfold getRelevantContext, catch.
  apply Z.leb_le in H. rewrite H. reflexivity.
Qed.

End WithModel.

Lemma findSimilar_length_witness :
  exists res documents' s',
    findSimilar (Some unitModel) (lit "q") [doc "a"; doc "b"; doc "c"] 2
      constructor = (inr res, documents', s')
    /\ Z.of_nat (List.length res) = 2.
Proof.
  eexists. eexists. eexists. split; [reflexivity|].
  exact (findSimilar_length (Some unitModel) (lit "q")
           [doc "a"; doc "b"; doc "c"] 2 constructor _ _ _ eq_refl).
Defined.

(** C4 as stated fails: with three documents and [k = -1] two results
    come back, where clamping to [[0, 3]] would give none. *)
Lemma findSimilar_negative_k_not_clamped :
  ~ (forall load query (documents : list document) k s res documents' s',
        findSimilar load query documents k s = (inr res, documents', s') ->
        Z.of_nat (List.length res)
        = Z.min (Z.max k 0) (Z.of_nat (List.length documents))).
Proof.
  intros H.
  specialize (H (Some unitModel) (lit "q") [doc "a"; doc "b"; doc "c"] (-1)
                constructor _ _ _ eq_refl).
  vm_compute in H. discriminate.
Qed.

Lemma getRelevantContext_few_chunks_witness :
  getRelevantContext None (lit "One. Two! Three?") (lit "q") 4 constructor
  = (inr (lit "One. Two! Three?"), constructor).
Proof.
  apply (getRelevantContext_few_chunks None (lit "One. Two! Three?") (lit "q") 4).
  vm_compute. discriminate.
Defined.

End RankerFacts.

Module SortFacts.
Import EmbeddingService RankerSpec FloatOrder.

Lemma before_trans a b c : before a b -> before b c -> before a c.
Proof. unfold before. lia. Qed.

Lemma before_ranksBefore a b :
  is_nan (score a) = false -> is_nan (score b) = false ->
  before a b -> ranksBefore a b.
Proof.
  intros Ha Hb H. unfold ranksBefore.
  rewrite (leb_rank _ _ Hb Ha), (eqb_rank _ _ Ha Hb).
  split.
  - apply Z.leb_le. unfold before in H. lia.
  - intros E. apply Z.eqb_eq in E. unfold before in H. lia.
Qed.

Lemma insertSorted_perm {A} (f : A -> A -> float) (a : A) (l : list A) :
  Permutation (a :: l) (insertSorted f a l).
Proof.
  induction l as [|b l IH]; simpl; [reflexivity|].
  destruct (0 <? f a b)%float; [|reflexivity].
  etransitivity; [apply perm_swap|]. apply perm_skip, IH.
Qed.

Lemma sort_perm {A} (f : A -> A -> float) (l : list A) :
  Permutation l (sort f l).
Proof.
  induction l as [|a l IH]; simpl; [reflexivity|].
  etransitivity; [apply perm_skip, IH|]. apply insertSorted_perm.
Qed.

Lemma insertSorted_before (a : similarity) (l : list similarity) :
  is_nan (score a) = false -> comparable l ->
  Forall (fun b => sim_index a < sim_index b) l ->
  StronglySorted before l ->
  StronglySorted before (insertSorted byScoreDescending a l).
Proof.
  intros Ha Hc Hidx Hs.
  induction l as [|b l IH]; simpl.
  - constructor; constructor.
  - apply Forall_cons_iff in Hc as [Hb Hc].
    apply Forall_cons_iff in Hidx as [Hab Hidx].
    apply StronglySorted_inv in Hs as [Hs Hbl].
    unfold byScoreDescending at 1.
    rewrite (sub_positive_rank _ _ Ha Hb).
    destruct (Z.ltb_spec (rank (score a)) (rank (score b))) as [Hlt|Hge].
    + constructor; [apply IH; assumption|].
      eapply Permutation_Forall; [apply insertSorted_perm|].
      constructor; [left; exact Hlt | exact Hbl].
    + assert (Hbefore : before a b) by (unfold before; lia).
      constructor; [constructor; assumption|].
      constructor; [exact Hbefore|].
      eapply List.Forall_impl; [|exact Hbl].
      intros c Hc'. eapply before_trans; eassumption.
Qed.

Lemma sort_before (l : list similarity) :
  comparable l ->
  StronglySorted (fun a b => sim_index a < sim_index b) l ->
  StronglySorted before (sort byScoreDescending l).
Proof.
  intros Hc Hs. induction l as [|a l IH]; simpl; [constructor|].
  apply Forall_cons_iff in Hc as [Ha Hc].
  apply StronglySorted_inv in Hs as [Hs Hal].
  apply insertSorted_before.
  - exact Ha.
  - eapply Permutation_Forall; [apply sort_perm | exact Hc].
  - eapply Permutation_Forall; [apply sort_perm | exact Hal].
  - apply IH; assumption.
Qed.

Lemma StronglySorted_weaken {A} (R R' : A -> A -> Prop) (P : A -> Prop)
    (l : list A) :
  (forall a b, P a -> P b -> R a b -> R' a b) ->
  Forall P l -> StronglySorted R l -> StronglySorted R' l.
Proof.
  intros Himp HP Hs. induction Hs as [|a l Hs IH Hal]; [constructor|].
  apply Forall_cons_iff in HP as [Ha HP].
  constructor; [apply IH, HP|].
  rewrite Forall_forall in *. intros b Hb.
  apply Himp; [exact Ha | apply HP, Hb | apply Hal, Hb].
Qed.

Lemma StronglySorted_take {A} (R : A -> A -> Prop) (n : nat) (l : list A) :
  StronglySorted R l -> StronglySorted R (take n l).
Proof.
  intros Hs. revert n. induction Hs as [|a l Hs IH Hal]; intros [|n]; simpl;
    try constructor.
  - apply IH.
  - apply Forall_take, Hal.
Qed.

Lemma StronglySorted_cross {A} (R : A -> A -> Prop) (l1 l2 : list A) :
  StronglySorted R (l1 ++ l2) -> Forall (fun a => Forall (R a) l2) l1.
Proof.
  induction l1 as [|a l1 IH]; cbn [app]; intros H; [constructor|].
  apply StronglySorted_inv in H as [H Ha].
  constructor; [|apply IH, H].
  apply Forall_app in Ha as [_ Ha]. exact Ha.
Qed.

(** The sort puts the similarities in ranking order, whenever their
    scores are comparable and they come in the order of the documents. *)
Lemma sort_ranked (l : list similarity) :
  comparable l ->
  StronglySorted (fun a b => sim_index a < sim_index b) l ->
  StronglySorted ranksBefore (sort byScoreDescending l).
Proof.
  intros Hc Hs.
  apply (StronglySorted_weaken before ranksBefore
           (fun r => is_nan (score r) = false)).
  - intros a b Ha Hb. apply before_ranksBefore; assumption.
  - eapply Permutation_Forall; [apply sort_perm | exact Hc].
  - apply sort_before; assumption.
Qed.

(** A slice from the start of a sorted list is sorted, and what it
    leaves out ranks after all of it. *)
Lemma slice0_ranked (l : list similarity) (k : Z) :
  StronglySorted ranksBefore l ->
  StronglySorted ranksBefore (slice0 l k)
  /\ exists rest,
       l = slice0 l k ++ rest
       /\ Forall (fun a => Forall (ranksBefore a) rest) (slice0 l k).
Proof.
  intros Hs. unfold slice0.
  set (n := Z.to_nat _). split; [apply StronglySorted_take, Hs|].
  exists (drop n l). split; [symmetry; apply take_drop|].
  apply StronglySorted_cross. rewrite take_drop. exact Hs.
Qed.

End SortFacts.

Module RerankFacts.
Import EmbeddingService RankerSpec SortFacts.

Section WithModel.
Variable load : option pipeline.

Lemma embed_ready s p t :
  ready s p ->
  embed load t s
  = (match p t with
     | Some v => inr v
     | None => inl (lit "Failed to generate embedding")
     end, s).
Proof.
  intros [Hi He]. unfold embed, bind, ret, throw. rewrite Hi, He.
  destruct (p t); reflexivity.
Qed.

Lemma embed_returns t s v s1 :
  embed load t s = (inr v, s1) -> exists p, ready s1 p /\ p t = Some v.
Proof.
  unfold embed, bind, initialize, ret, throw. intros H.
  destruct (isInitialized s) eqn:Hi.
  - destruct (embedder s) as [p|] eqn:He; [|discriminate].
    destruct (p t) as [v'|] eqn:Hp; [|discriminate].
    injection H as <- <-. exists p. repeat split; assumption.
  - destruct load as [p|]; [|discriminate]. cbn [embedder] in H.
    destruct (p t) as [v'|] eqn:Hp; [|discriminate].
    injection H as <- <-. exists p. repeat split; assumption.
Qed.

Lemma embedDocuments_steady p (documents : list document) :
  forall s r documents' s',
    ready s p -> embedDocuments load documents s = (r, documents', s') -> s' = s.
Proof.
  induction documents as [|d rest IH]; intros s r documents' s' Hr H; simpl in H.
  - injection H as _ _ <-. reflexivity.
  - destruct (embedding d) as [e|].
    + destruct (embedDocuments load rest s) as [[r0 rest'] s0] eqn:E.
      injection H as _ _ <-. eapply IH; eassumption.
    + rewrite (embed_ready s p _ Hr) in H.
      destruct (p (text d)) as [e|].
      * destruct (embedDocuments load rest s) as [[r0 rest'] s0] eqn:E.
        injection H as _ _ <-. eapply IH; eassumption.
      * injection H as _ _ <-. reflexivity.
Qed.

Lemma embedDocuments_cached (documents : list document) :
  forall s es documents' s',
    embedDocuments load documents s = (inr es, documents', s') ->
    map embedding documents' = map Some es.
Proof.
  induction documents as [|d rest IH]; intros s es documents' s' H; simpl in H.
  - injection H as <- <- _. reflexivity.
  - destruct (embedding d) as [e|] eqn:Hd.
    + destruct (embedDocuments load rest s) as [[[m|es0] rest'] s0] eqn:E;
        [discriminate|].
      injection H as <- <- _. simpl. rewrite Hd. f_equal. eapply IH, E.
    + destruct (embed load (text d) s) as [[m|e] s1]; [discriminate|].
      destruct (embedDocuments load rest s1) as [[[m|es0] rest'] s0] eqn:E;
        [discriminate|].
      injection H as <- <- _. simpl. f_equal. eapply IH, E.
Qed.

Lemma embedDocuments_of_cache (documents : list document) :
  forall es s,
    map embedding documents = map Some es ->
    embedDocuments load documents s = (inr es, documents, s).
Proof.
  induction documents as [|d rest IH]; intros [|e es] s H; simpl in H;
    try discriminate.
  - reflexivity.
  - injection H as Hd Hrest. simpl. rewrite Hd, (IH es s Hrest). reflexivity.
Qed.

(** Called again on the documents it left, with the service it left,
    the similarity computation gives the same scores and changes
    nothing. *)
Lemma similaritiesOf_again query (documents : list document) s
    sims documents' s' :
  similaritiesOf load query documents s = (inr sims, documents', s') ->
  similaritiesOf load query documents' s' = (inr sims, documents', s').
Proof.
  unfold similaritiesOf. intros H.
  destruct (embed load query s) as [[m|qe] s1] eqn:Eq; [discriminate|].
  destruct (embed_returns _ _ _ _ Eq) as (p & Hr & Hp).
  destruct (embedDocuments load documents s1) as [[[m|es] ds'] s2] eqn:E;
    [discriminate|].
  pose proof (embedDocuments_steady p _ _ _ _ _ Hr E) as ->.
  injection H as H <- <-.
  rewrite (embed_ready s1 p query Hr), Hp.
  rewrite (embedDocuments_of_cache ds' es s1 (embedDocuments_cached _ _ _ _ _ E)).
  rewrite H. reflexivity.
Qed.

Lemma scoreFrom_indices (q : vector) (es : list vector) :
  forall i (ds : list document) sims,
    scoreFrom i q es ds = inr sims ->
    StronglySorted (fun a b => sim_index a < sim_index b) sims
    /\ Forall (fun r => i <= sim_index r) sims.
Proof.
  induction es as [|e es IH]; intros i ds sims H; simpl in H.
  - injection H as <-. split; constructor.
  - destruct ds as [|d ds]; [injection H as <-; split; constructor|].
    destruct (cosineSimilarity q e) as [m|sc]; [discriminate|].
    destruct (scoreFrom (i + 1) q es ds) as [m|rest] eqn:E; [discriminate|].
    injection H as <-. destruct (IH _ _ _ E) as [Hs Hi]. split.
    + constructor; [exact Hs|].
      eapply List.Forall_impl; [|exact Hi]. cbn. intros r Hr. lia.
    + constructor; [cbn; lia|].
      eapply List.Forall_impl; [|exact Hi]. cbn. intros r Hr. lia.
Qed.

Lemma similaritiesOf_indices query (documents : list document) s
    sims documents' s' :
  similaritiesOf load query documents s = (inr sims, documents', s') ->
  StronglySorted (fun a b => sim_index a < sim_index b) sims.
Proof.
  unfold similaritiesOf. intros H.
  destruct (embed load query s) as [[m|qe] s1]; [discriminate|].
  destruct (embedDocuments load documents s1) as [[[m|es] ds'] s2];
    [discriminate|].
  injection H as H _ _. apply (scoreFrom_indices _ _ _ _ _ H).
Qed.

Lemma embed_loads s p t :
  (load = Some p /\ isInitialized s = false) \/ ready s p ->
  exists s1, ready s1 p
    /\ embed load t s
       = (match p t with
          | Some v => inr v
          | None => inl (lit "Failed to generate embedding")
          end, s1).
Proof.
  intros [[Hl Hi] | Hr].
  - exists {| embedder := Some p; isInitialized := true |}.
    split; [split; reflexivity|].
    unfold embed, bind, initialize, ret, throw. rewrite Hi, Hl. cbn [embedder].
    destruct (p t); reflexivity.
  - exists s. split; [exact Hr | apply embed_ready, Hr].
Qed.

Lemma cosineSimilarity_defined (a b : vector) :
  List.length a = List.length b -> exists x, cosineSimilarity a b = inr x.
Proof.
  intros H. unfold cosineSimilarity. rewrite H, Nat.eqb_refl. cbn [negb].
  destruct (fold_left accumulate (combine a b) (0, 0, 0)%float) as [[d na] nb].
  destruct ((PrimFloat.sqrt na =? 0)%float || (PrimFloat.sqrt nb =? 0)%float);
    eauto.
Qed.

Lemma embedDocuments_returns p (n : nat) (documents : list document) s :
  ready s p ->
  Forall (fun d => exists v,
            (embedding d = Some v
             \/ (embedding d = None /\ p (text d) = Some v))
            /\ List.length v = n) documents ->
  exists es documents',
    embedDocuments load documents s = (inr es, documents', s)
    /\ Forall (fun v => List.length v = n) es.
Proof.
  intros Hr H. induction H as [|d rest (v & Hv & Hn) Hrest IH].
  - exists [], []. split; [reflexivity | constructor].
  - destruct IH as (es & rest' & IH & Hes).
    destruct Hv as [Hc | [Hc Hp]]; cbn [embedDocuments]; rewrite Hc.
    + rewrite IH. eexists. eexists. split; [reflexivity|].
      constructor; assumption.
    + rewrite (embed_ready s p _ Hr), Hp, IH.
      eexists. eexists. split; [reflexivity|]. constructor; assumption.
Qed.

Lemma scoreFrom_returns (q : vector) (es : list vector) :
  Forall (fun v => List.length v = List.length q) es ->
  forall i (ds : list document), exists sims, scoreFrom i q es ds = inr sims.
Proof.
  induction 1 as [|e es He Hes IH]; intros i ds; cbn [scoreFrom]; [eauto|].
  destruct ds as [|d ds]; [eauto|].
  destruct (cosineSimilarity_defined q e (eq_sym He)) as [x ->].
  destruct (IH (i + 1) ds) as [rest ->]. eauto.
Qed.

(** [findSimilar] does return whenever the model can be loaded (or is
    loaded) and embeds the query and every document not yet cached into
    vectors of one length. *)
Lemma findSimilar_returns p query qv (documents : list document) k s :
  (load = Some p /\ isInitialized s = false) \/ ready s p ->
  p query = Some qv ->
  Forall (fun d => exists v,
            (embedding d = Some v
             \/ (embedding d = None /\ p (text d) = Some v))
            /\ List.length v = List.length qv) documents ->
  exists res documents' s',
    findSimilar load query documents k s = (inr res, documents', s').
Proof.
  intros Hs Hq Hd. unfold findSimilar, similaritiesOf.
  destruct (embed_loads s p query Hs) as (s1 & Hr & ->). rewrite Hq.
  destruct (embedDocuments_returns p _ documents s1 Hr Hd)
    as (es & ds' & -> & Hes).
  destruct (scoreFrom_returns qv es Hes 0 ds') as [sims ->]. eauto.
Qed.


End WithModel.


Lemma nan_leb (x y : float) :
  is_nan x = true -> (x <=? y)%float = false /\ (y <=? x)%float = false.
Proof.
  intros H.
  assert (Hx : Prim2SF x = S754_nan) by (unfold Prim2SF; rewrite H; reflexivity).
  rewrite !FloatAxioms.leb_spec, Hx. split; [reflexivity|].
  destruct (Prim2SF y); reflexivity.
Qed.

(** Whatever the order, a list of two results or more that holds a [NaN]
    score is not in non-increasing order. *)
Lemma nan_unordered (l : list similarity) (a : similarity) :
  In a l -> is_nan (score a) = true -> (2 <= List.length l)%nat ->
  ~ StronglySorted nonIncreasing l.
Proof.
  intros Hin Hnan Hlen Hs.
  destruct l as [|x l]; [destruct Hin|].
  apply StronglySorted_inv in Hs as [_ Hx].
  rewrite List.Forall_forall in Hx. unfold nonIncreasing in Hx.
  destruct Hin as [-> | Hin].
  - destruct l as [|y l]; [cbn in Hlen; lia|].
    specialize (Hx y (or_introl eq_refl)).
    destruct (nan_leb (score a) (score y) Hnan) as [_ E]. congruence.
  - specialize (Hx a Hin).
    destruct (nan_leb (score a) (score x) Hnan) as [E _]. congruence.
Qed.


End RerankFacts.

(* ===================================================================== *)
(** ** The chunker: [splitText] *)
(* ===================================================================== *)

Module ChunkerFacts.
Import EmbeddingService RankerSpec.

Section Packing.
Variables (text0 : jsstring) (chunkSize overlap : Z).

Let step := pack text0 chunkSize overlap.

Lemma pack_grows st sentence :
  exists extra, chunks (step st sentence) = chunks st ++ extra.
Proof.
  unfold step, pack.
  destruct (_ <=? chunkSize); cbn [currentChunk chunks chunkIndex fst snd].
  - exists []. symmetry. apply app_nil_r.
  - destruct (truthy (currentChunk st)); cbn [currentChunk chunks chunkIndex fst snd]; eauto.
    exists []. symmetry. apply app_nil_r.
Qed.

Lemma packs_grow sentences : forall st,
  exists extra, chunks (fold_left step sentences st) = chunks st ++ extra.
Proof.
  induction sentences as [|t rest IH]; intros st; simpl.
  - exists []. symmetry. apply app_nil_r.
  - destruct (IH (step st t)) as [e2 H2].
    destruct (pack_grows st t) as [e1 H1].
    exists (e1 ++ e2). rewrite H2, H1. symmetry. apply app_assoc.
Qed.

Lemma flush_grows st : exists extra, flush text0 st = chunks st ++ extra.
Proof.
  unfold flush. destruct (truthy (currentChunk st)); eauto.
  exists []. symmetry. apply app_nil_r.
Qed.

Lemma emitted_stays st sentences c :
  In c (chunks st) -> In c (flush text0 (fold_left step sentences st)).
Proof.
  intros H.
  destruct (flush_grows (fold_left step sentences st)) as [e1 ->].
  destruct (packs_grow sentences st) as [e2 ->].
  apply in_or_app. left. apply in_or_app. left. exact H.
Qed.

Lemma occursIn_nil s : occursIn s [] -> s = [].
Proof.
  intros (p & q & H). symmetry in H.
  apply app_eq_nil in H as [_ H]. apply app_eq_nil in H as [H _]. exact H.
Qed.

Lemma truthy_false s : truthy s = false -> s = [].
Proof. destruct s; [reflexivity | discriminate]. Qed.

Lemma pack_holds_new st sentence : held (step st sentence) (trim sentence).
Proof.
  right. unfold step, pack.
  destruct (_ <=? chunkSize); cbn [currentChunk chunks chunkIndex fst snd].
  - exists (currentChunk st ++ (if truthy (currentChunk st)
                                then lit ". " else lit "")), [].
    rewrite app_nil_r, app_assoc. reflexivity.
  - destruct ((0 <? overlap) && (overlap <? len (currentChunk st))).
    + eexists (_ ++ lit ". "), []. rewrite app_nil_r, app_assoc. reflexivity.
    + exists [], []. rewrite app_nil_r. reflexivity.
Qed.

Lemma pack_keeps_held st sentence s :
  s <> [] -> held st s -> held (step st sentence) s.
Proof.
  intros Hs [(c & Hc & Hocc) | Hocc].
  - left. exists c. split; [|exact Hocc].
    destruct (pack_grows st sentence) as [e ->]. apply in_or_app. now left.
  - unfold step, pack.
    destruct (_ <=? chunkSize); cbn [currentChunk chunks chunkIndex fst snd].
    + right. destruct Hocc as (p & q & ->).
      exists p, (q ++ (if truthy (p ++ s ++ q) then lit ". " else lit "")
                   ++ trim sentence).
      rewrite <- !app_assoc. reflexivity.
    + left. cbn [currentChunk chunks chunkIndex fst snd].
      destruct (truthy (currentChunk st)) eqn:Ht; cbn [currentChunk chunks chunkIndex fst snd].
      * exists (mkChunk indexOf text0 (currentChunk st) (chunkIndex st)).
        split; [apply in_or_app; right; now left|].
        destruct Hocc as (p & q & ->). exists p, (q ++ lit ".").
        cbn [text mkChunk]. rewrite <- !app_assoc. reflexivity.
      * apply truthy_false in Ht. rewrite Ht in Hocc.
        apply occursIn_nil in Hocc. contradiction.
Qed.

Lemma packs_keep_held sentences : forall st s,
  s <> [] -> held st s -> held (fold_left step sentences st) s.
Proof.
  induction sentences as [|t rest IH]; intros st s Hs H; simpl; [exact H|].
  apply IH; [exact Hs|]. apply pack_keeps_held; assumption.
Qed.

Lemma flush_emits_held st s :
  s <> [] -> held st s ->
  exists c, In c (flush text0 st) /\ occursIn s (text c).
Proof.
  intros Hs [(c & Hc & Hocc) | Hocc]; unfold flush.
  - exists c. split; [|exact Hocc].
    destruct (truthy (currentChunk st)); [apply in_or_app; now left | exact Hc].
  - destruct (truthy (currentChunk st)) eqn:Ht.
    + exists (mkChunk lastIndexOf text0 (currentChunk st) (chunkIndex st)).
      split; [apply in_or_app; right; now left|].
      destruct Hocc as (p & q & ->). exists p, (q ++ lit ".").
      cbn [text mkChunk]. rewrite <- !app_assoc. reflexivity.
    + apply truthy_false in Ht. rewrite Ht in Hocc.
      apply occursIn_nil in Hocc. contradiction.
Qed.

(** Once the chunk being filled is longer than [chunkSize] nothing is
    added to it: it is emitted as it stands. *)
Lemma overfull_emitted st rest :
  currentChunk st <> [] ->
  chunkSize < len (currentChunk st) ->
  exists at_,
    In (mkChunk at_ text0 (currentChunk st) (chunkIndex st))
       (flush text0 (fold_left step rest st)).
Proof.
  intros Hne Hlong.
  assert (Ht : truthy (currentChunk st) = true)
    by (destruct (currentChunk st); [contradiction | reflexivity]).
  destruct rest as [|t rest]; simpl.
  - exists lastIndexOf. unfold flush. rewrite Ht.
    apply in_or_app. right. now left.
  - exists indexOf. apply emitted_stays.
    unfold step, pack.
    assert (Hno : (len (currentChunk st) + len (trim t) + 1 <=? chunkSize) = false).
    { apply Z.leb_gt. unfold len in *. lia. }
    rewrite Hno, Ht. cbn [currentChunk chunks chunkIndex fst snd]. apply in_or_app. right. now left.
Qed.

(** What a sentence longer than [chunkSize] does to the packer: it starts
    a chunk of its own, after the carried-over tail of the chunk just
    emitted if that one was longer than [overlap]. *)
Lemma pack_long st sentence :
  chunkSize < len (trim sentence) ->
  currentChunk (step st sentence) = trim sentence
  \/ (0 < overlap < len (currentChunk st)
      /\ currentChunk (step st sentence)
         = substring (currentChunk st) (len (currentChunk st) - overlap)
             ++ lit ". " ++ trim sentence
      /\ In (mkChunk indexOf text0 (currentChunk st) (chunkIndex st))
            (chunks (step st sentence))
      /\ chunkIndex (step st sentence) = chunkIndex st + 1).
Proof.
  intros Hlong. unfold step, pack.
  assert (Hno : (len (currentChunk st) + len (trim sentence) + 1 <=? chunkSize)
                = false).
  { apply Z.leb_gt. unfold len in *. lia. }
  rewrite Hno. cbn [currentChunk chunks chunkIndex].
  destruct ((0 <? overlap) && (overlap <? len (currentChunk st))) eqn:Ho.
  - right. apply andb_prop in Ho as [H1 H2].
    apply Z.ltb_lt in H1. apply Z.ltb_lt in H2.
    assert (Ht : truthy (currentChunk st) = true).
    { revert H2. destruct (currentChunk st); [|reflexivity].
      unfold len. simpl List.length. lia. }
    rewrite Ht. cbn [fst snd].
    repeat split; try lia. apply in_or_app. right. now left.
  - left. reflexivity.
Qed.

End Packing.

Lemma sentencesOf_nonempty text0 sentence :
  In sentence (sentencesOf text0) -> trim sentence <> [].
Proof.
  unfold sentencesOf. intros H. apply filter_In in H as [_ H].
  intros E. rewrite E in H. discriminate.
Qed.

Lemma substring_tail (body : jsstring) (overlap : Z) :
  0 < overlap < len body ->
  exists front tail,
    body = front ++ tail /\ len tail = overlap /\ front <> []
    /\ substring body (len body - overlap) = tail.
Proof.
  intros H. unfold substring.
  replace (Z.max 0 (Z.min (len body - overlap) (len body)))
    with (len body - overlap) by lia.
  set (n := Z.to_nat (len body - overlap)).
  exists (take n body), (drop n body).
  split; [symmetry; apply take_drop|].
  split; [unfold len in *; rewrite length_drop; lia|].
  split; [|reflexivity].
  intros E. apply (f_equal (@List.length _)) in E.
  rewrite length_take in E. unfold len in *. cbn in E. lia.
Qed.

(** C7, as the code has it. Every sentence of the text (trimmed) lies
    whole inside some chunk of [splitText].  A sentence longer than
    [chunkSize] is not split and ends its chunk; that chunk is the
    sentence alone, or, when [overlap > 0] and the chunk emitted just
    before is longer than [overlap], it opens with the last [overlap]
    characters of that chunk and [". "]. *)
Theorem splitText_sentences_atomic text0 chunkSize overlap sentence :
  In sentence (sentencesOf text0) ->
  (exists c, In c (splitText text0 chunkSize overlap)
             /\ occursIn (trim sentence) (text c))
  /\ (chunkSize < len (trim sentence) ->
      exists c,
        In c (splitText text0 chunkSize overlap)
        /\ (text c = trim sentence ++ lit "."
            \/ exists prev front tail,
                 In prev (splitText text0 chunkSize overlap)
                 /\ text prev = front ++ tail ++ lit "."
                 /\ index c = index prev + 1
                 /\ 0 < overlap /\ len tail = overlap /\ front <> []
                 /\ text c = tail ++ lit ". " ++ trim sentence ++ lit ".")).
Proof.
  intros Hin.
  pose proof (sentencesOf_nonempty _ _ Hin) as Hne.
  destruct (in_split _ _ Hin) as (pre & post & Hsplit).
  unfold splitText, packAll. rewrite Hsplit, fold_left_app.
  cbn [fold_left].
  set (st0 := fold_left (pack text0 chunkSize overlap) pre _).
  split.
  - apply flush_emits_held; [exact Hne|].
    apply packs_keep_held; [exact Hne|]. apply pack_holds_new.
  - intros Hlong.
    set (st1 := pack text0 chunkSize overlap st0 sentence).
    destruct (pack_long text0 chunkSize overlap st0 sentence Hlong)
      as [Hcur | (Ho & Hcur & Hprev & Hidx)]; fold st1 in Hcur.
    + destruct (overfull_emitted text0 chunkSize overlap st1 post) as [at_ Hc].
      * rewrite Hcur. exact Hne.
      * rewrite Hcur. exact Hlong.
      * eexists. split; [exact Hc|].
        cbn [text mkChunk]. rewrite Hcur. left. reflexivity.
    + fold st1 in Hprev, Hidx.
      destruct (substring_tail (currentChunk st0) overlap Ho)
        as (front & tail & Hbody & Htail & Hfront & Hsub).
      rewrite Hsub in Hcur.
      destruct (overfull_emitted text0 chunkSize overlap st1 post) as [at_ Hc].
      * rewrite Hcur. intros E. apply app_eq_nil in E as [_ E].
        apply app_eq_nil in E as [_ E]. contradiction.
      * rewrite Hcur. unfold len in *. rewrite !length_app. lia.
      * eexists. split; [exact Hc|]. right.
        exists (mkChunk indexOf text0 (currentChunk st0) (chunkIndex st0)),
          front, tail.
        split; [apply emitted_stays; exact Hprev|].
        cbn [text index mkChunk]. rewrite Hcur.
        split; [rewrite Hbody at 1; apply eq_sym, app_assoc|].
        split; [lia|]. split; [lia|]. split; [exact Htail|].
        split; [exact Hfront|].
        generalize (trim sentence). generalize (lit ". "). generalize (lit ".").
        intros d b t. rewrite <- !app_assoc. reflexivity.
Qed.

Lemma splitText_sentences_atomic_witness :
  let text0 := lit "Hello world. This is a very long sentence indeed! ok" in
  let sentence := lit " This is a very long sentence indeed" in
  In sentence (sentencesOf text0)
  /\ (exists c, In c (splitText text0 30 5)
                /\ occursIn (trim sentence) (text c))
  /\ 30 < len (trim sentence)
  /\ exists c,
       In c (splitText text0 30 5)
       /\ (text c = trim sentence ++ lit "."
           \/ exists prev front tail,
                In prev (splitText text0 30 5)
                /\ text prev = front ++ tail ++ lit "."
                /\ index c = index prev + 1
                /\ 0 < 5 /\ len tail = 5 /\ front <> []
                /\ text c = tail ++ lit ". " ++ trim sentence ++ lit ".").
Proof.
  intros text0 sentence.
  assert (Hin : In sentence (sentencesOf text0))
    by (vm_compute; right; left; reflexivity).
  assert (Hlong : 30 < len (trim sentence)) by (vm_compute; reflexivity).
  destruct (splitText_sentences_atomic text0 30 5 sentence Hin)
    as [Hwhole Hown].
  split; [exact Hin|]. split; [exact Hwhole|].
  split; [exact Hlong | exact (Hown Hlong)].
Defined.

(** C7 as stated fails: a sentence longer than the chunk size does not
    always get a chunk of its own.  With a chunk size of 30 and an
    overlap of 5 the chunks of this text are ["Hello world."],
    ["world. This is a very long sentence indeed."] and ["ndeed. ok."]:
    none is the long sentence alone. *)
Lemma splitText_long_sentence_not_alone :
  ~ (forall text0 chunkSize overlap sentence,
        In sentence (sentencesOf text0) ->
        chunkSize < len (trim sentence) ->
        exists c, In c (splitText text0 chunkSize overlap)
                  /\ text c = trim sentence ++ lit ".").
Proof.
  intros H.
  destruct (H (lit "Hello world. This is a very long sentence indeed! ok")
              30 5 (lit " This is a very long sentence indeed"))
    as (c & Hc & Ht).
  - vm_compute. right. left. reflexivity.
  - reflexivity.
  - assert (E : map text
                  (splitText
                     (lit "Hello world. This is a very long sentence indeed! ok")
                     30 5)
                = [lit "Hello world.";
                   lit "world. This is a very long sentence indeed.";
                   lit "ndeed. ok."]) by (vm_compute; reflexivity).
    apply (in_map text) in Hc. rewrite E, Ht in Hc.
    vm_compute in Hc.
    destruct Hc as [Hc | [Hc | [Hc | []]]]; discriminate.
Qed.

End ChunkerFacts.

(* ===================================================================== *)
(** ** The request store and the routes *)
(* ===================================================================== *)

Module StoreFacts.
Import Routes StoreSpec.

Lemma elapse_lookup now id (l : list (Z * jsstring)) :
  forall store : gmap jsstring request,
    fold_left (fun store t => if fst t <=? now then delete (snd t) store
                              else store) l store !! id
    = if dueFor now id l then None else store !! id.
Proof.
  induction l as [|[t i] l IH]; intros store; cbn [fold_left dueFor existsb fst snd].
  - reflexivity.
  - rewrite IH. fold (dueFor now id l).
    destruct (dueFor now id l); [rewrite orb_true_r; reflexivity|].
    rewrite orb_false_r.
    destruct (t <=? now); cbn [andb]; [|reflexivity].
    destruct (bool_decide_reflect (i = id)) as [->|Hne].
    + apply lookup_delete_eq.
    + apply lookup_delete_ne. exact Hne.
Qed.

Lemma dueFor_true now id l :
  dueFor now id l = true -> exists t, In (t, id) l /\ t <= now.
Proof.
  unfold dueFor. intros H. apply existsb_exists in H as ([t i] & Hin & H).
  cbn [fst snd] in H. apply andb_prop in H as [H1 H2].
  apply Z.leb_le in H1. apply bool_decide_eq_true_1 in H2. subst i.
  exists t. split; assumption.
Qed.

Lemma dueFor_false now id l t :
  dueFor now id l = false -> In (t, id) l -> now < t.
Proof.
  unfold dueFor. intros H Hin.
  destruct (Z.ltb_spec now t) as [Hlt|Hge]; [exact Hlt|].
  assert (Ht : existsb (fun t => (fst t <=? now) && bool_decide (snd t = id)) l
               = true).
  { apply existsb_exists. exists (t, id). split; [exact Hin|]. cbn [fst snd].
    apply andb_true_intro. split; [apply Z.leb_le; lia|].
    apply bool_decide_eq_true_2. reflexivity. }
  congruence.
Qed.

Lemma timer_unique (l : list (Z * jsstring)) t t' id :
  List.NoDup (map snd l) -> In (t, id) l -> In (t', id) l -> t = t'.
Proof.
  induction l as [|[u i] l IH]; cbn [map snd]; intros Hnd H H'; [contradiction|].
  apply List.NoDup_cons_iff in Hnd as [Hni Hnd].
  destruct H as [H|H], H' as [H'|H'].
  - congruence.
  - injection H as -> ->. exfalso. apply Hni.
    apply in_map_iff. exists (t', id). split; [reflexivity | exact H'].
  - injection H' as -> ->. exfalso. apply Hni.
    apply in_map_iff. exists (t, id). split; [reflexivity | exact H].
  - apply IH; assumption.
Qed.

Lemma nodup_filter_snd (f : Z * jsstring -> bool) (l : list (Z * jsstring)) :
  List.NoDup (map snd l) -> List.NoDup (map snd (List.filter f l)).
Proof.
  induction l as [|x l IH]; cbn [map List.filter]; intros H; [constructor|].
  apply List.NoDup_cons_iff in H as [Hni Hnd].
  destruct (f x); [|apply IH, Hnd].
  cbn [map]. apply List.NoDup_cons_iff. split; [|apply IH, Hnd].
  intros Hin. apply Hni.
  apply in_map_iff in Hin as (y & Hy & Hin).
  apply filter_In in Hin as [Hin _].
  apply in_map_iff. exists y. split; assumption.
Qed.

Lemma invariant_initial : invariant initial.
Proof.
  split; cbn [initial requestStore tasks timers map].
  - intros id r H. rewrite lookup_empty in H. discriminate.
  - intros id st H. rewrite lookup_empty in H. discriminate.
  - intros t id [].
  - constructor.
  - intros id r H. rewrite lookup_empty in H. discriminate.
Qed.

Lemma invariant_elapse now sv : invariant sv -> invariant (elapse now sv).
Proof.
  intros [Hj Ht Hm Hn Hc].
  split; cbn [elapse requestStore tasks timers].
  - intros id r H. rewrite elapse_lookup in H.
    destruct (dueFor now id (timers sv)); [discriminate|]. eapply Hj, H.
  - intros id st H. destruct (Ht id st H) as (r & Hr & Hs).
    exists r. split; [|exact Hs]. rewrite elapse_lookup.
    destruct (dueFor now id (timers sv)) eqn:Hd; [|exact Hr].
    apply dueFor_true in Hd as (t & Hin & _).
    destruct (Hm t id Hin) as [Hnone _]. congruence.
  - intros t id Hin. apply filter_In in Hin as [Hin Hnd]. cbn [fst] in Hnd.
    destruct (Hm t id Hin) as [Hnone (r & Hr & Hs)].
    split; [exact Hnone|]. exists r. split; [|exact Hs].
    rewrite elapse_lookup.
    destruct (dueFor now id (timers sv)) eqn:Hd; [|exact Hr].
    apply dueFor_true in Hd as (t' & Hin' & Hle).
    rewrite (timer_unique _ _ _ _ Hn Hin Hin') in Hnd.
    apply negb_true_iff, Z.leb_gt in Hnd. lia.
  - apply nodup_filter_snd, Hn.
  - intros id r H Hs. rewrite elapse_lookup in H.
    destruct (dueFor now id (timers sv)) eqn:Hd; [discriminate|].
    destruct (Hc id r H Hs) as [t Hin]. exists t.
    apply filter_In. split; [exact Hin|]. cbn [fst].
    apply negb_true_iff, Z.leb_gt. eapply dueFor_false; eassumption.
Qed.


Lemma lit_processing_completed : lit "processing" <> lit "completed".
Proof. vm_compute. discriminate. Qed.

Lemma lit_error_completed : lit "error" <> lit "completed".
Proof. vm_compute. discriminate. Qed.

Lemma postAsk_rejected now id b sv :
  truthy_value (body_question b) = false
  \/ truthy_value (body_context b) = false ->
  postAsk now id b sv = (sv, failure 400 "Question and context are required").
Proof.
  intros H. unfold postAsk.
  destruct H as [-> | ->]; cbn [negb orb]; [reflexivity|].
  rewrite orb_true_r. reflexivity.
Qed.

Lemma postAsk_accepted now id b sv :
  truthy_value (body_question b) = true ->
  truthy_value (body_context b) = true ->
  exists r,
    fst (postAsk now id b sv)
    = {| requestStore := <[id := r]> (requestStore sv);
         timers := timers sv;
         tasks := <[id := AwaitingContext now]> (tasks sv) |}
    /\ status r = lit "processing" /\ result r = None /\ error r = None
    /\ service r = lit "thehopper".
Proof.
  intros Hq Hc. unfold postAsk. rewrite Hq, Hc. cbn [negb orb].
  destruct (body_question b) as [q|]; [|discriminate].
  destruct (body_context b) as [c|]; [|discriminate].
  cbn [fst]. unfold processRAGRequest. cbn [requestStore timers tasks].
  rewrite lookup_insert_eq. eexists. split.
  - rewrite insert_insert_eq. reflexivity.
  - repeat split.
Qed.

Lemma invariant_ask now id b sv :
  invariant sv -> requestStore sv !! id = None ->
  invariant (fst (postAsk now id b sv)).
Proof.
  intros [Hj Ht Hm Hn Hc] Hfresh.
  destruct (truthy_value (body_question b)) eqn:Hq;
    [|rewrite postAsk_rejected by (left; exact Hq); split; assumption].
  destruct (truthy_value (body_context b)) eqn:Hx;
    [|rewrite postAsk_rejected by (right; exact Hx); split; assumption].
  destruct (postAsk_accepted now id b sv Hq Hx) as (r & -> & Hs & Hr & He & _).
  split; cbn [requestStore tasks timers].
  - intros id' r' H. destruct (decide (id = id')) as [<-|Hne].
    + rewrite lookup_insert_eq in H. injection H as <-. left. repeat split; assumption.
    + rewrite lookup_insert_ne in H by exact Hne. eapply Hj, H.
  - intros id' st H. destruct (decide (id = id')) as [<-|Hne].
    + exists r. rewrite lookup_insert_eq. repeat split; assumption.
    + rewrite lookup_insert_ne in H by exact Hne.
      rewrite lookup_insert_ne by exact Hne. eapply Ht, H.
  - intros t id' Hin. destruct (Hm t id' Hin) as [Hnone (r' & Hr' & Hs')].
    assert (Hne : id <> id') by congruence.
    rewrite !lookup_insert_ne by exact Hne. split; [exact Hnone|].
    exists r'. split; assumption.
  - exact Hn.
  - intros id' r' H Hs'. destruct (decide (id = id')) as [<-|Hne].
    + rewrite lookup_insert_eq in H. injection H as <-.
      rewrite Hs in Hs'. destruct (lit_processing_completed Hs').
    + rewrite lookup_insert_ne in H by exact Hne. eapply Hc; eassumption.
Qed.

Lemma invariant_failed id msg sv :
  invariant sv -> is_Some (tasks sv !! id) ->
  invariant (processingFailed id msg sv).
Proof.
  intros [Hj Ht Hm Hn Hc] [st Hst].
  destruct (Ht id st Hst) as (r & Hr & Hs & Hres & Herr).
  unfold processingFailed. rewrite Hr.
  split; cbn [requestStore tasks timers].
  - intros id' r' H. destruct (decide (id = id')) as [<-|Hne].
    + rewrite lookup_insert_eq in H. injection H as <-.
      right. right. cbn. repeat split; [exact Hres | eauto].
    + rewrite lookup_insert_ne in H by exact Hne. eapply Hj, H.
  - intros id' st' H. destruct (decide (id = id')) as [<-|Hne].
    + rewrite lookup_delete_eq in H. discriminate.
    + rewrite lookup_delete_ne in H by exact Hne.
      rewrite lookup_insert_ne by exact Hne. eapply Ht, H.
  - intros t id' Hin. destruct (Hm t id' Hin) as [Hnone (r' & Hr' & Hs')].
    assert (Hne : id <> id') by congruence.
    rewrite lookup_delete_ne, lookup_insert_ne by exact Hne.
    split; [exact Hnone|]. exists r'. split; assumption.
  - exact Hn.
  - intros id' r' H Hs'. destruct (decide (id = id')) as [<-|Hne].
    + rewrite lookup_insert_eq in H. injection H as <-.
      cbn in Hs'. destruct (lit_error_completed Hs').
    + rewrite lookup_insert_ne in H by exact Hne. eapply Hc; eassumption.
Qed.

Lemma invariant_contextSettled id outcome sv :
  invariant sv -> invariant (contextSettled id outcome sv).
Proof.
  intros Hinv. unfold contextSettled.
  destruct (tasks sv !! id) as [[st|st]|] eqn:Hst; try exact Hinv.
  destruct outcome as [msg|data]; [apply invariant_failed; eauto|].
  destruct Hinv as [Hj Ht Hm Hn Hc].
  destruct (Ht id _ Hst) as (r & Hr & Hs & Hres & Herr).
  split; cbn [requestStore tasks timers].
  - intros id' r' H. destruct (decide (id = id')) as [<-|Hne].
    + rewrite lookup_alter_eq, Hr in H. injection H as <-.
      left. cbn. repeat split; assumption.
    + rewrite lookup_alter_ne in H by exact Hne. eapply Hj, H.
  - intros id' st' H. destruct (decide (id = id')) as [<-|Hne].
    + rewrite lookup_alter_eq, Hr. eexists. split; [reflexivity|].
      cbn. repeat split; assumption.
    + rewrite lookup_insert_ne in H by exact Hne.
      rewrite lookup_alter_ne by exact Hne. eapply Ht, H.
  - intros t id' Hin. destruct (Hm t id' Hin) as [Hnone (r' & Hr' & Hs')].
    assert (Hne : id <> id') by congruence.
    rewrite lookup_insert_ne, lookup_alter_ne by exact Hne.
    split; [exact Hnone|]. exists r'. split; assumption.
  - exact Hn.
  - intros id' r' H Hs'. destruct (decide (id = id')) as [<-|Hne].
    + rewrite lookup_alter_eq, Hr in H. injection H as <-.
      cbn in Hs'. rewrite Hs in Hs'. destruct (lit_processing_completed Hs').
    + rewrite lookup_alter_ne in H by exact Hne. eapply Hc; eassumption.
Qed.

Lemma invariant_responseSettled now id outcome sv :
  invariant sv -> invariant (responseSettled now id outcome sv).
Proof.
  intros Hinv. unfold responseSettled.
  destruct (tasks sv !! id) as [[st|st]|] eqn:Hst; try exact Hinv.
  destruct outcome as [msg|res]; [apply invariant_failed; eauto|].
  destruct Hinv as [Hj Ht Hm Hn Hc].
  destruct (Ht id _ Hst) as (r & Hr & Hs & Hres & Herr).
  split; cbn [requestStore tasks timers].
  - intros id' r' H. destruct (decide (id = id')) as [<-|Hne].
    + rewrite lookup_alter_eq, Hr in H. injection H as <-.
      right. left. cbn. repeat split; [eauto | exact Herr].
    + rewrite lookup_alter_ne in H by exact Hne. eapply Hj, H.
  - intros id' st' H. destruct (decide (id = id')) as [<-|Hne].
    + rewrite lookup_delete_eq in H. discriminate.
    + rewrite lookup_delete_ne in H by exact Hne.
      rewrite lookup_alter_ne by exact Hne. eapply Ht, H.
  - intros t id' Hin. apply in_app_or in Hin as [Hin|[Hin|[]]].
    + destruct (Hm t id' Hin) as [Hnone (r' & Hr' & Hs')].
      assert (Hne : id <> id') by congruence.
      rewrite lookup_delete_ne, lookup_alter_ne by exact Hne.
      split; [exact Hnone|]. exists r'. split; assumption.
    + injection Hin as <- <-. rewrite lookup_delete_eq, lookup_alter_eq, Hr.
      split; [reflexivity|]. eexists. split; reflexivity.
  - rewrite map_app. cbn [map snd].
    apply (Permutation_NoDup (l := id :: map snd (timers sv)));
      [apply Permutation_cons_append|].
    apply List.NoDup_cons_iff. split; [|exact Hn].
    intros Hin. apply in_map_iff in Hin as ([t i] & Hi & Hin).
    cbn [snd] in Hi. subst i. destruct (Hm t id Hin) as [Hnone _]. congruence.
  - intros id' r' H Hs'. destruct (decide (id = id')) as [<-|Hne].
    + exists (now + retention). apply in_or_app. right. now left.
    + rewrite lookup_alter_ne in H by exact Hne.
      destruct (Hc id' r' H Hs') as [t Hin]. exists t.
      apply in_or_app. now left.
Qed.

(** Every reachable server satisfies the invariant. *)
Lemma reachable_invariant sv : reachable sv -> invariant sv.
Proof.
  induction 1 as [|sv e Hreach IH Hadm].
  - apply invariant_initial.
  - destruct e as [now id b|id outcome|now id outcome|now]; cbn [handle].
    + apply invariant_ask; [exact IH | exact Hadm].
    + apply invariant_contextSettled, IH.
    + apply invariant_responseSettled, IH.
    + apply invariant_elapse, IH.
Qed.


Lemma lit_failed_other :
  lit "failed" <> lit "processing" /\ lit "failed" <> lit "completed"
  /\ lit "failed" <> lit "error".
Proof. repeat split; vm_compute; discriminate. Qed.

Lemma lit_error_processing : lit "error" <> lit "processing".
Proof. vm_compute. discriminate. Qed.

Ltac absurd_hyp :=
  unfold not; intros;
  repeat match goal with H : _ /\ _ |- _ => destruct H end;
  match goal with
  | H : is_Some None |- _ => destruct H as [? H]; discriminate H
  | H : lit _ = lit _ |- _ => vm_compute in H; discriminate H
  end.

(** In every reachable state a request is ['completed'] exactly when it
    holds a result and no error, holds an error and no result exactly
    when its status is ['error'], never holds both, and never has the
    status ['failed']. *)
Lemma reachable_jobs_consistent sv id r :
  reachable sv -> requestStore sv !! id = Some r ->
  (status r = lit "completed" <-> is_Some (result r) /\ error r = None)
  /\ (status r = lit "error" <-> is_Some (error r) /\ result r = None)
  /\ ~ (is_Some (result r) /\ is_Some (error r))
  /\ status r <> lit "failed".
Proof.
  intros Hreach Hr.
  destruct (inv_jobs _ (reachable_invariant _ Hreach) _ _ Hr)
    as [(Hs & Hres & Herr) | [(Hs & Hres & Herr) | (Hs & Hres & Herr)]];
    rewrite Hs, ?Hres, ?Herr.
  all: split; [|split; [|split]]; try split.
  all: first [ absurd_hyp | intros; repeat split; solve [eauto] ].
Qed.

(** A throw at either stage ends the task in the [catch] block: status
    ['error'], the message stored, no result. *)
Lemma processing_error_recorded sv id st msg :
  reachable sv -> tasks sv !! id = Some st ->
  exists r,
    requestStore (processingFailed id msg sv) !! id = Some r
    /\ status r = lit "error" /\ error r = Some msg /\ result r = None.
Proof.
  intros Hreach Hst.
  destruct (inv_tasks _ (reachable_invariant _ Hreach) _ _ Hst)
    as (r & Hr & _ & Hres & _).
  unfold processingFailed. cbn [requestStore]. rewrite Hr, lookup_insert_eq.
  eexists. split; [reflexivity|]. cbn. repeat split. exact Hres.
Qed.

(** Completion sets the eviction timer, one hour after it. *)
Lemma completion_schedules_eviction now id st res sv :
  tasks sv !! id = Some (AwaitingResponse st) ->
  timers (responseSettled now id (inr res) sv)
  = timers sv ++ [(now + 3600000, id)].
Proof. intros H. unfold responseSettled. rewrite H. reflexivity. Qed.

(** The [catch] block sets none. *)
Lemma failure_schedules_nothing id msg sv :
  timers (processingFailed id msg sv) = timers sv.
Proof. reflexivity. Qed.

(** A completed request is kept until its timer is due and deleted as
    soon as it is. *)
Lemma completed_request_evicted sv id r :
  reachable sv -> requestStore sv !! id = Some r ->
  status r = lit "completed" ->
  exists due, In (due, id) (timers sv)
    /\ (forall now, due <= now -> requestStore (elapse now sv) !! id = None)
    /\ (forall now, now < due -> requestStore (elapse now sv) !! id = Some r).
Proof.
  intros Hreach Hr Hs.
  pose proof (reachable_invariant _ Hreach) as Hinv.
  destruct (inv_completed _ Hinv _ _ Hr Hs) as [t Hin].
  exists t. split; [exact Hin|].
  split; intros now Hnow; cbn [elapse requestStore]; rewrite elapse_lookup;
    destruct (dueFor now id (timers sv)) eqn:Hd; try reflexivity; try exact Hr.
  - pose proof (dueFor_false _ _ _ _ Hd Hin). lia.
  - apply dueFor_true in Hd as (t' & Hin' & Hle).
    rewrite (timer_unique _ _ _ _ (inv_nodup _ Hinv) Hin Hin') in Hnow. lia.
Qed.

(** A request that failed stays in the store whatever happens next. *)
Lemma failed_request_never_evicted sv id r e :
  reachable sv -> requestStore sv !! id = Some r -> status r = lit "error" ->
  admissible e sv ->
  requestStore (handle e sv) !! id = Some r.
Proof.
  intros Hreach Hr Hs Hadm.
  pose proof (reachable_invariant _ Hreach) as [Hj Ht Hm Hn Hc].
  assert (Hnotask : tasks sv !! id = None).
  { destruct (tasks sv !! id) as [st|] eqn:Hst; [|reflexivity].
    destruct (Ht id st Hst) as (r' & Hr' & Hs' & _).
    rewrite Hr in Hr'. injection Hr' as <-. rewrite Hs in Hs'.
    destruct (lit_error_processing Hs'). }
  assert (Hnotimer : forall t, ~ In (t, id) (timers sv)).
  { intros t Hin. destruct (Hm t id Hin) as [_ (r' & Hr' & Hs')].
    rewrite Hr in Hr'. injection Hr' as <-. rewrite Hs in Hs'.
    destruct (lit_error_completed Hs'). }
  destruct e as [now id' b|id' outcome|now id' outcome|now]; cbn [handle].
  - cbn [admissible] in Hadm.
    destruct (truthy_value (body_question b)) eqn:Hq;
      [|rewrite postAsk_rejected by (left; exact Hq); exact Hr].
    destruct (truthy_value (body_context b)) eqn:Hx;
      [|rewrite postAsk_rejected by (right; exact Hx); exact Hr].
    destruct (postAsk_accepted now id' b sv Hq Hx) as (r' & -> & _).
    cbn [requestStore]. rewrite lookup_insert_ne by congruence. exact Hr.
  - unfold contextSettled.
    destruct (tasks sv !! id') as [[st|st]|] eqn:Hst; try exact Hr.
    assert (Hne : id' <> id) by congruence.
    destruct outcome as [msg|data].
    + unfold processingFailed. cbn [requestStore].
      destruct (requestStore sv !! id'); [|exact Hr].
      rewrite lookup_insert_ne by exact Hne. exact Hr.
    + cbn [requestStore]. rewrite lookup_alter_ne by exact Hne. exact Hr.
  - unfold responseSettled.
    destruct (tasks sv !! id') as [[st|st]|] eqn:Hst; try exact Hr.
    assert (Hne : id' <> id) by congruence.
    destruct outcome as [msg|res].
    + unfold processingFailed. cbn [requestStore].
      destruct (requestStore sv !! id'); [|exact Hr].
      rewrite lookup_insert_ne by exact Hne. exact Hr.
    + cbn [requestStore]. rewrite lookup_alter_ne by exact Hne. exact Hr.
  - cbn [elapse requestStore]. rewrite elapse_lookup.
    destruct (dueFor now id (timers sv)) eqn:Hd; [|exact Hr].
    apply dueFor_true in Hd as (t & Hin & _). destruct (Hnotimer t Hin).
Qed.

(** C8. A submission without [question] or without [context] is answered
    with 400 and leaves the server as it was: an identifier unknown
    before is still answered with 404. *)
Theorem postAsk_missing_field now requestId b sv :
  body_question b = None \/ body_context b = None ->
  snd (postAsk now requestId b sv)
  = {| code := 400;
       payload := [(lit "success", JBool false);
                   (lit "error", JStr (lit "Question and context are required"))] |}
  /\ fst (postAsk now requestId b sv) = sv
  /\ forall svc unknown,
       requestStore sv !! unknown = None ->
       code (getStatus svc unknown (fst (postAsk now requestId b sv))) = 404.
Proof.
  intros H. unfold postAsk.
  assert (Hf : negb (truthy_value (body_question b))
               || negb (truthy_value (body_context b)) = true).
  { destruct H as [-> | ->]; cbn [truthy_value negb orb];
      [reflexivity | apply orb_true_r]. }
  rewrite Hf. cbn [fst snd]. repeat split.
  intros svc unknown Hu. unfold getStatus. rewrite Hu. reflexivity.
Qed.

Lemma postAsk_missing_field_witness :
  let b := {| body_question := Some (JStr (lit "What is machine learning?"));
              body_context := None;
              body_weakConcepts := None |} in
  snd (postAsk 0 sampleId b initial)
  = {| code := 400;
       payload := [(lit "success", JBool false);
                   (lit "error", JStr (lit "Question and context are required"))] |}
  /\ fst (postAsk 0 sampleId b initial) = initial
  /\ forall svc unknown,
       requestStore initial !! unknown = None ->
       code (getStatus svc unknown (fst (postAsk 0 sampleId b initial))) = 404.
Proof.
  intros b. apply (postAsk_missing_field 0 sampleId b initial).
  right. reflexivity.
Defined.

(** C10. For a stored request, a status or result lookup under another
    service name is answered with 400, [success: false] and
    ['Service mismatch'], whatever the state of the request. *)
Theorem service_mismatch svc requestId sv r :
  requestStore sv !! requestId = Some r ->
  service r <> svc ->
  let mismatch :=
    {| code := 400;
       payload := [(lit "success", JBool false);
                   (lit "error", JStr (lit "Service mismatch"))] |} in
  getStatus svc requestId sv = mismatch
  /\ getResult svc requestId sv = mismatch.
Proof.
  intros Hr Hs mismatch. unfold getStatus, getResult. rewrite Hr.
  rewrite (bool_decide_eq_false_2 _ Hs). split; reflexivity.
Qed.

Lemma service_mismatch_witness :
  let sv := run [Ask 0 sampleId sampleBody] initial in
  let mismatch :=
    {| code := 400;
       payload := [(lit "success", JBool false);
                   (lit "error", JStr (lit "Service mismatch"))] |} in
  getStatus (lit "podcast") sampleId sv = mismatch
  /\ getResult (lit "podcast") sampleId sv = mismatch.
Proof.
  intros sv.
  eapply (service_mismatch (lit "podcast") sampleId sv).
  - vm_compute. reflexivity.
  - vm_compute. discriminate.
Defined.

(** C1. The failing input: a submission whose language-model call
    rejects.  The request ends with status ['error'], which is not the
    ['failed'] the client polls for; the message is stored and no result
    is. *)
Theorem failed_request_status :
  exists r,
    requestStore failedRun !! sampleId = Some r
    /\ status r = lit "error"
    /\ status r <> lit "failed"
    /\ error r = Some sampleError
    /\ result r = None.
Proof.
  eexists. split; [vm_compute; reflexivity|].
  cbn [status error result]. repeat split. discriminate.
Qed.

(** C2. The same failing input: no timer is pending after the failure,
    and the request is still stored however much time passes. *)
Theorem failed_request_kept later :
  timers failedRun = []
  /\ is_Some (requestStore (handle (Elapse later) failedRun) !! sampleId).
Proof.
  split; [reflexivity|].
  unfold handle, elapse. replace (timers failedRun) with (@nil (Z * jsstring))
    by reflexivity.
  cbn [fold_left requestStore]. vm_compute. eauto.
Qed.

(** C3. The same failing input: the stored message appears in neither
    reply; the status reply carries the fixed ['Processing failed'], the
    result reply the fixed ['Request not completed yet']. *)
Theorem failed_request_replies :
  getStatus (lit "thehopper") sampleId failedRun
  = {| code := 200;
       payload := [(lit "success", JBool true);
                   (lit "status", JStr (lit "error"));
                   (lit "progress", num 30);
                   (lit "message", JStr (lit "Processing failed"))] |}
  /\ getResult (lit "thehopper") sampleId failedRun
     = {| code := 202;
          payload := [(lit "success", JBool false);
                      (lit "error", JStr (lit "Request not completed yet"));
                      (lit "status", JStr (lit "error"))] |}
  /\ ~ In (JStr sampleError)
          (map snd (payload (getStatus (lit "thehopper") sampleId failedRun)))
  /\ ~ In (JStr sampleError)
          (map snd (payload (getResult (lit "thehopper") sampleId failedRun))).
Proof.
  repeat split; try (vm_compute; reflexivity).
  - vm_compute. intros H. repeat destruct H as [H|H]; try discriminate; exact H.
  - vm_compute. intros H. repeat destruct H as [H|H]; try discriminate; exact H.
Qed.

End StoreFacts.

(* ===================================================================== *)
(** ** The life of a request *)
(* ===================================================================== *)

Module LifecycleFacts.
Import Routes StoreSpec LifecycleSpec StoreFacts.

Lemma wellShaped_initial : wellShaped initial.
Proof. intros id r H. cbn in H. rewrite lookup_empty in H. discriminate. Qed.

Lemma wellShaped_ask now id b sv :
  wellShaped sv -> requestStore sv !! id = None ->
  wellShaped (fst (postAsk now id b sv)).
Proof.
  intros Hw Hfresh.
  destruct (truthy_value (body_question b)) eqn:Hq;
    [|rewrite postAsk_rejected by (left; exact Hq); exact Hw].
  destruct (truthy_value (body_context b)) eqn:Hx;
    [|rewrite postAsk_rejected by (right; exact Hx); exact Hw].
  unfold postAsk. rewrite Hq, Hx. cbn [negb orb].
  destruct (body_question b) as [q|]; [|discriminate].
  destruct (body_context b) as [c|]; [|discriminate].
  cbn [fst]. unfold processRAGRequest. cbn [requestStore timers tasks].
  rewrite lookup_insert_eq. cbn [requestStore tasks].
  intros id' r' H. cbn [requestStore tasks] in *.
  destruct (decide (id = id')) as [<-|Hne].
  - rewrite lookup_insert_eq in H. injection H as <-.
    rewrite lookup_insert_eq. cbn. repeat split.
  - rewrite lookup_insert_ne in H by exact Hne.
    rewrite lookup_insert_ne in H by exact Hne.
    rewrite lookup_insert_ne by exact Hne. apply Hw, H.
Qed.

Lemma wellShaped_failed id msg sv :
  wellShaped sv -> is_Some (tasks sv !! id) ->
  wellShaped (processingFailed id msg sv).
Proof.
  intros Hw [st Hst] id' r' H. unfold processingFailed in *.
  cbn [requestStore tasks] in *.
  destruct (decide (id = id')) as [<-|Hne].
  - rewrite lookup_delete_eq.
    destruct (requestStore sv !! id) as [r|] eqn:Hr.
    + rewrite lookup_insert_eq in H. injection H as <-.
      pose proof (Hw id r Hr) as [Hsvc Hshape]. rewrite Hst in Hshape.
      split; [exact Hsvc|]. right. cbn.
      destruct st as [t0|t0]; destruct Hshape as (_ & Hp & _);
        repeat split; auto.
    + rewrite Hr in H. discriminate.
  - rewrite lookup_delete_ne by exact Hne.
    destruct (requestStore sv !! id) as [r|] eqn:Hr.
    + rewrite lookup_insert_ne in H by exact Hne. apply Hw, H.
    + apply Hw, H.
Qed.

Lemma wellShaped_contextSettled id outcome sv :
  wellShaped sv -> wellShaped (contextSettled id outcome sv).
Proof.
  intros Hw. unfold contextSettled.
  destruct (tasks sv !! id) as [[st|st]|] eqn:Hst; try exact Hw.
  destruct outcome as [msg|data]; [apply wellShaped_failed; eauto|].
  intros id' r' H. cbn [requestStore tasks] in *.
  destruct (decide (id = id')) as [<-|Hne].
  - rewrite lookup_insert_eq. rewrite lookup_alter_eq in H.
    destruct (requestStore sv !! id) as [r|] eqn:Hr; [|discriminate].
    injection H as <-.
    pose proof (Hw id r Hr) as [Hsvc Hshape]. rewrite Hst in Hshape.
    destruct Hshape as (Hs & _ & _ & Hc).
    split; [exact Hsvc|]. cbn. repeat split; assumption.
  - rewrite lookup_insert_ne by exact Hne.
    rewrite lookup_alter_ne in H by exact Hne. apply Hw, H.
Qed.

Lemma wellShaped_responseSettled now id outcome sv :
  wellShaped sv -> wellShaped (responseSettled now id outcome sv).
Proof.
  intros Hw. unfold responseSettled.
  destruct (tasks sv !! id) as [[st|st]|] eqn:Hst; try exact Hw.
  destruct outcome as [msg|res]; [apply wellShaped_failed; eauto|].
  intros id' r' H. cbn [requestStore tasks] in *.
  destruct (decide (id = id')) as [<-|Hne].
  - rewrite lookup_delete_eq. rewrite lookup_alter_eq in H.
    destruct (requestStore sv !! id) as [r|] eqn:Hr; [|discriminate].
    injection H as <-.
    pose proof (Hw id r Hr) as [Hsvc _].
    split; [exact Hsvc|]. left. cbn. repeat split. eauto.
  - rewrite lookup_delete_ne by exact Hne.
    rewrite lookup_alter_ne in H by exact Hne. apply Hw, H.
Qed.

Lemma wellShaped_elapse now sv : wellShaped sv -> wellShaped (elapse now sv).
Proof.
  intros Hw id r H. cbn [elapse requestStore tasks] in *.
  rewrite elapse_lookup in H.
  destruct (dueFor now id (timers sv)); [discriminate|]. apply Hw, H.
Qed.

Lemma reachable_wellShaped sv : reachable sv -> wellShaped sv.
Proof.
  induction 1 as [|sv e Hreach IH Hadm].
  - apply wellShaped_initial.
  - destruct e as [now id b|id outcome|now id outcome|now]; cbn [handle].
    + apply wellShaped_ask; [exact IH | exact Hadm].
    + apply wellShaped_contextSettled, IH.
    + apply wellShaped_responseSettled, IH.
    + apply wellShaped_elapse, IH.
Qed.

Lemma failedRun_reachable : reachable failedRun.
Proof.
  unfold failedRun, run. cbn [fold_left].
  repeat (apply reachable_step; [|try exact I]).
  - apply reachable_initial.
  - reflexivity.
Qed.

(** X1. In every reachable state the status reply for a stored request, asked
    under ['thehopper'], is 200 and shows one of five combinations of
    status, progress and message. *)
Theorem status_reply_shapes sv id :
  reachable sv -> is_Some (requestStore sv !! id) ->
  exists st p msg,
    getStatus (lit "thehopper") id sv
    = {| code := 200;
         payload := [(lit "success", JBool true);
                     (lit "status", JStr (lit st));
                     (lit "progress", num p);
                     (lit "message", JStr (lit msg))] |}
    /\ In (st, p, msg)
         [("processing", 10, "Processing context...");
          ("processing", 30, "Generating embeddings...");
          ("completed", 100, "Processing complete");
          ("error", 10, "Processing failed");
          ("error", 30, "Processing failed")]%string.
Proof.
  intros Hreach [r Hr].
  pose proof (reachable_wellShaped _ Hreach id r Hr) as [Hsvc Hshape].
  unfold getStatus. rewrite Hr, Hsvc.
  rewrite bool_decide_eq_true_2 by reflexivity. cbn [negb].
  destruct (tasks sv !! id) as [[t0|t0]|].
  - destruct Hshape as (-> & -> & -> & _).
    exists "processing"%string, 10, "Processing context..."%string.
    split; [reflexivity | cbn; tauto].
  - destruct Hshape as (-> & -> & -> & _).
    exists "processing"%string, 30, "Generating embeddings..."%string.
    split; [reflexivity | cbn; tauto].
  - destruct Hshape as [(-> & -> & -> & _) | (-> & -> & [-> | ->])].
    + exists "completed"%string, 100, "Processing complete"%string.
      split; [reflexivity | cbn; tauto].
    + exists "error"%string, 10, "Processing failed"%string.
      split; [reflexivity | cbn; tauto].
    + exists "error"%string, 30, "Processing failed"%string.
      split; [reflexivity | cbn; tauto].
Qed.

Lemma status_reply_shapes_witness :
  exists st p msg,
    getStatus (lit "thehopper") sampleId failedRun
    = {| code := 200;
         payload := [(lit "success", JBool true);
                     (lit "status", JStr (lit st));
                     (lit "progress", num p);
                     (lit "message", JStr (lit msg))] |}
    /\ In (st, p, msg)
         [("processing", 10, "Processing context...");
          ("processing", 30, "Generating embeddings...");
          ("completed", 100, "Processing complete");
          ("error", 10, "Processing failed");
          ("error", 30, "Processing failed")]%string.
Proof.
  apply (status_reply_shapes failedRun sampleId).
  - apply failedRun_reachable.
  - vm_compute. eauto.
Defined.

(** X2. In every reachable state the code of a result reply is decided by the
    store alone: 404 for an unknown identifier, 400 under another service
    name than ['thehopper'], 202 until the request is completed, 200
    then.  The handler's 500 is never sent. *)
Theorem result_reply_code sv svc id :
  reachable sv ->
  code (getResult svc id sv)
  = match requestStore sv !! id with
    | None => 404
    | Some r =>
        if bool_decide (svc = lit "thehopper") then
          if bool_decide (status r = lit "completed") then 200 else 202
        else 400
    end.
Proof.
  intros Hreach. unfold getResult.
  destruct (requestStore sv !! id) as [r|] eqn:Hr; [|reflexivity].
  pose proof (reachable_wellShaped _ Hreach id r Hr) as [Hsvc _].
  rewrite Hsvc.
  destruct (bool_decide_reflect (svc = lit "thehopper")) as [->|Hne].
  - rewrite bool_decide_eq_true_2 by reflexivity. cbn [negb].
    destruct (bool_decide_reflect (status r = lit "completed")) as [Hs|Hs];
      [|reflexivity].
    cbn [negb].
    destruct (proj1 (proj1 (reachable_jobs_consistent sv id r Hreach Hr)) Hs)
      as [[res ->] _].
    reflexivity.
  - rewrite bool_decide_eq_false_2 by congruence. reflexivity.
Qed.

Lemma result_reply_code_witness :
  code (getResult (lit "thehopper") sampleId failedRun)
  = match requestStore failedRun !! sampleId with
    | None => 404
    | Some r =>
        if bool_decide (lit "thehopper" = lit "thehopper") then
          if bool_decide (status r = lit "completed") then 200 else 202
        else 400
    end.
Proof.
  apply (result_reply_code failedRun (lit "thehopper") sampleId).
  apply failedRun_reachable.
Defined.

Lemma store_elsewhere e id id' sv :
  subject e = Some id' -> id' <> id ->
  requestStore (handle e sv) !! id = requestStore sv !! id.
Proof.
  intros Hsub Hne.
  destruct e as [now i b|i outcome|now i outcome|now]; cbn [subject] in Hsub;
    try discriminate; injection Hsub as ->; cbn [handle].
  - unfold postAsk.
    destruct (negb _ || negb _); [reflexivity|].
    destruct (body_question b) as [q|]; [|reflexivity].
    destruct (body_context b) as [c|]; [|reflexivity].
    cbn [fst]. unfold processRAGRequest. cbn [requestStore timers tasks].
    rewrite lookup_insert_eq. cbn [requestStore].
    rewrite !lookup_insert_ne by exact Hne. reflexivity.
  - unfold contextSettled.
    destruct (tasks sv !! id') as [[st|st]|]; try reflexivity.
    destruct outcome as [msg|data].
    + unfold processingFailed. cbn [requestStore].
      destruct (requestStore sv !! id'); [|reflexivity].
      apply lookup_insert_ne, Hne.
    + cbn [requestStore]. apply lookup_alter_ne, Hne.
  - unfold responseSettled.
    destruct (tasks sv !! id') as [[st|st]|]; try reflexivity.
    destruct outcome as [msg|res].
    + unfold processingFailed. cbn [requestStore].
      destruct (requestStore sv !! id'); [|reflexivity].
      apply lookup_insert_ne, Hne.
    + cbn [requestStore]. apply lookup_alter_ne, Hne.
Qed.

Lemma tasks_elsewhere e id id' sv :
  subject e = Some id' -> id' <> id ->
  tasks (handle e sv) !! id = tasks sv !! id.
Proof.
  intros Hsub Hne.
  destruct e as [now i b|i outcome|now i outcome|now]; cbn [subject] in Hsub;
    try discriminate; injection Hsub as ->; cbn [handle].
  - unfold postAsk.
    destruct (negb _ || negb _); [reflexivity|].
    destruct (body_question b) as [q|]; [|reflexivity].
    destruct (body_context b) as [c|]; [|reflexivity].
    cbn [fst]. unfold processRAGRequest. cbn [requestStore timers tasks].
    rewrite lookup_insert_eq. cbn [tasks].
    rewrite lookup_insert_ne by exact Hne. reflexivity.
  - unfold contextSettled.
    destruct (tasks sv !! id') as [[st|st]|]; try reflexivity.
    destruct outcome as [msg|data]; cbn [processingFailed tasks].
    + apply lookup_delete_ne, Hne.
    + apply lookup_insert_ne, Hne.
  - unfold responseSettled.
    destruct (tasks sv !! id') as [[st|st]|]; try reflexivity.
    destruct outcome as [msg|res]; cbn [processingFailed tasks];
      apply lookup_delete_ne, Hne.
Qed.

(** X3. A submission or a settled promise of one request leaves every other
    request, and the background task of every other request, as it
    was. *)
Theorem other_requests_untouched e id id' sv :
  subject e = Some id' -> id' <> id ->
  requestStore (handle e sv) !! id = requestStore sv !! id
  /\ tasks (handle e sv) !! id = tasks sv !! id.
Proof.
  intros Hsub Hne. split.
  - eapply store_elsewhere; eassumption.
  - eapply tasks_elsewhere; eassumption.
Qed.

Lemma other_requests_untouched_witness :
  let e := Ask 7000 (lit "another-id") sampleBody in
  requestStore (handle e failedRun) !! sampleId
  = requestStore failedRun !! sampleId
  /\ tasks (handle e failedRun) !! sampleId = tasks failedRun !! sampleId.
Proof.
  apply (other_requests_untouched (Ask 7000 (lit "another-id") sampleBody)
           sampleId (lit "another-id") failedRun).
  - reflexivity.
  - vm_compute. discriminate.
Defined.

Lemma no_task_when_settled sv id r :
  wellShaped sv -> requestStore sv !! id = Some r ->
  status r <> lit "processing" -> tasks sv !! id = None.
Proof.
  intros Hw Hr Hs. pose proof (Hw id r Hr) as [_ Hshape].
  destruct (tasks sv !! id) as [[t0|t0]|]; [| |reflexivity];
    destruct Hshape as (Hp & _); contradiction.
Qed.

(** X4. Once a request is completed or in error nothing changes it any more:
    after any admissible event it is stored unchanged, or it is gone,
    which only the passing of time does, and only to a completed one. *)
Theorem settled_request_frozen sv id r e :
  reachable sv -> admissible e sv ->
  requestStore sv !! id = Some r -> status r <> lit "processing" ->
  requestStore (handle e sv) !! id = Some r
  \/ (requestStore (handle e sv) !! id = None
      /\ status r = lit "completed" /\ exists now, e = Elapse now).
Proof.
  intros Hreach Hadm Hr Hs.
  pose proof (no_task_when_settled sv id r (reachable_wellShaped _ Hreach) Hr Hs)
    as Hnotask.
  destruct (subject e) as [id'|] eqn:Hsub.
  - left. destruct (decide (id' = id)) as [->|Hne];
      [|rewrite (store_elsewhere e id id' sv Hsub Hne); exact Hr].
    destruct e as [now i b|i outcome|now i outcome|now]; cbn [subject] in Hsub;
      try discriminate; injection Hsub as ->; cbn [handle].
    + cbn [admissible] in Hadm. congruence.
    + unfold contextSettled. rewrite Hnotask. exact Hr.
    + unfold responseSettled. rewrite Hnotask. exact Hr.
  - destruct e as [now i b|i outcome|now i outcome|now]; cbn [subject] in Hsub;
      try discriminate. cbn [handle elapse requestStore].
    rewrite elapse_lookup.
    destruct (dueFor now id (timers sv)) eqn:Hd; [|left; exact Hr].
    right. split; [reflexivity|]. split; [|eauto].
    apply dueFor_true in Hd as (t & Hin & _).
    destruct (inv_timers _ (reachable_invariant _ Hreach) t id Hin)
      as [_ (r' & Hr' & Hs')].
    congruence.
Qed.

Lemma settled_request_frozen_witness :
  let r := {| status := lit "error";
              question := JStr (lit "What is machine learning?");
              context := JStr (lit "Machine learning is a subset of AI.");
              weakConcepts := JArr [JStr (lit "algorithms")];
              createdAt := 0; service := lit "thehopper";
              progress := Some 30;
              message := Some (lit "Processing failed");
              result := None; error := Some sampleError |} in
  requestStore (handle (Elapse 99999999) failedRun) !! sampleId = Some r
  \/ (requestStore (handle (Elapse 99999999) failedRun) !! sampleId = None
      /\ status r = lit "completed" /\ exists now, Elapse 99999999 = Elapse now).
Proof.
  intros r.
  apply (settled_request_frozen failedRun sampleId r (Elapse 99999999)).
  - apply failedRun_reachable.
  - exact I.
  - vm_compute. reflexivity.
  - vm_compute. discriminate.
Defined.

(** X5. Progress never goes back: whatever admissible event happens, a
    request that stays stored shows at least the progress it showed. *)
Theorem progress_never_decreases sv id r r' e :
  reachable sv -> admissible e sv ->
  requestStore sv !! id = Some r ->
  requestStore (handle e sv) !! id = Some r' ->
  progressOf r <= progressOf r'.
Proof.
  intros Hreach Hadm Hr Hr'.
  pose proof (reachable_wellShaped _ Hreach id r Hr) as [_ Hshape].
  assert (Hsame : requestStore (handle e sv) !! id = Some r -> progressOf r <= progressOf r')
    by (intros E; rewrite E in Hr'; injection Hr' as <-; lia).
  destruct (subject e) as [id'|] eqn:Hsub.
  - destruct (decide (id' = id)) as [->|Hne];
      [|apply Hsame; rewrite (store_elsewhere e id id' sv Hsub Hne);
        exact Hr].
    destruct e as [now i b|i outcome|now i outcome|now]; cbn [subject] in Hsub;
      try discriminate; injection Hsub as ->; cbn [handle] in *.
    + cbn [admissible] in Hadm. congruence.
    + unfold contextSettled in *.
      destruct (tasks sv !! id) as [[st|st]|] eqn:Hst; try (apply Hsame, Hr).
      destruct Hshape as (_ & Hp & _).
      destruct outcome as [msg|data].
      * unfold processingFailed in Hr'. cbn [requestStore] in Hr'.
        rewrite Hr, lookup_insert_eq in Hr'. injection Hr' as <-.
        unfold progressOf. cbn. lia.
      * cbn [requestStore] in Hr'. rewrite lookup_alter_eq, Hr in Hr'.
        injection Hr' as <-. unfold progressOf. rewrite Hp. cbn. lia.
    + unfold responseSettled in *.
      destruct (tasks sv !! id) as [[st|st]|] eqn:Hst; try (apply Hsame, Hr).
      destruct Hshape as (_ & Hp & _).
      destruct outcome as [msg|res].
      * unfold processingFailed in Hr'. cbn [requestStore] in Hr'.
        rewrite Hr, lookup_insert_eq in Hr'. injection Hr' as <-.
        unfold progressOf. cbn. lia.
      * cbn [requestStore] in Hr'. rewrite lookup_alter_eq, Hr in Hr'.
        injection Hr' as <-. unfold progressOf. rewrite Hp. cbn. lia.
  - destruct e as [now i b|i outcome|now i outcome|now]; cbn [subject] in Hsub;
      try discriminate. apply Hsame. cbn [handle elapse requestStore] in *.
    rewrite elapse_lookup in *.
    destruct (dueFor now id (timers sv)); [discriminate | exact Hr].
Qed.

Lemma progress_never_decreases_witness :
  let sv := run [Ask 0 sampleId sampleBody;
                 ContextSettled sampleId (inr JNull)] initial in
  let e := ResponseSettled 5000 sampleId
             (inr {| answer := Some (JStr (lit "It is a subset of AI."));
                     citations := None; themes := None |}) in
  match requestStore sv !! sampleId, requestStore (handle e sv) !! sampleId with
  | Some r, Some r' => progressOf r = 30 /\ progressOf r <= progressOf r'
  | _, _ => False
  end.
Proof.
  intros sv e.
  assert (Hreach : reachable sv).
  { unfold sv, run. cbn [fold_left].
    repeat (apply reachable_step; [|try exact I]);
      [apply reachable_initial | reflexivity]. }
  destruct (requestStore sv !! sampleId) as [r|] eqn:Hr;
    [|vm_compute in Hr; discriminate].
  destruct (requestStore (handle e sv) !! sampleId) as [r'|] eqn:Hr';
    [|vm_compute in Hr'; discriminate].
  split.
  - vm_compute in Hr. injection Hr as <-. reflexivity.
  - exact (progress_never_decreases sv sampleId r r' e Hreach I Hr Hr').
Defined.


(** X7. A submission with a truthy question and context is answered with 200
    and its identifier, and is at once visible: the status reply shows
    ['processing'] at progress 10 (the background task has already run
    to its first [await]), the result reply is 202. *)
Theorem accepted_submission_visible now id b sv :
  truthy_value (body_question b) = true ->
  truthy_value (body_context b) = true ->
  let sv' := fst (postAsk now id b sv) in
  snd (postAsk now id b sv)
  = {| code := 200;
       payload := [(lit "success", JBool true);
                   (lit "requestId", JStr id);
                   (lit "message",
                    JStr (lit "Question submitted for processing"))] |}
  /\ getStatus (lit "thehopper") id sv'
     = {| code := 200;
          payload := [(lit "success", JBool true);
                      (lit "status", JStr (lit "processing"));
                      (lit "progress", num 10);
                      (lit "message", JStr (lit "Processing context..."))] |}
  /\ getResult (lit "thehopper") id sv'
     = {| code := 202;
          payload := [(lit "success", JBool false);
                      (lit "error", JStr (lit "Request not completed yet"));
                      (lit "status", JStr (lit "processing"))] |}.
Proof.
  intros Hq Hx sv'. unfold sv', postAsk. rewrite Hq, Hx. cbn [negb orb].
  destruct (body_question b) as [q|]; [|discriminate].
  destruct (body_context b) as [c|]; [|discriminate].
  cbn [fst snd]. split; [reflexivity|].
  unfold processRAGRequest. cbn [requestStore timers tasks].
  rewrite lookup_insert_eq.
  unfold getStatus, getResult. cbn [requestStore].
  rewrite lookup_insert_eq. cbn [service status progress message setMessage
                                   setProgress setStatus].
  split; reflexivity.
Qed.

Lemma completedRun_reachable : reachable completedRun.
Proof.
  unfold completedRun, run. cbn [fold_left].
  repeat (apply reachable_step; [|try exact I]).
  - apply reachable_initial.
  - reflexivity.
Qed.


Lemma accepted_submission_visible_witness :
  let sv' := fst (postAsk 0 sampleId sampleBody initial) in
  snd (postAsk 0 sampleId sampleBody initial)
  = {| code := 200;
       payload := [(lit "success", JBool true);
                   (lit "requestId", JStr sampleId);
                   (lit "message",
                    JStr (lit "Question submitted for processing"))] |}
  /\ getStatus (lit "thehopper") sampleId sv'
     = {| code := 200;
          payload := [(lit "success", JBool true);
                      (lit "status", JStr (lit "processing"));
                      (lit "progress", num 10);
                      (lit "message", JStr (lit "Processing context..."))] |}
  /\ getResult (lit "thehopper") sampleId sv'
     = {| code := 202;
          payload := [(lit "success", JBool false);
                      (lit "error", JStr (lit "Request not completed yet"));
                      (lit "status", JStr (lit "processing"))] |}.
Proof.
  apply (accepted_submission_visible 0 sampleId sampleBody initial);
    reflexivity.
Defined.

(** X8. The whole life of a request that succeeds.  Submitted at [now] under
    a fresh identifier and answered at [now2], it shows ['completed'] at
    progress 100, its result reply carries the answer and the
    processing time [now2 - now], and it can be looked up for exactly one
    hour after [now2]: then both lookups answer 404. *)
Theorem request_lifecycle now now2 id b data res sv :
  reachable sv -> requestStore sv !! id = None ->
  truthy_value (body_question b) = true ->
  truthy_value (body_context b) = true ->
  let done :=
    responseSettled now2 id (inr res)
      (contextSettled id (inr data) (fst (postAsk now id b sv))) in
  getStatus (lit "thehopper") id done
  = {| code := 200;
       payload := [(lit "success", JBool true);
                   (lit "status", JStr (lit "completed"));
                   (lit "progress", num 100);
                   (lit "message", JStr (lit "Processing complete"))] |}
  /\ getResult (lit "thehopper") id done
     = {| code := 200;
          payload :=
            [(lit "success", JBool true)]
            ++ match answer res with
               | Some a => [(lit "answer", a)]
               | None => []
               end
            ++ [(lit "citations", or_else (citations res) (JArr []));
                (lit "themes", or_else (themes res) (JStr (lit "")));
                (lit "processingTime", num (now2 - now))] |}
  /\ forall later,
       code (getStatus (lit "thehopper") id (elapse later done))
       = (if now2 + 3600000 <=? later then 404 else 200)
       /\ code (getResult (lit "thehopper") id (elapse later done))
          = (if now2 + 3600000 <=? later then 404 else 200).
Proof.
  intros Hreach Hfresh Hq Hx done.
  destruct (postAsk_accepted now id b sv Hq Hx)
    as (r & Hask & Hs & Hres & Herr & Hsvc).
  assert (Hdone : requestStore done !! id
                  = Some (setResult {| response := res;
                                       processingTime := now2 - now |}
                            (setMessage "Processing complete"
                               (setStatus "completed"
                                  (setProgress 100
                                     (setMessage "Generating embeddings..."
                                        (setProgress 30 r))))))
                  /\ timers done = timers sv ++ [(now2 + 3600000, id)]).
  { unfold done. rewrite Hask. unfold contextSettled. cbn [tasks].
    rewrite lookup_insert_eq. unfold responseSettled. cbn [tasks requestStore timers].
    rewrite lookup_insert_eq. cbn [requestStore timers].
    rewrite !lookup_alter_eq, lookup_insert_eq. split; reflexivity. }
  destruct Hdone as [Hdone Htimers].
  split; [|split].
  - unfold getStatus. rewrite Hdone. cbn. rewrite Hsvc.
    rewrite bool_decide_eq_true_2 by reflexivity. reflexivity.
  - unfold getResult. rewrite Hdone. cbn [service status result setResult
      setMessage setStatus setProgress]. rewrite Hsvc.
    rewrite !bool_decide_eq_true_2 by reflexivity. reflexivity.
  - intros later.
    assert (Hdue : dueFor later id (timers done) = (now2 + 3600000 <=? later)).
    { rewrite Htimers. unfold dueFor. rewrite existsb_app. cbn [existsb fst snd].
      rewrite bool_decide_eq_true_2 by reflexivity.
      rewrite andb_true_r, orb_false_r.
      fold (dueFor later id (timers sv)).
      destruct (dueFor later id (timers sv)) eqn:Hd; [|reflexivity].
      apply dueFor_true in Hd as (t & Hin & _).
      destruct (inv_timers _ (reachable_invariant _ Hreach) t id Hin)
        as [_ (r' & Hr' & _)]. congruence. }
    unfold getStatus, getResult. cbn [elapse requestStore].
    rewrite elapse_lookup, Hdue.
    destruct (now2 + 3600000 <=? later); [split; reflexivity|].
    rewrite Hdone. cbn [service status result setResult
      setMessage setStatus setProgress]. rewrite Hsvc.
    rewrite !bool_decide_eq_true_2 by reflexivity. split; reflexivity.
Qed.

Lemma request_lifecycle_witness :
  let done :=
    responseSettled 5000 sampleId (inr sampleResponse)
      (contextSettled sampleId (inr JNull)
         (fst (postAsk 0 sampleId sampleBody initial))) in
  getStatus (lit "thehopper") sampleId done
  = {| code := 200;
       payload := [(lit "success", JBool true);
                   (lit "status", JStr (lit "completed"));
                   (lit "progress", num 100);
                   (lit "message", JStr (lit "Processing complete"))] |}
  /\ getResult (lit "thehopper") sampleId done
     = {| code := 200;
          payload :=
            [(lit "success", JBool true)]
            ++ match answer sampleResponse with
               | Some a => [(lit "answer", a)]
               | None => []
               end
            ++ [(lit "citations", or_else (citations sampleResponse) (JArr []));
                (lit "themes", or_else (themes sampleResponse) (JStr (lit "")));
                (lit "processingTime", num (5000 - 0))] |}
  /\ forall later,
       code (getStatus (lit "thehopper") sampleId (elapse later done))
       = (if 5000 + 3600000 <=? later then 404 else 200)
       /\ code (getResult (lit "thehopper") sampleId (elapse later done))
          = (if 5000 + 3600000 <=? later then 404 else 200).
Proof.
  apply (request_lifecycle 0 5000 sampleId sampleBody JNull sampleResponse
           initial).
  - apply reachable_initial.
  - reflexivity.
  - reflexivity.
  - reflexivity.
Defined.

End LifecycleFacts.

(* ===================================================================== *)
(** ** More on the chunker *)
(* ===================================================================== *)

Module ChunkFacts.
Import EmbeddingService RankerSpec ChunkSpec ChunkerFacts.

(** *** Splitting on sentence ends *)

Lemma split_runs_concat (s : jsstring) : forall cur in_run,
  (in_run = true -> cur = []) ->
  concat (split_runs cur in_run s)
  = rev cur ++ List.filter (fun c => negb (is_sentence_end c)) s.
Proof.
  induction s as [|c s IH]; intros cur in_run Hrun;
    cbn [split_runs List.filter].
  - cbn. rewrite !app_nil_r. reflexivity.
  - destruct (is_sentence_end c); cbn [negb].
    + destruct in_run.
      * rewrite (Hrun eq_refl). apply IH. reflexivity.
      * cbn [concat]. rewrite IH by reflexivity. reflexivity.
    + rewrite IH by discriminate. cbn [rev]. rewrite <- app_assoc. reflexivity.
Qed.

Lemma split_runs_clean (s : jsstring) : forall cur in_run,
  Forall (fun c => is_sentence_end c = false) cur ->
  Forall (Forall (fun c => is_sentence_end c = false))
    (split_runs cur in_run s).
Proof.
  induction s as [|c s IH]; intros cur in_run Hcur; cbn [split_runs].
  - constructor; [|constructor]. apply Forall_rev, Hcur.
  - destruct (is_sentence_end c) eqn:Hc.
    + destruct in_run; [apply IH; constructor|].
      constructor; [apply Forall_rev, Hcur | apply IH; constructor].
    + apply IH. constructor; assumption.
Qed.

(** X9. [text.split(/[.!?]+/)] never yields an empty array, no piece holds a
    sentence end, and the pieces put together are the text without its
    sentence ends. *)
Theorem split_sentence_ends_pieces (s : jsstring) :
  split_sentence_ends s <> []
  /\ Forall (Forall (fun c => is_sentence_end c = false)) (split_sentence_ends s)
  /\ concat (split_sentence_ends s)
     = List.filter (fun c => negb (is_sentence_end c)) s.
Proof.
  unfold split_sentence_ends. repeat split.
  - destruct s as [|c s]; cbn [split_runs]; [discriminate|].
    destruct (is_sentence_end c); [discriminate|].
    generalize [c]. generalize false. induction s as [|c' s IH]; intros b l;
      cbn [split_runs]; [discriminate|].
    destruct (is_sentence_end c'); [destruct b; [apply IH|discriminate]|apply IH].
  - apply split_runs_clean. constructor.
  - apply split_runs_concat. discriminate.
Qed.

(** *** Where a string occurs *)

Lemma startsWith_spec (p : jsstring) : forall s,
  startsWith s p = true <-> exists q, s = p ++ q.
Proof.
  induction p as [|a p IH]; intros s.
  - destruct s; (split; [intros _; eexists; reflexivity | reflexivity]).
  - destruct s as [|b s]; cbn [startsWith];
      [split; [discriminate | intros [q Hq]; discriminate]|].
    rewrite andb_true_iff, N.eqb_eq, IH. split.
    + intros [-> [q ->]]. exists q. reflexivity.
    + intros [q Hq]. injection Hq as -> ->. split; [reflexivity | eauto].
Qed.

Lemma indexOf_from_spec (p : jsstring) : forall s i,
  indexOf_from i s p = -1
  \/ exists pre post,
       s = pre ++ p ++ post /\ indexOf_from i s p = i + len pre.
Proof.
  intros s. induction s as [|c s IH]; intros i; cbn [indexOf_from].
  - destruct (startsWith [] p) eqn:Hp; [|left; reflexivity].
    right. apply startsWith_spec in Hp as [q Hq]. exists [], q.
    split; [exact Hq | unfold len; cbn [List.length]; lia].
  - destruct (startsWith (c :: s) p) eqn:Hp.
    + right. apply startsWith_spec in Hp as [q Hq]. exists [], q.
      split; [exact Hq | unfold len; cbn [List.length]; lia].
    + destruct (IH (i + 1)) as [H | (pre & post & -> & H)]; [left; exact H|].
      right. exists (c :: pre), post. split; [reflexivity|].
      rewrite H. unfold len. cbn [List.length]. lia.
Qed.

Lemma lastIndexOf_from_spec (p : jsstring) : forall s i best,
  lastIndexOf_from i best s p = best
  \/ exists pre post,
       s = pre ++ p ++ post /\ lastIndexOf_from i best s p = i + len pre.
Proof.
  intros s. induction s as [|c s IH]; intros i best; cbn [lastIndexOf_from].
  - destruct (startsWith [] p) eqn:Hp; [|left; reflexivity].
    right. apply startsWith_spec in Hp as [q Hq]. exists [], q.
    split; [exact Hq | unfold len; cbn [List.length]; lia].
  - destruct (startsWith (c :: s) p) eqn:Hp.
    + destruct (IH (i + 1) i) as [H | (pre & post & Hs & H)].
      * right. apply startsWith_spec in Hp as [q Hq]. exists [], q.
        split; [exact Hq | rewrite H; unfold len; cbn [List.length]; lia].
      * right. exists (c :: pre), post. split; [rewrite Hs; reflexivity|].
        rewrite H. unfold len. cbn [List.length]. lia.
    + destruct (IH (i + 1) best) as [H | (pre & post & Hs & H)];
        [left; exact H|].
      right. exists (c :: pre), post. split; [rewrite Hs; reflexivity|].
      rewrite H. unfold len. cbn [List.length]. lia.
Qed.

(** *** The chunks *)

Lemma mkChunk_indexOf_wellFormed text0 cur idx :
  cur <> [] -> wellFormedChunk text0 (mkChunk indexOf text0 cur idx).
Proof.
  intros Hne. exists cur. cbn. repeat split; [exact Hne|].
  unfold indexOf. destruct (indexOf_from_spec cur text0 0)
    as [H | (pre & post & Ht & H)]; [left; exact H|].
  right. exists pre, post. split; [exact Ht | rewrite H; lia].
Qed.

Lemma mkChunk_lastIndexOf_wellFormed text0 cur idx :
  cur <> [] -> wellFormedChunk text0 (mkChunk lastIndexOf text0 cur idx).
Proof.
  intros Hne. exists cur. cbn. repeat split; [exact Hne|].
  unfold lastIndexOf. destruct (lastIndexOf_from_spec cur text0 0 (-1))
    as [H | (pre & post & Ht & H)]; [left; exact H|].
  right. exists pre, post. split; [exact Ht | rewrite H; lia].
Qed.

Lemma truthy_nonempty (s : jsstring) : truthy s = true -> s <> [].
Proof. destruct s; [discriminate | discriminate]. Qed.

Section Packing.
Variables (text0 : jsstring) (chunkSize overlap : Z).

Lemma tidy_push st at_ :
  tidy text0 st -> wellFormedChunk text0 (mkChunk at_ text0 (currentChunk st) (chunkIndex st)) ->
  Forall (wellFormedChunk text0)
    (chunks st ++ [mkChunk at_ text0 (currentChunk st) (chunkIndex st)])
  /\ chunkIndex st + 1
     = Z.of_nat (List.length
         (chunks st ++ [mkChunk at_ text0 (currentChunk st) (chunkIndex st)]))
  /\ map index (chunks st ++ [mkChunk at_ text0 (currentChunk st) (chunkIndex st)])
     = map Z.of_nat
         (seq 0 (List.length
            (chunks st ++ [mkChunk at_ text0 (currentChunk st) (chunkIndex st)]))).
Proof.
  intros (Hw & Hi & Hm) Hc. repeat split.
  - apply Forall_app. split; [exact Hw | constructor; [exact Hc | constructor]].
  - rewrite length_app. cbn [List.length]. lia.
  - rewrite length_app. cbn [List.length]. rewrite Nat.add_1_r, seq_S.
    rewrite !map_app, Hm. cbn [map index mkChunk]. rewrite Hi. reflexivity.
Qed.

Lemma pack_tidy st sentence :
  tidy text0 st -> tidy text0 (pack text0 chunkSize overlap st sentence).
Proof.
  intros Ht. unfold pack.
  destruct (_ <=? chunkSize); [exact Ht|].
  destruct (truthy (currentChunk st)) eqn:Hc; [|exact Ht].
  unfold tidy. cbn [chunks chunkIndex fst snd].
  apply tidy_push; [exact Ht|].
  apply mkChunk_indexOf_wellFormed, truthy_nonempty, Hc.
Qed.

Lemma packAll_tidy sentences :
  tidy text0 (packAll text0 chunkSize overlap sentences).
Proof.
  unfold packAll.
  assert (H0 : tidy text0 {| chunks := []; currentChunk := lit ""; chunkIndex := 0 |}).
  { repeat split. constructor. }
  revert H0. generalize {| chunks := []; currentChunk := lit ""; chunkIndex := 0 |}.
  induction sentences as [|s rest IH]; intros st Hst; cbn [fold_left];
    [exact Hst|].
  apply IH, pack_tidy, Hst.
Qed.

End Packing.

Lemma splitText_tidy text0 chunkSize overlap :
  Forall (wellFormedChunk text0) (splitText text0 chunkSize overlap)
  /\ map index (splitText text0 chunkSize overlap)
     = map Z.of_nat (seq 0 (List.length (splitText text0 chunkSize overlap))).
Proof.
  unfold splitText, flush.
  pose proof (packAll_tidy text0 chunkSize overlap (sentencesOf text0)) as Ht.
  destruct (truthy (currentChunk _)) eqn:Hc;
    [|split; [apply Ht | apply Ht]].
  destruct (tidy_push text0 _ lastIndexOf Ht) as (H1 & _ & H3);
    [|split; assumption].
  apply mkChunk_lastIndexOf_wellFormed, truthy_nonempty, Hc.
Qed.

(** X10. Every chunk of [splitText] is a non-empty body followed by a full
    stop, [metadata.length] is the length of the body, no embedding is
    cached yet, and [metadata.startChar] is either [-1] or an offset at
    which the body occurs in the text. *)
Theorem splitText_chunks_wellFormed text0 chunkSize overlap :
  Forall (wellFormedChunk text0) (splitText text0 chunkSize overlap).
Proof. apply splitText_tidy. Qed.

(** X11. The chunks are numbered from 0 in the order they are emitted. *)
Theorem splitText_indices text0 chunkSize overlap :
  map index (splitText text0 chunkSize overlap)
  = map Z.of_nat (seq 0 (List.length (splitText text0 chunkSize overlap))).
Proof. apply splitText_tidy. Qed.

Lemma pack_truthy text0 chunkSize overlap st sentence :
  trim sentence <> [] ->
  truthy (currentChunk (pack text0 chunkSize overlap st sentence)) = true.
Proof.
  intros Hne. unfold pack.
  assert (forall a b : jsstring, truthy (a ++ b ++ trim sentence) = true) as Happ.
  { intros a b. destruct (a ++ b ++ trim sentence) eqn:E; [|reflexivity].
    apply app_eq_nil in E as [_ E]. apply app_eq_nil in E as [_ E].
    contradiction. }
  destruct (_ <=? chunkSize); cbn [currentChunk]; [apply Happ|].
  destruct (_ && _); [apply Happ|].
  destruct (trim sentence); [contradiction | reflexivity].
Qed.

(** X12. [splitText] yields no chunk exactly when the text has no sentence
    left after blank pieces are dropped. *)
Theorem splitText_empty_iff text0 chunkSize overlap :
  splitText text0 chunkSize overlap = [] <-> sentencesOf text0 = [].
Proof.
  unfold splitText, packAll. split.
  - intros Hnil.
    pose proof (@sentencesOf_nonempty text0) as Hne.
    destruct (sentencesOf text0) as [|s rest] using rev_ind; [reflexivity|].
    exfalso. revert Hnil. rewrite fold_left_app. cbn [fold_left].
    unfold flush. rewrite pack_truthy by (apply Hne, in_or_app; right; now left).
    intros H. apply app_eq_nil in H as [_ H]. discriminate.
  - intros ->. reflexivity.
Qed.

Lemma pack_pending text0 chunkSize overlap st sentence :
  (pending (pack text0 chunkSize overlap st sentence) <= S (pending st))%nat.
Proof.
  unfold pending, pack.
  destruct (_ <=? chunkSize); cbn [currentChunk chunks fst snd].
  - destruct (truthy (currentChunk st)), (truthy _); lia.
  - destruct (truthy (currentChunk st)); cbn [fst];
      [rewrite length_app; cbn [List.length]|]; destruct (truthy _); lia.
Qed.

Lemma packs_pending text0 chunkSize overlap sentences : forall st,
  (pending (fold_left (pack text0 chunkSize overlap) sentences st)
   <= List.length sentences + pending st)%nat.
Proof.
  induction sentences as [|s rest IH]; intros st; cbn [fold_left List.length];
    [lia|].
  specialize (IH (pack text0 chunkSize overlap st s)).
  pose proof (pack_pending text0 chunkSize overlap st s). lia.
Qed.

(** X13. [splitText] never yields more chunks than the text has sentences. *)
Theorem splitText_count text0 chunkSize overlap :
  (List.length (splitText text0 chunkSize overlap)
   <= List.length (sentencesOf text0))%nat.
Proof.
  unfold splitText, packAll.
  pose proof (packs_pending text0 chunkSize overlap (sentencesOf text0)
                {| chunks := []; currentChunk := lit ""; chunkIndex := 0 |}) as H.
  change (pending {| chunks := []; currentChunk := lit ""; chunkIndex := 0 |})
    with 0%nat in H.
  revert H. generalize (fold_left (pack text0 chunkSize overlap) (sentencesOf text0)
                {| chunks := []; currentChunk := lit ""; chunkIndex := 0 |}).
  intros st. unfold pending, flush.
  destruct (truthy (currentChunk st));
    [rewrite length_app; cbn [List.length]|]; lia.
Qed.

Lemma len_app (a b : jsstring) : len (a ++ b) = len a + len b.
Proof. unfold len. rewrite length_app. lia. Qed.

Lemma len_substring_tail (s : jsstring) (n : Z) :
  0 < n < len s -> len (substring s (len s - n)) = n.
Proof.
  intros H. unfold substring, len in *. rewrite length_drop. lia.
Qed.

Section Bounded.
Variables (text0 : jsstring) (chunkSize overlap : Z).

Lemma pack_bounded st sentence :
  len (trim sentence) + Z.max 0 overlap + 1 <= chunkSize ->
  Forall (fun c => length (metadata c) <= chunkSize + 1) (chunks st) ->
  len (currentChunk st) <= chunkSize + 1 ->
  let st' := pack text0 chunkSize overlap st sentence in
  Forall (fun c => length (metadata c) <= chunkSize + 1) (chunks st')
  /\ len (currentChunk st') <= chunkSize + 1.
Proof.
  intros Hs Hc Hcur. unfold pack. cbv zeta.
  destruct (_ <=? chunkSize) eqn:Hfit; cbn [chunks currentChunk fst snd].
  - split; [exact Hc|]. apply Z.leb_le in Hfit.
    rewrite !len_app.
    assert (len (if truthy (currentChunk st) then lit ". " else lit "") <= 2)
      by (destruct (truthy _); vm_compute; discriminate).
    lia.
  - split.
    + destruct (truthy (currentChunk st)); cbn [fst]; [|exact Hc].
      apply Forall_app. split; [exact Hc|].
      constructor; [cbn; exact Hcur | constructor].
    + destruct (_ && _) eqn:Hov.
      * apply andb_true_iff in Hov as [H1 H2].
        apply Z.ltb_lt in H1, H2.
        rewrite !len_app, len_substring_tail by lia.
        change (len (lit ". ")) with 2. lia.
      * lia.
Qed.

Lemma packs_bounded sentences : forall st,
  Forall (fun s => len (trim s) + Z.max 0 overlap + 1 <= chunkSize) sentences ->
  Forall (fun c => length (metadata c) <= chunkSize + 1) (chunks st) ->
  len (currentChunk st) <= chunkSize + 1 ->
  let st' := fold_left (pack text0 chunkSize overlap) sentences st in
  Forall (fun c => length (metadata c) <= chunkSize + 1) (chunks st')
  /\ len (currentChunk st') <= chunkSize + 1.
Proof.
  induction sentences as [|s rest IH]; intros st Hs Hc Hcur; cbn [fold_left];
    [split; assumption|].
  apply Forall_cons in Hs as [Hs Hrest].
  destruct (pack_bounded st s Hs Hc Hcur) as [Hc' Hcur'].
  apply IH; assumption.
Qed.

End Bounded.

(** X14. When every sentence, trimmed, leaves room for the overlap and one
    more character within [chunkSize], no chunk body is longer than
    [chunkSize + 1]: the separator adds two characters where the test
    counts one. *)
Theorem splitText_size_bound text0 chunkSize overlap :
  Forall (fun s => len (trim s) + Z.max 0 overlap + 1 <= chunkSize)
    (sentencesOf text0) ->
  Forall (fun c => length (metadata c) <= chunkSize + 1
                   /\ len (text c) <= chunkSize + 2)
    (splitText text0 chunkSize overlap).
Proof.
  intros Hs.
  assert (Hm : Forall (fun c => length (metadata c) <= chunkSize + 1)
                 (splitText text0 chunkSize overlap)).
  { unfold splitText, packAll.
    assert (H0 : sentencesOf text0 = [] \/ 0 <= chunkSize + 1).
    { destruct (sentencesOf text0) as [|s0 rest]; [left; reflexivity|].
      right. apply Forall_cons in Hs as [Hs _].
      assert (0 <= len (trim s0)) by (unfold len; lia). lia. }
    destruct H0 as [-> | H0]; [constructor|].
    destruct (packs_bounded text0 chunkSize overlap (sentencesOf text0)
                {| chunks := []; currentChunk := lit ""; chunkIndex := 0 |} Hs)
      as [Hc Hcur]; [apply Forall_nil_2 | cbn [currentChunk]; change (len (lit "")) with 0; lia |].
    unfold flush. destruct (truthy _); [|exact Hc].
    apply Forall_app. split; [exact Hc|].
    constructor; [cbn; exact Hcur | constructor]. }
  destruct (splitText_tidy text0 chunkSize overlap) as [Hw _].
  rewrite Forall_forall in Hm, Hw. apply Forall_forall. intros c Hc.
  specialize (Hm c Hc). specialize (Hw c Hc).
  destruct Hw as (body & _ & Ht & Hl & _).
  split; [exact Hm|]. rewrite Ht, len_app, <- Hl.
  change (len (lit ".")) with 1. lia.
Qed.

(** At [chunkSize] 5 the first chunk of this text has a body of six
    characters: the bound is met. *)
Lemma splitText_size_bound_witness :
  let text0 := lit "ab. cd. ef" in
  Forall (fun s => len (trim s) + Z.max 0 0 + 1 <= 5) (sentencesOf text0)
  /\ Forall (fun c => length (metadata c) <= 5 + 1
                      /\ len (text c) <= 5 + 2)
       (splitText text0 5 0)
  /\ map (fun c => length (metadata c)) (splitText text0 5 0) = [6; 2].
Proof.
  assert (H : Forall (fun s => len (trim s) + Z.max 0 0 + 1 <= 5)
                (sentencesOf (lit "ab. cd. ef")))
    by (vm_compute; repeat constructor; discriminate).
  split; [exact H|].
  split; [apply (splitText_size_bound _ 5 0 H) | reflexivity].
Defined.

End ChunkFacts.

(* ===================================================================== *)
(** ** Retrieval: what the ranker does to its documents *)
(* ===================================================================== *)

Module RetrievalFacts.
Import EmbeddingService Batch RankerSpec RetrievalSpec.
Import RankerFacts SortFacts RerankFacts.

(** *** Multiplication of binary64 values commutes *)

Lemma SFmul_comm prec emax x y : SFmul prec emax x y = SFmul prec emax y x.
Proof.
  destruct x as [sx| sx| |sx mx ex], y as [sy| sy| |sy my ey]; cbn;
    try reflexivity; try (rewrite xorb_comm; reflexivity).
  rewrite xorb_comm, Pos.mul_comm, Z.add_comm. reflexivity.
Qed.

Lemma float_mul_comm (x y : float) : (x * y = y * x)%float.
Proof.
  apply Prim2SF_inj. rewrite !FloatAxioms.mul_spec. apply SFmul_comm.
Qed.

Lemma accumulate_swap (l : list (float * float)) : forall d na nb,
  fold_left accumulate (map (fun ab => (snd ab, fst ab)) l) (d, nb, na)
  = let '(d', na', nb') := fold_left accumulate l (d, na, nb) in
    (d', nb', na').
Proof.
  induction l as [|[a b] l IH]; intros d na nb; cbn [map fold_left];
    [reflexivity|].
  cbn [accumulate fst snd]. rewrite (float_mul_comm b a). apply IH.
Qed.

Lemma combine_swap {A B} (a : list A) : forall b : list B,
  combine b a = map (fun ab => (snd ab, fst ab)) (combine a b).
Proof.
  induction a as [|x a IH]; intros [|y b]; cbn; try reflexivity.
  f_equal. apply IH.
Qed.

(** X15. [cosineSimilarity] does not depend on the order of its arguments:
    the same number, or the same thrown message. *)
Theorem cosineSimilarity_sym (vecA vecB : vector) :
  cosineSimilarity vecA vecB = cosineSimilarity vecB vecA.
Proof.
  unfold cosineSimilarity.
  rewrite (Nat.eqb_sym (List.length vecB)).
  destruct (negb _); [reflexivity|].
  rewrite (combine_swap vecA vecB), accumulate_swap.
  destruct (fold_left accumulate (combine vecA vecB) (0, 0, 0)%float)
    as [[d na] nb].
  rewrite orb_comm, (float_mul_comm (PrimFloat.sqrt nb)). reflexivity.
Qed.

(** *** The documents across a call *)

Lemma cachedFrom_refl d : cachedFrom d d.
Proof. repeat split. intros e H. exact H. Qed.

Lemma Forall2_cachedFrom_refl (l : list document) : Forall2 cachedFrom l l.
Proof. induction l; constructor; [apply cachedFrom_refl | assumption]. Qed.

Section WithModel.
Variable load : option pipeline.

Lemma embedDocuments_cachedFrom (documents : list document) :
  forall s r documents' s',
    embedDocuments load documents s = (r, documents', s') ->
    Forall2 cachedFrom documents documents'.
Proof.
  induction documents as [|d rest IH]; intros s r documents' s' H; simpl in H.
  - injection H as _ <- _. constructor.
  - destruct (embedding d) as [e|] eqn:Hd.
    + destruct (embedDocuments load rest s) as [[r0 rest'] s0] eqn:E.
      injection H as _ <- _.
      constructor; [apply cachedFrom_refl | eapply IH, E].
    + destruct (embed load (text d) s) as [[m|e] s1].
      * injection H as _ <- _. apply Forall2_cachedFrom_refl.
      * destruct (embedDocuments load rest s1) as [[r0 rest'] s0] eqn:E.
        injection H as _ <- _. constructor; [|eapply IH, E].
        repeat split. cbn. intros e0 He0. congruence.
Qed.

Lemma scoreFrom_pointsInto (q : vector) (es : list vector) :
  forall i (ds : list document) sims,
    map embedding ds = map Some es ->
    scoreFrom i q es ds = inr sims ->
    Forall (fun r =>
              i <= sim_index r
              /\ ds !! Z.to_nat (sim_index r - i) = Some (sim_document r)
              /\ exists e, embedding (sim_document r) = Some e
                           /\ cosineSimilarity q e = inr (score r)) sims.
Proof.
  induction es as [|e es IH]; intros i ds sims Hc H; simpl in H.
  - injection H as <-. constructor.
  - destruct ds as [|d ds]; [injection H as <-; constructor|].
    destruct (cosineSimilarity q e) as [m|sc] eqn:Hcos; [discriminate|].
    destruct (scoreFrom (i + 1) q es ds) as [m|rest] eqn:E; [discriminate|].
    injection H as <-. cbn [map] in Hc. injection Hc as Hd Hc.
    constructor.
    + cbn [sim_index sim_document score]. split; [lia|].
      split; [rewrite Z.sub_diag; reflexivity|].
      exists e. split; assumption.
    + eapply List.Forall_impl; [|apply (IH _ _ _ Hc E)].
      cbn beta. intros r (Hi & Hl & He). split; [lia|]. split; [|exact He].
      replace (Z.to_nat (sim_index r - i))
        with (S (Z.to_nat (sim_index r - (i + 1)))) by lia.
      exact Hl.
Qed.

Lemma similaritiesOf_pointsInto query (documents : list document) s
    sims documents' s' :
  similaritiesOf load query documents s = (inr sims, documents', s') ->
  exists qv, Forall (pointsInto qv documents') sims.
Proof.
  unfold similaritiesOf. intros H.
  destruct (embed load query s) as [[m|qv] s1]; [discriminate|].
  destruct (embedDocuments load documents s1) as [[[m|es] ds'] s2] eqn:E;
    [discriminate|].
  injection H as H <- _. exists qv.
  pose proof (embedDocuments_cached load _ _ _ _ _ E) as Hc.
  eapply List.Forall_impl; [|apply (scoreFrom_pointsInto _ _ _ _ _ Hc H)].
  cbn beta. intros r (Hi & Hl & He). unfold pointsInto.
  rewrite Z.sub_0_r in Hl. auto.
Qed.

Lemma similaritiesOf_cachedFrom query (documents : list document) s
    r documents' s' :
  similaritiesOf load query documents s = (r, documents', s') ->
  Forall2 cachedFrom documents documents'
  /\ forall sims, r = inr sims ->
       Forall (fun d => is_Some (embedding d)) documents'.
Proof.
  unfold similaritiesOf. intros H.
  destruct (embed load query s) as [[m|qv] s1].
  { injection H as <- <- _. split; [apply Forall2_cachedFrom_refl|].
    discriminate. }
  destruct (embedDocuments load documents s1) as [[[m|es] ds'] s2] eqn:E.
  { injection H as <- <- _.
    split; [eapply embedDocuments_cachedFrom, E | discriminate]. }
  injection H as _ <- _.
  split; [eapply embedDocuments_cachedFrom, E|].
  intros _ _. pose proof (embedDocuments_cached load _ _ _ _ _ E) as Hc.
  clear E. revert es Hc. induction ds' as [|d ds' IH]; intros es Hc;
    [constructor|].
  destruct es as [|e es]; [discriminate|]. injection Hc as Hd Hc.
  constructor; [rewrite Hd; eexists; reflexivity | eapply IH, Hc].
Qed.

Lemma slice0_incl {A} (l : list A) (k : Z) : incl (slice0 l k) l.
Proof.
  unfold slice0. intros x Hx. rewrite <- (take_drop (Z.to_nat
    (if k <? 0 then (Z.of_nat (List.length l) + k) `max` 0
     else k `min` Z.of_nat (List.length l))) l).
  apply in_or_app. left. exact Hx.
Qed.

Lemma sorted_indices_NoDup (sims : list similarity) :
  StronglySorted (fun a b => sim_index a < sim_index b) sims ->
  List.NoDup (map sim_index sims).
Proof.
  induction 1 as [|a l Hs IH Ha]; cbn [map]; constructor; [|exact IH].
  intros Hin. apply in_map_iff in Hin as (b & Hb & Hin).
  rewrite List.Forall_forall in Ha. specialize (Ha b Hin). lia.
Qed.

Lemma findSimilar_cachedFrom query (documents : list document) k s
    r documents' s' :
  findSimilar load query documents k s = (r, documents', s') ->
  Forall2 cachedFrom documents documents'
  /\ forall res, r = inr res ->
       Forall (fun d => is_Some (embedding d)) documents'.
Proof.
  unfold findSimilar. intros H.
  destruct (similaritiesOf load query documents s) as [[[m|sims] ds'] s0] eqn:E;
    destruct (similaritiesOf_cachedFrom _ _ _ _ _ _ E) as [H1 H2];
    injection H as <- <- _.
  - split; [exact H1 | discriminate].
  - split; [exact H1|]. intros _ _. apply (H2 sims). reflexivity.
Qed.

Lemma findSimilar_pointsInto query (documents : list document) k s
    res documents' s' :
  findSimilar load query documents k s = (inr res, documents', s') ->
  exists qv, Forall (pointsInto qv documents') res.
Proof.
  unfold findSimilar. intros H.
  destruct (similaritiesOf load query documents s) as [[[m|sims] ds'] s0] eqn:E;
    [discriminate|].
  injection H as <- <- _.
  destruct (similaritiesOf_pointsInto _ _ _ _ _ _ E) as [qv Hp].
  exists qv. apply List.Forall_forall. intros r Hr.
  apply slice0_incl in Hr.
  apply (Permutation_in _ (Permutation_sym (sort_perm byScoreDescending sims)))
    in Hr.
  rewrite List.Forall_forall in Hp. apply Hp, Hr.
Qed.

Lemma embedDocuments_model p (documents : list document) :
  forall s es documents' s',
    ready s p ->
    embedDocuments load documents s = (inr es, documents', s') ->
    Forall2 (fun d d' =>
               text d' = text d
               /\ embedding d' = match embedding d with
                                 | Some e => Some e
                                 | None => p (text d)
                                 end) documents documents'.
Proof.
  induction documents as [|d rest IH]; intros s es documents' s' Hr H;
    simpl in H.
  - injection H as _ <- _. constructor.
  - destruct (embedding d) as [e|] eqn:Hd.
    + destruct (embedDocuments load rest s) as [[[m|es0] rest'] s0] eqn:E;
        [discriminate|].
      injection H as _ <- _. constructor; [|eapply IH; eassumption].
      rewrite Hd. split; reflexivity.
    + rewrite (embed_ready load s p _ Hr) in H.
      destruct (p (text d)) as [e|] eqn:Hp; [|discriminate].
      destruct (embedDocuments load rest s) as [[[m|es0] rest'] s0] eqn:E;
        [discriminate|].
      injection H as _ <- _. constructor; [|eapply IH; eassumption].
      cbn [text embedding]. rewrite Hd, Hp. split; reflexivity.
Qed.

Lemma similaritiesOf_scoredBy query (documents : list document) s
    sims documents' s' :
  similaritiesOf load query documents s = (inr sims, documents', s') ->
  exists p qv,
    ready s' p /\ p query = Some qv
    /\ Forall (scoredBy p qv documents documents') sims.
Proof.
  unfold similaritiesOf. intros H.
  destruct (embed load query s) as [[m|qv] s1] eqn:Eq; [discriminate|].
  destruct (embed_returns load _ _ _ _ Eq) as (p & Hr & Hq).
  destruct (embedDocuments load documents s1) as [[[m|es] ds'] s2] eqn:E;
    [discriminate|].
  pose proof (embedDocuments_steady load p _ _ _ _ _ Hr E) as ->.
  injection H as H <- <-. exists p, qv. split; [exact Hr|].
  split; [exact Hq|].
  pose proof (embedDocuments_cached load _ _ _ _ _ E) as Hc.
  pose proof (embedDocuments_model p _ _ _ _ _ Hr E) as Hm.
  eapply List.Forall_impl; [|apply (scoreFrom_pointsInto _ _ _ _ _ Hc H)].
  cbn beta. intros r (Hi & Hl & He). rewrite Z.sub_0_r in Hl.
  split; [unfold pointsInto; auto|].
  destruct (Forall2_lookup_r _ _ _ _ _ Hm Hl) as (d & Hd & Ht & Hemb).
  exists d. auto.
Qed.

(** X16. Whatever [findSimilar] does, the documents it was given keep their
    text, index and metadata and every embedding already cached; when it
    returns, every document carries an embedding. *)
Theorem findSimilar_keeps_documents query (documents : list document) k s :
  let '(r, documents', _) := findSimilar load query documents k s in
  Forall2 cachedFrom documents documents'
  /\ forall res, r = inr res ->
       Forall (fun d => is_Some (embedding d)) documents'.
Proof.
  destruct (findSimilar load query documents k s) as [[r ds'] s'] eqn:E.
  eapply findSimilar_cachedFrom, E.
Qed.

(** X17. Each result of [findSimilar] is the document found at its own
    [index], scored against the embedding the loaded model gives for the
    query, with the embedding cached on that document: the one the
    document came with or, where it had none, the one the model gives
    for its text.  No index is returned twice; a failure carries the one
    fixed message. *)
Theorem findSimilar_results query (documents : list document) k s :
  match findSimilar load query documents k s with
  | (inr res, documents', s') =>
      (exists p qv,
          ready s' p /\ p query = Some qv
          /\ Forall (scoredBy p qv documents documents') res)
      /\ List.NoDup (map sim_index res)
  | (inl m, _, _) => m = lit "Failed to find similar documents"
  end.
Proof.
  unfold findSimilar.
  destruct (similaritiesOf load query documents s) as [[[m0|sims] ds0] s0] eqn:E;
    [reflexivity|].
  split.
  - destruct (similaritiesOf_scoredBy _ _ _ _ _ _ E) as (p & qv & Hr & Hq & Hp).
    exists p, qv. split; [exact Hr|]. split; [exact Hq|].
    apply List.Forall_forall. intros r Hin.
    apply slice0_incl in Hin.
    apply (Permutation_in _
             (Permutation_sym (sort_perm byScoreDescending sims))) in Hin.
    rewrite List.Forall_forall in Hp. apply Hp, Hin.
  - pose proof (similaritiesOf_indices load _ _ _ _ _ _ E) as Hi.
    apply sorted_indices_NoDup in Hi.
    assert (Hsorted : List.NoDup
              (map sim_index (sort byScoreDescending sims))).
    { eapply Permutation_NoDup; [|exact Hi].
      apply Permutation_map, sort_perm. }
    revert Hsorted. generalize (sort byScoreDescending sims). intros l.
    unfold slice0. generalize (Z.to_nat
      (if k <? 0 then (Z.of_nat (List.length l) + k) `max` 0
       else k `min` Z.of_nat (List.length l))). intros n.
    rewrite <- (take_drop n l) at 1. rewrite map_app.
    apply NoDup_app_remove_r.
Qed.

Lemma cachedFrom_texts (l l' : list document) :
  Forall2 cachedFrom l l' -> map text l' = map text l.
Proof.
  induction 1 as [|d d' l l' (Ht & _) _ IH]; cbn [map]; [reflexivity|].
  rewrite Ht, IH. reflexivity.
Qed.

(** X18. [getRelevantContext] never throws: it answers with the context
    itself, or with chunk texts of [splitText(context, 1000, 200)] joined
    by blank lines. *)
Theorem getRelevantContext_answers context query k s :
  exists out s',
    getRelevantContext load context query k s = (inr out, s')
    /\ (out = context
        \/ exists picked,
             out = join [10; 10]%N picked
             /\ incl picked (map text (splitText context 1000 200))).
Proof.
  unfold getRelevantContext, catch, bind, ret, rankChunks.
  generalize (splitText context 1000 200). intros chunks0.
  destruct (_ <=? k); [eauto|].
  destruct (findSimilar load query chunks0 k s) as [[[m|res] ds'] s'] eqn:E;
    [eauto|].
  do 2 eexists. split; [reflexivity|]. right.
  eexists. split; [reflexivity|].
  destruct (findSimilar_pointsInto _ _ _ _ _ _ _ E) as [qv Hp].
  destruct (findSimilar_cachedFrom _ _ _ _ _ _ _ E) as [Hc _].
  rewrite <- (cachedFrom_texts _ _ Hc).
  intros t Ht. apply in_map_iff in Ht as (r & <- & Hr).
  rewrite List.Forall_forall in Hp. destruct (Hp r Hr) as (_ & Hl & _).
  apply in_map. eapply list_elem_of_In, list_elem_of_lookup_2, Hl.
Qed.

Lemma embed_ready_service p s t : ready s p -> snd (embed load t s) = s.
Proof. intros H. rewrite (embed_ready load s p t H). reflexivity. Qed.

Lemma embedEach_ready p s : ready s p ->
  forall texts, snd (embedEach load texts s) = s.
Proof.
  intros H texts. induction texts as [|t rest IH]; cbn [embedEach];
    [reflexivity|].
  unfold bind at 1. rewrite (embed_ready load s p t H).
  destruct (p t); [|reflexivity].
  unfold bind, ret. destruct (embedEach load rest s) as [[m|es] s1];
    exact IH.
Qed.

Lemma findSimilar_ready p s query (documents : list document) k :
  ready s p -> snd (findSimilar load query documents k s) = s.
Proof.
  intros H. unfold findSimilar, similaritiesOf.
  rewrite (embed_ready load s p query H).
  destruct (p query); [|reflexivity].
  destruct (embedDocuments load documents s) as [[[m|es] ds'] s2] eqn:E;
    pose proof (embedDocuments_steady load p _ _ _ _ _ H E) as ->;
    [reflexivity|].
  destruct (scoreFrom _ _ _ _); reflexivity.
Qed.

(** X19. Once the model is loaded no operation touches the service's fields
    again: the model is neither reloaded nor replaced. *)
Theorem loaded_model_kept p s :
  ready s p ->
  (forall t, snd (embed load t s) = s)
  /\ (forall texts, snd (embedBatch load texts s) = s)
  /\ (forall query documents k, snd (findSimilar load query documents k s) = s)
  /\ (forall context query k,
        snd (getRelevantContext load context query k s) = s).
Proof.
  intros H. split; [|split; [|split]].
  - intros t. apply (embed_ready_service p), H.
  - intros texts. unfold embedBatch, bind, catch, ret, throw.
    destruct H as [Hi He]. rewrite Hi.
    pose proof (embedEach_ready p s (conj Hi He) texts) as Hs.
    destruct (embedEach load texts s) as [[m|es] s1]; exact Hs.
  - intros query documents k. apply (findSimilar_ready p), H.
  - intros context query k.
    unfold getRelevantContext, catch, bind, ret, rankChunks.
    destruct (_ <=? k); [reflexivity|].
    pose proof (findSimilar_ready p s query (splitText context 1000 200) k H)
      as Hs.
    destruct (findSimilar load query (splitText context 1000 200) k s)
      as [[[m|res] ds'] s']; exact Hs.
Qed.

Lemma embedEach_outcome (texts : list jsstring) : forall s es s',
  embedEach load texts s = (inr es, s') ->
  Forall2 (fun t e => exists p, embedder s' = Some p /\ p t = Some e) texts es.
Proof.
  induction texts as [|t rest IH]; intros s es s' H; cbn [embedEach] in H.
  - injection H as <- _. constructor.
  - unfold bind at 1 in H.
    destruct (embed load t s) as [[m|e] s1] eqn:E; [discriminate|].
    destruct (embed_returns load _ _ _ _ E) as (p & Hr & Hp).
    unfold bind, ret in H.
    destruct (embedEach load rest s1) as [[m|es0] s2] eqn:E2; [discriminate|].
    injection H as <- <-.
    pose proof (embedEach_ready p s1 Hr rest) as Hs.
    rewrite E2 in Hs. cbn in Hs. subst s2.
    constructor; [|eapply IH, E2].
    exists p. split; [apply Hr | exact Hp].
Qed.

(** X20. [embedBatch] returns one embedding per text, in order, each made by
    the loaded model.  It fails with the loader's message only when no
    model was loaded and loading fails, and with its own fixed message
    otherwise. *)
Theorem embedBatch_outcome (texts : list jsstring) s :
  match embedBatch load texts s with
  | (inr es, s') =>
      Forall2 (fun t e => exists p, embedder s' = Some p /\ p t = Some e)
        texts es
  | (inl m, s') =>
      (m = lit "Failed to initialize embedding model"
       /\ load = None /\ isInitialized s = false /\ s' = s)
      \/ m = lit "Failed to generate batch embeddings"
  end.
Proof.
  unfold embedBatch, bind, catch, initialize, ret, throw.
  destruct (isInitialized s) eqn:Hi.
  - destruct (embedEach load texts s) as [[m|es] s1] eqn:E; [right; reflexivity|].
    eapply embedEach_outcome, E.
  - destruct load as [p|] eqn:Hl; [|left; auto].
    destruct (embedEach (Some p) texts _) as [[m|es] s1] eqn:E;
      [right; reflexivity|].
    rewrite <- Hl in E. eapply embedEach_outcome, E.
Qed.

End WithModel.

(** X21. When the model cannot be loaded, [getRelevantContext] still answers
    with the whole context, whatever [k]: where the context has more
    chunks than [k], ranking them throws and the [catch] answers. *)
Theorem getRelevantContext_model_unavailable context query k s :
  isInitialized s = false ->
  getRelevantContext None context query k s = (inr context, s)
  /\ (k < Z.of_nat (List.length (splitText context 1000 200)) ->
      rankChunks None query (splitText context 1000 200) k s
      = (inl (lit "Failed to find similar documents"), s)).
Proof.
  intros Hi.
  assert (Hrank : rankChunks None query (splitText context 1000 200) k s
                  = (inl (lit "Failed to find similar documents"), s)).
  { unfold rankChunks, findSimilar, similaritiesOf, embed, bind, initialize,
      throw.
    rewrite Hi. reflexivity. }
  split; [|intros _; exact Hrank].
  unfold getRelevantContext, catch, bind, ret.
  destruct (_ <=? k); [reflexivity|].
  rewrite Hrank. reflexivity.
Qed.

Lemma getRelevantContext_model_unavailable_witness :
  isInitialized constructor = false
  /\ 1 < Z.of_nat (List.length (splitText longContext 1000 200))
  /\ getRelevantContext None longContext (lit "q") 1 constructor
     = (inr longContext, constructor)
  /\ rankChunks None (lit "q") (splitText longContext 1000 200) 1 constructor
     = (inl (lit "Failed to find similar documents"), constructor).
Proof.
  assert (Hmany : 1 < Z.of_nat (List.length (splitText longContext 1000 200)))
    by (vm_compute; reflexivity).
  split; [reflexivity|]. split; [exact Hmany|].
  destruct (getRelevantContext_model_unavailable longContext (lit "q") 1
              constructor eq_refl) as [Hanswer Hthrown].
  split; [exact Hanswer | exact (Hthrown Hmany)].
Defined.

Lemma loaded_model_kept_witness :
  let s := {| embedder := Some unitModel; isInitialized := true |} in
  ready s unitModel
  /\ snd (findSimilar None (lit "q") [doc "a"; doc "b"] 1 s) = s.
Proof.
  split; [split; reflexivity|].
  apply (loaded_model_kept None unitModel); split; reflexivity.
Defined.

End RetrievalFacts.

(* ===================================================================== *)
(** ** The client against the routes *)
(* ===================================================================== *)

Module ClientFacts.
Import Routes StoreSpec LifecycleSpec JsValues TheHopperClient ClientSpec.

Lemma next_refl ph : next ph ph.
Proof. destruct ph; cbn; auto. Qed.

Lemma next_trans a b c : next a b -> next b c -> next a c.
Proof. destruct a, b, c; cbn; intuition congruence. Qed.

(** *** One event, seen from one request *)

Lemma store_after_other id e sv :
  (forall id', subject e = Some id' -> id' <> id) ->
  requestStore (handle e sv) !! id = requestStore sv !! id
  \/ requestStore (handle e sv) !! id = None.
Proof.
  intros Hne.
  destruct e as [now i b|i outcome|now i outcome|now]; cbn [handle].
  - left. specialize (Hne i eq_refl). unfold postAsk.
    destruct (negb _ || negb _); [reflexivity|].
    destruct (body_question b) as [q|]; [|reflexivity].
    destruct (body_context b) as [c|]; [|reflexivity].
    cbn [fst]. unfold processRAGRequest. cbn [requestStore timers tasks].
    rewrite lookup_insert_eq. cbn [requestStore].
    rewrite !lookup_insert_ne by exact Hne. reflexivity.
  - left. specialize (Hne i eq_refl). unfold contextSettled.
    destruct (tasks sv !! i) as [[st|st]|]; try reflexivity.
    destruct outcome as [msg|data].
    + unfold processingFailed. cbn [requestStore].
      destruct (requestStore sv !! i); [|reflexivity].
      apply lookup_insert_ne, Hne.
    + cbn [requestStore]. apply lookup_alter_ne, Hne.
  - left. specialize (Hne i eq_refl). unfold responseSettled.
    destruct (tasks sv !! i) as [[st|st]|]; try reflexivity.
    destruct outcome as [msg|res].
    + unfold processingFailed. cbn [requestStore].
      destruct (requestStore sv !! i); [|reflexivity].
      apply lookup_insert_ne, Hne.
    + cbn [requestStore]. apply lookup_alter_ne, Hne.
  - unfold elapse. cbn [requestStore].
    rewrite StoreFacts.elapse_lookup. destruct (dueFor now id (timers sv)); auto.
Qed.

Lemma tasks_after_other id e sv :
  (forall id', subject e = Some id' -> id' <> id) ->
  tasks (handle e sv) !! id = tasks sv !! id.
Proof.
  intros Hne.
  destruct e as [now i b|i outcome|now i outcome|now]; cbn [handle];
    try specialize (Hne i eq_refl).
  - unfold postAsk.
    destruct (negb _ || negb _); [reflexivity|].
    destruct (body_question b) as [q|]; [|reflexivity].
    destruct (body_context b) as [c|]; [|reflexivity].
    cbn [fst]. unfold processRAGRequest. cbn [requestStore timers tasks].
    rewrite lookup_insert_eq. cbn [tasks].
    rewrite lookup_insert_ne by exact Hne. reflexivity.
  - unfold contextSettled.
    destruct (tasks sv !! i) as [[st|st]|]; try reflexivity.
    destruct outcome as [msg|data]; cbn [processingFailed tasks].
    + apply lookup_delete_ne, Hne.
    + apply lookup_insert_ne, Hne.
  - unfold responseSettled.
    destruct (tasks sv !! i) as [[st|st]|]; try reflexivity.
    destruct outcome as [msg|res]; cbn [processingFailed tasks];
      apply lookup_delete_ne, Hne.
  - reflexivity.
Qed.

Lemma inPhase_weaken id sv sv' ph :
  inPhase id sv ph ->
  requestStore sv' !! id = requestStore sv !! id
  \/ requestStore sv' !! id = None ->
  tasks sv' !! id = tasks sv !! id ->
  exists ph', inPhase id sv' ph' /\ next ph ph'
              /\ (unfinished ph -> unfinished ph').
Proof.
  intros Hp [Hs | Hs] Ht.
  - exists ph. split; [|split; [apply next_refl | auto]].
    destruct ph; cbn in *; rewrite Hs, ?Ht; exact Hp.
  - exists Gone. split; [exact Hs|]. split; [|cbn; auto].
    destruct ph; cbn in *; auto.
Qed.

Lemma phase_step id e sv ph :
  ~ asks id e -> inPhase id sv ph ->
  exists ph', inPhase id (handle e sv) ph' /\ next ph ph'
              /\ (~ answers id e -> unfinished ph -> unfinished ph').
Proof.
  intros Hask Hp.
  destruct (decide (subject e = Some id)) as [Hsub|Hsub].
  2:{ assert (Hne : forall id', subject e = Some id' -> id' <> id)
        by (intros id' H ->; contradiction).
      destruct (inPhase_weaken id sv (handle e sv) ph Hp
                  (store_after_other id e sv Hne)
                  (tasks_after_other id e sv Hne)) as (ph' & H1 & H2 & H3).
      exists ph'. auto. }
  destruct e as [now i b|i outcome|now i outcome|now]; cbn [subject] in Hsub;
    try discriminate; injection Hsub as ->.
  - exfalso. apply Hask. exists now, b. reflexivity.
  - cbn [handle]. unfold contextSettled.
    destruct (tasks sv !! id) as [[st|st]|] eqn:Hst;
      try (exists ph; split; [exact Hp | split; [apply next_refl | auto]]).
    destruct ph; cbn in Hp.
    + exists Gone. destruct outcome as [msg|data]; cbn; [|split].
      * unfold processingFailed. cbn. rewrite Hp. auto.
      * rewrite lookup_alter_eq, Hp. reflexivity.
      * auto.
    + destruct Hp as (r & Hr & Hsv & Hstat).
      destruct outcome as [msg|data].
      * exists Failed. split; [|cbn; auto].
        unfold processingFailed. cbn. rewrite Hr.
        rewrite lookup_insert_eq, lookup_delete_eq. eexists. repeat split.
        exact Hsv.
      * exists Processing. split; [|cbn; auto]. cbn.
        rewrite lookup_alter_eq, Hr. cbn. eexists. repeat split; assumption.
    + destruct Hp as (r & _ & _ & _ & Ht). congruence.
    + destruct Hp as (r & _ & _ & _ & _ & Ht). congruence.
  - cbn [handle]. unfold responseSettled.
    destruct (tasks sv !! id) as [[st|st]|] eqn:Hst;
      try (exists ph; split; [exact Hp | split; [apply next_refl | auto]]).
    destruct ph; cbn in Hp.
    + exists Gone. destruct outcome as [msg|data]; cbn; [|split].
      * unfold processingFailed. cbn. rewrite Hp. auto.
      * rewrite lookup_alter_eq, Hp. reflexivity.
      * auto.
    + destruct Hp as (r & Hr & Hsv & Hstat).
      destruct outcome as [msg|res].
      * exists Failed. split; [|cbn; auto].
        unfold processingFailed. cbn. rewrite Hr.
        rewrite lookup_insert_eq, lookup_delete_eq. eexists. repeat split.
        exact Hsv.
      * exists (Completed {| response := res; processingTime := now - st |}).
        split; [|split; [cbn; auto|]].
        -- cbn. rewrite lookup_alter_eq, Hr, lookup_delete_eq. cbn.
           eexists. repeat split. exact Hsv.
        -- intros Hans. exfalso. apply Hans. exists now, res. reflexivity.
    + destruct Hp as (r & _ & _ & _ & Ht). congruence.
    + destruct Hp as (r & _ & _ & _ & _ & Ht). congruence.
Qed.

Lemma phase_run id (events : list event) : forall sv ph,
  Forall (fun e => ~ asks id e) events -> inPhase id sv ph ->
  exists ph', inPhase id (run events sv) ph' /\ next ph ph'
              /\ (Forall (fun e => ~ answers id e) events ->
                  unfinished ph -> unfinished ph').
Proof.
  induction events as [|e rest IH]; intros sv ph Hask Hp.
  - exists ph. split; [exact Hp | split; [apply next_refl | auto]].
  - apply Forall_cons in Hask as [He Hrest].
    destruct (phase_step id e sv ph He Hp) as (ph1 & Hp1 & Hn1 & Hu1).
    destruct (IH (handle e sv) ph1 Hrest Hp1) as (ph2 & Hp2 & Hn2 & Hu2).
    exists ph2. split; [exact Hp2|]. split; [eapply next_trans; eassumption|].
    intros Hans Hu. apply Forall_cons in Hans as [Ha Hans]. auto.
Qed.

(** *** What the routes answer in each phase *)

Lemma getStatus_phase id sv ph :
  inPhase id sv ph ->
  match ph with
  | Gone => getStatus (lit "thehopper") id sv = failure 404 "Request not found"
  | _ =>
      exists p m,
        getStatus (lit "thehopper") id sv
        = {| code := 200;
             payload := [(lit "success", JBool true);
                         (lit "status", JStr (lit (statusName ph)));
                         (lit "progress", p); (lit "message", m)] |}
  end.
Proof.
  unfold getStatus.
  destruct ph; cbn [inPhase statusName].
  - intros ->. reflexivity.
  - intros (r & -> & Hsv & Hst). rewrite Hsv, Hst.
    rewrite bool_decide_true by reflexivity. cbn [negb]. eauto.
  - intros (r & -> & Hsv & Hst & _). rewrite Hsv, Hst.
    rewrite bool_decide_true by reflexivity. cbn [negb]. eauto.
  - intros (r & -> & Hsv & Hst & _). rewrite Hsv, Hst.
    rewrite bool_decide_true by reflexivity. cbn [negb]. eauto.
Qed.

Lemma getResult_completed id sv res :
  inPhase id sv (Completed res) ->
  getResult (lit "thehopper") id sv
  = {| code := 200;
       payload :=
         [(lit "success", JBool true)]
         ++ match answer (response res) with
            | Some a => [(lit "answer", a)]
            | None => []
            end
         ++ [(lit "citations", or_else (citations (response res)) (JArr []));
             (lit "themes", or_else (themes (response res)) (JStr (lit "")));
             (lit "processingTime", num (processingTime res))] |}.
Proof.
  unfold getResult. intros (r & -> & Hsv & Hst & Hres & _).
  rewrite Hsv, Hst, Hres, !bool_decide_true by reflexivity. reflexivity.
Qed.

Lemma getResult_gone id sv :
  inPhase id sv Gone ->
  getResult (lit "thehopper") id sv = failure 404 "Request not found".
Proof. unfold getResult. cbn. intros ->. reflexivity. Qed.

Lemma field_here k v rest : field k ((lit k, v) :: rest) = Some v.
Proof. cbn [field]. rewrite bool_decide_true by reflexivity. reflexivity. Qed.

Lemma field_skip k k' v rest :
  lit k' <> lit k -> field k ((lit k', v) :: rest) = field k rest.
Proof. intros H. cbn [field]. rewrite bool_decide_false by exact H. reflexivity. Qed.

Ltac fields :=
  repeat first
    [ rewrite field_here
    | rewrite field_skip by (vm_compute; discriminate) ].

Lemma answer_of_payload res :
  let result :=
    [(lit "success", JBool true)]
    ++ match answer (response res) with
       | Some a => [(lit "answer", a)]
       | None => []
       end
    ++ [(lit "citations", or_else (citations (response res)) (JArr []));
        (lit "themes", or_else (themes (response res)) (JStr (lit "")));
        (lit "processingTime", num (processingTime res))] in
  truthy_value (field "success" result) = true
  /\ {| ans_answer := field "answer" result;
        ans_citations := or_else (field "citations" result) (JArr []);
        ans_themes := or_else (field "themes" result) (JStr (lit ""));
        ans_processingTime := field "processingTime" result;
        ans_source := or_else (field "source" result) (JStr (lit "RAG_SYSTEM"));
        ans_model := field "model" result |}
     = answerOf res.
Proof.
  cbv zeta. unfold answerOf.
  generalize (or_else (citations (response res)) (JArr [])).
  generalize (or_else (themes (response res)) (JStr (lit ""))).
  generalize (num (processingTime res)).
  intros t th ci.
  destruct (answer (response res)) as [a|]; cbn [app]; fields;
    cbn [field]; split; reflexivity.
Qed.

(** *** Where a stored result comes from *)

Lemma traced_step background id t0 q c e sv :
  ~ asks id e -> (exists n, In e (background n)) ->
  traced background id t0 q c sv -> traced background id t0 q c (handle e sv).
Proof.
  intros Hask Hin Htr. pose proof Htr as [Ht Hr].
  destruct (decide (subject e = Some id)) as [Hsub|Hsub].
  2:{ assert (Hne : forall id', subject e = Some id' -> id' <> id)
        by (intros id' H ->; contradiction).
      split.
      - intros stg. rewrite (tasks_after_other id e sv Hne). apply Ht.
      - intros r.
        destruct (store_after_other id e sv Hne) as [-> | ->];
          [apply Hr | discriminate]. }
  destruct e as [now i b|i outcome|now i outcome|now]; cbn [subject] in Hsub;
    try discriminate; injection Hsub as ->.
  - exfalso. apply Hask. exists now, b. reflexivity.
  - cbn [handle]. unfold contextSettled.
    destruct (tasks sv !! id) as [[st|st]|] eqn:Hst; try exact Htr.
    destruct outcome as [msg|data].
    + unfold processingFailed. split; cbn [tasks requestStore].
      * intros stg. rewrite lookup_delete_eq. discriminate.
      * intros r. destruct (requestStore sv !! id) as [r0|] eqn:Hr0.
        -- rewrite lookup_insert_eq. intros [= <-]. cbn. apply (Hr r0 eq_refl).
        -- intros; congruence.
    + split; cbn [tasks requestStore].
      * intros stg. rewrite lookup_insert_eq. intros [= <-].
        apply (Ht _ eq_refl).
      * intros r. rewrite lookup_alter_eq.
        destruct (requestStore sv !! id) as [r0|] eqn:Hr0; cbn;
          [|discriminate].
        intros [= <-]. cbn. apply (Hr r0 eq_refl).
  - cbn [handle]. unfold responseSettled.
    destruct (tasks sv !! id) as [[st|st]|] eqn:Hst; try exact Htr.
    destruct outcome as [msg|resp].
    + unfold processingFailed. split; cbn [tasks requestStore].
      * intros stg. rewrite lookup_delete_eq. discriminate.
      * intros r. destruct (requestStore sv !! id) as [r0|] eqn:Hr0.
        -- rewrite lookup_insert_eq. intros [= <-]. cbn. apply (Hr r0 eq_refl).
        -- intros; congruence.
    + split; cbn [tasks requestStore].
      * intros stg. rewrite lookup_delete_eq. discriminate.
      * intros r. rewrite lookup_alter_eq.
        destruct (requestStore sv !! id) as [r0|] eqn:Hr0; cbn;
          [|discriminate].
        intros [= <-]. cbn.
        destruct (Hr r0 eq_refl) as (Hq & Hc & _).
        split; [exact Hq|]. split; [exact Hc|].
        intros res [= <-]. destruct Hin as [n Hin].
        exists n, now, resp. split; [exact Hin|].
        rewrite <- (Ht _ eq_refl). reflexivity.
Qed.

Lemma traced_run background id t0 q c (events : list event) : forall sv,
  Forall (fun e => ~ asks id e) events ->
  (forall e, In e events -> exists n, In e (background n)) ->
  traced background id t0 q c sv ->
  traced background id t0 q c (run events sv).
Proof.
  induction events as [|e rest IH]; intros sv Hask Hin Ht; [exact Ht|].
  apply Forall_cons in Hask as [He Hrest].
  change (run (e :: rest) sv) with (run rest (handle e sv)).
  apply IH; [exact Hrest | intros e' He'; apply Hin; right; exact He' |].
  apply traced_step; [exact He | apply Hin; left; reflexivity | exact Ht].
Qed.

(** *** One turn of the loop against the routes *)

Section Deployed.
Variable background : nat -> list event.
Variable down : nat -> option jsstring.
Variable clock : nat -> Z.
Variable uuid : jsstring.
Variable toString : json -> jsstring.

Hypothesis unique : forall n, Forall (fun e => ~ asks uuid e) (background n).

Let fetch := serve background down clock uuid.

Lemma serve_phase c w ph :
  (forall q x wc st, c <> PostAsk q x wc st) ->
  inPhase uuid (srv w) ph ->
  exists ph',
    inPhase uuid (srv (snd (fetch c w))) ph' /\ next ph ph'
    /\ srv (snd (fetch c w)) = run (background (tick w)) (srv w)
    /\ tick (snd (fetch c w)) = S (tick w)
    /\ (Forall (fun e => ~ answers uuid e) (background (tick w)) ->
        unfinished ph -> unfinished ph').
Proof.
  intros Hget Hp.
  destruct (phase_run uuid (background (tick w)) (srv w) ph (unique _) Hp)
    as (ph' & Hp' & Hn & Hu).
  exists ph'. unfold fetch, serve.
  destruct (down (tick w)); [cbn; auto|].
  destruct c as [q x wc st| |]; [exfalso; eapply Hget; reflexivity | |];
    cbn; auto.
Qed.

Lemma fetch_status w :
  fst (fetch (GetStatus uuid) w)
  = match down (tick w) with
    | Some m => Rejected m
    | None => Resolved (getStatus (lit "thehopper") uuid
                          (run (background (tick w)) (srv w)))
    end.
Proof. unfold fetch, serve. destruct (down (tick w)); reflexivity. Qed.

Lemma fetch_result w :
  fst (fetch (GetResult uuid) w)
  = match down (tick w) with
    | Some m => Rejected m
    | None => Resolved (getResult (lit "thehopper") uuid
                          (run (background (tick w)) (srv w)))
    end.
Proof. unfold fetch, serve. destruct (down (tick w)); reflexivity. Qed.

(** A turn ends with the answer of a completed request, goes on to the
    next turn, or throws what the loop retries. *)
Lemma attempt_serve w ph :
  inPhase uuid (srv w) ph ->
  exists v w' ph',
    attempt fetch toString uuid w = (v, w')
    /\ inPhase uuid (srv w') ph' /\ next ph ph'
    /\ match v with
       | Return a => exists res, a = answerOf res /\ ph' = Completed res
       | Throw e => retried e = true
       | Next => True
       end
    /\ ((forall n, Forall (fun e => ~ answers uuid e) (background n)) ->
        unfinished ph ->
        unfinished ph' /\ tick w' = S (tick w)
        /\ match v with Return _ => False | _ => True end).
Proof.
  intros Hp. unfold attempt.
  destruct (serve_phase (GetStatus uuid) w ph ltac:(discriminate) Hp)
    as (ph1 & Hp1 & Hn1 & Hs1 & Ht1 & Hu1).
  pose proof (fetch_status w) as Hf.
  destruct (fetch (GetStatus uuid) w) as [f1 w1]. cbn [fst snd] in *.
  destruct (down (tick w)) as [m|] eqn:Hd; subst f1.
  { exists (Throw (TypeError m)), w1, ph1. repeat split; auto. }
  rewrite <- Hs1 in *.
  pose proof (getStatus_phase uuid (srv w1) ph1 Hp1) as Hst.
  destruct ph1 as [| | |res].
  - rewrite Hst. cbn [ok failure code andb Z.leb Z.compare negb].
    assert (ok (failure 404 "Request not found") = false) as -> by reflexivity.
    cbn [negb]. exists Next, w1, Gone. repeat split; auto.
  - destruct Hst as (p & m & ->).
    assert (ok {| code := 200;
                  payload := [(lit "success", JBool true);
                              (lit "status", JStr (lit (statusName Processing)));
                              (lit "progress", p); (lit "message", m)] |} = true)
      as -> by reflexivity.
    cbn [negb payload]. fields. cbn [truthy_value negb equals statusName].
    rewrite !bool_decide_false by (vm_compute; discriminate).
    exists Next, w1, Processing. repeat split; auto.
  - destruct Hst as (p & m & ->).
    assert (ok {| code := 200;
                  payload := [(lit "success", JBool true);
                              (lit "status", JStr (lit (statusName Failed)));
                              (lit "progress", p); (lit "message", m)] |} = true)
      as -> by reflexivity.
    cbn [negb payload]. fields. cbn [truthy_value negb equals statusName].
    rewrite !bool_decide_false by (vm_compute; discriminate).
    exists Next, w1, Failed. repeat split; auto.
  - destruct Hst as (p & m & ->).
    assert (ok {| code := 200;
                  payload := [(lit "success", JBool true);
                              (lit "status",
                               JStr (lit (statusName (Completed res))));
                              (lit "progress", p); (lit "message", m)] |} = true)
      as -> by reflexivity.
    cbn [negb payload]. fields. cbn [truthy_value negb equals statusName].
    rewrite bool_decide_true by reflexivity.
    assert (Hfin : forall P : Prop,
               (forall n, Forall (fun e => ~ answers uuid e) (background n)) ->
               unfinished ph -> P).
    { intros P Hans Hu. exfalso. apply (Hu1 (Hans _) Hu). }
    destruct (serve_phase (GetResult uuid) w1 (Completed res)
                ltac:(discriminate) Hp1)
      as (ph2 & Hp2 & Hn2 & Hs2 & Ht2 & _).
    pose proof (fetch_result w1) as Hf2.
    destruct (fetch (GetResult uuid) w1) as [f2 w2]. cbn [fst snd] in *.
    assert (Hn : next ph ph2) by (eapply next_trans; eassumption).
    destruct (down (tick w1)) as [m2|] eqn:Hd2; subst f2.
    { exists (Throw (TypeError m2)), w2, ph2. repeat split; auto;
        apply Hfin; assumption. }
    rewrite <- Hs2 in *.
    destruct Hn2 as [-> | ->].
    + rewrite (getResult_completed _ _ _ Hp2).
      match goal with
      | |- context [ok ?r] =>
          assert (ok r = true) as -> by reflexivity
      end.
      cbn [payload].
      destruct (answer_of_payload res) as [Hsucc Hans].
      cbv zeta in Hsucc, Hans. rewrite Hsucc, Hans.
      exists (Return (answerOf res)), w2, (Completed res).
      repeat split; eauto; apply Hfin; assumption.
    + rewrite (getResult_gone _ _ Hp2).
      assert (ok (failure 404 "Request not found") = false) as -> by reflexivity.
      exists (Throw (Error (lit "Failed to fetch result: " ++ decimal 404))),
        w2, Gone.
      repeat split; auto; apply Hfin; assumption.
Qed.

Lemma poll_serve (n : nat) : forall w ph,
  inPhase uuid (srv w) ph ->
  let out := poll fetch (fun w => w) toString n uuid w in
  match fst out with
  | inr a =>
      exists res, a = answerOf res
                  /\ inPhase uuid (srv (snd out)) (Completed res)
  | inl m => m = lit "Request timed out after 5 minutes of polling"
  end
  /\ ((forall n, Forall (fun e => ~ answers uuid e) (background n)) ->
      unfinished ph ->
      fst out = inl (lit "Request timed out after 5 minutes of polling")
      /\ tick (snd out) = (tick w + n)%nat).
Proof.
  induction n as [|n IH]; intros w ph Hp; cbn [poll].
  - cbn. split; [reflexivity|]. intros _ _. split; [reflexivity | lia].
  - destruct (attempt_serve w ph Hp) as (v & w' & ph' & -> & Hp' & Hn & Hv & Hu).
    destruct (IH w' ph' Hp') as [IH1 IH2]. cbv zeta in IH1, IH2.
    destruct v as [a|e|].
    + cbn [fst snd]. split.
      { destruct Hv as (res & -> & ->). exists res. split; [reflexivity|].
        exact Hp'. }
      intros Hans Hun. destruct (Hu Hans Hun) as (_ & _ & []).
    + rewrite Hv. split; [exact IH1|].
      intros Hans Hun. destruct (Hu Hans Hun) as (Hun' & Ht & _).
      destruct (IH2 Hans Hun') as [-> ->]. split; [reflexivity | lia].
    + split; [exact IH1|].
      intros Hans Hun. destruct (Hu Hans Hun) as (Hun' & Ht & _).
      destruct (IH2 Hans Hun') as [-> ->]. split; [reflexivity | lia].
Qed.

Lemma fetch_traced t0 q x c w :
  (forall q' x' wc st, c <> PostAsk q' x' wc st) ->
  traced background uuid t0 q x (srv w) ->
  traced background uuid t0 q x (srv (snd (fetch c w))).
Proof.
  intros Hget Ht.
  assert (srv (snd (fetch c w)) = run (background (tick w)) (srv w)) as ->.
  { unfold fetch, serve. destruct (down (tick w)); [reflexivity|].
    destruct c as [q' x' wc st| |];
      [exfalso; eapply Hget; reflexivity | |]; reflexivity. }
  apply traced_run; [apply unique | eauto | exact Ht].
Qed.

Lemma attempt_traced t0 q x w :
  traced background uuid t0 q x (srv w) ->
  traced background uuid t0 q x (srv (snd (attempt fetch toString uuid w))).
Proof.
  intros Ht. unfold attempt.
  pose proof (fetch_traced t0 q x (GetStatus uuid) w ltac:(discriminate) Ht)
    as H1.
  destruct (fetch (GetStatus uuid) w) as [f1 w1]. cbn [snd] in H1.
  pose proof (fetch_traced t0 q x (GetResult uuid) w1 ltac:(discriminate) H1)
    as H2.
  destruct (fetch (GetResult uuid) w1) as [f2 w2]. cbn [snd] in H2.
  destruct f1 as [m1|r1]; [exact H1|].
  destruct (negb (ok r1)); [exact H1|]. cbv zeta.
  destruct (negb (truthy_value (field "success" (payload r1)))); [exact H1|].
  destruct (equals (field "status" (payload r1)) "completed").
  { destruct f2 as [m2|r2]; [exact H2|].
    destruct (ok r2); [|exact H2].
    destruct (truthy_value (field "success" (payload r2))); exact H2. }
  destruct (equals (field "status" (payload r1)) "failed"); [|exact H1].
  destruct f2 as [m2|r2]; [exact H2|].
  destruct (ok r2); exact H2.
Qed.

Lemma poll_traced t0 q x (n : nat) : forall w,
  traced background uuid t0 q x (srv w) ->
  traced background uuid t0 q x
    (srv (snd (poll fetch (fun w => w) toString n uuid w))).
Proof.
  induction n as [|n IH]; intros w Ht; cbn [poll]; [exact Ht|].
  pose proof (attempt_traced t0 q x w Ht) as H1.
  destruct (attempt fetch toString uuid w) as [[a|e|] w1]; cbn [snd] in H1.
  - exact H1.
  - destruct (retried e); [apply IH; exact H1 | exact H1].
  - apply IH; exact H1.
Qed.

Lemma postAsk_reply now b sv :
  truthy_value (body_question b) = true ->
  truthy_value (body_context b) = true ->
  snd (postAsk now uuid b sv)
  = {| code := 200;
       payload := [(lit "success", JBool true);
                   (lit "requestId", JStr uuid);
                   (lit "message",
                    JStr (lit "Question submitted for processing"))] |}.
Proof.
  intros Hq Hc. unfold postAsk. rewrite Hq, Hc. cbn [negb orb].
  destruct (body_question b); [|discriminate].
  destruct (body_context b); [|discriminate]. reflexivity.
Qed.

Lemma submitted question context weakConcepts Stats sv :
  requestStore sv !! uuid = None ->
  let out := fetch (PostAsk question context weakConcepts Stats)
               {| srv := sv; tick := 0 |} in
  tick (snd out) = 1%nat
  /\ match down 0 with
     | Some m => fst out = Rejected m
     | None =>
         if truthy_value (Some question) && truthy_value (Some context) then
           fst out
           = Resolved
               {| code := 200;
                  payload := [(lit "success", JBool true);
                              (lit "requestId", JStr uuid);
                              (lit "message",
                               JStr (lit "Question submitted for processing"))] |}
           /\ inPhase uuid (srv (snd out)) Processing
         else
           fst out = Resolved (failure 400 "Question and context are required")
     end.
Proof.
  intros Hfresh. cbv zeta. unfold fetch, serve. cbn [srv tick].
  destruct (down 0); [split; reflexivity|].
  set (b := {| body_question := Some question; body_context := Some context;
               body_weakConcepts := Some weakConcepts |}).
  set (sv1 := run (background 0) sv).
  destruct (truthy_value (Some question)) eqn:Hq;
    [destruct (truthy_value (Some context)) eqn:Hc|]; cbn [andb].
  - pose proof (postAsk_reply (clock 0) b sv1 Hq Hc) as Hr.
    destruct (StoreFacts.postAsk_accepted (clock 0) uuid b sv1 Hq Hc)
      as (r & Hsv & Hst & _ & _ & Hsvc).
    destruct (postAsk (clock 0) uuid b sv1) as [sv' rep].
    cbn [fst snd] in *. subst. split; [reflexivity|]. split; [reflexivity|].
    cbn. rewrite lookup_insert_eq. eauto.
  - rewrite (StoreFacts.postAsk_rejected (clock 0) uuid b sv1) by (right; exact Hc).
    split; reflexivity.
  - rewrite (StoreFacts.postAsk_rejected (clock 0) uuid b sv1) by (left; exact Hq).
    split; reflexivity.
Qed.

Lemma submitted_traced question context weakConcepts Stats sv :
  down 0 = None ->
  truthy_value (Some question) && truthy_value (Some context) = true ->
  traced background uuid (clock 0) question context
    (srv (snd (fetch (PostAsk question context weakConcepts Stats)
                 {| srv := sv; tick := 0 |}))).
Proof.
  intros Hd Hqc. apply andb_true_iff in Hqc as [Hq Hc].
  unfold fetch, serve. cbn [srv tick]. rewrite Hd.
  unfold postAsk. cbn [body_question body_context body_weakConcepts].
  rewrite Hq, Hc. cbn [negb orb snd srv]. unfold processRAGRequest.
  cbn [requestStore timers tasks]. rewrite lookup_insert_eq.
  unfold traced. cbn [snd srv requestStore tasks]. split.
  - intros stg. rewrite lookup_insert_eq. intros [= <-]. reflexivity.
  - intros r. rewrite lookup_insert_eq. intros [= <-]. cbn.
    split; [reflexivity|]. split; [reflexivity|]. discriminate.
Qed.



End Deployed.

Lemma failingBackground_unique n :
  Forall (fun e => ~ asks sampleId e) (failingBackground sampleId n).
Proof.
  destruct n as [|[|[|n]]]; repeat constructor;
    intros (now & b & H); discriminate.
Qed.

Lemma failingBackground_unanswered n :
  Forall (fun e => ~ answers sampleId e) (failingBackground sampleId n).
Proof.
  destruct n as [|[|[|n]]]; repeat constructor;
    intros (now & res & H); discriminate.
Qed.

Lemma answeringBackground_unique n :
  Forall (fun e => ~ asks sampleId e) (answeringBackground sampleId n).
Proof.
  destruct n as [|[|[|[|n]]]]; repeat constructor;
    intros (now & b & H); discriminate.
Qed.

Lemma display_string s : display (JStr s) = s.
Proof. reflexivity. Qed.



(** A request answered before the third poll: the client returns that
    answer after its submission, three requests to the status route and
    one to the result route. *)
Example ask_answered :
  let out := ask (answeringBackground sampleId) (fun _ => None) (fun _ => 0)
               sampleId display
               (JStr (lit "What is machine learning?"))
               (JStr (lit "Machine learning is a subset of AI."))
               (JArr []) (JArr [JArr []; JArr []]) initial in
  fst out
  = inr {| ans_answer := Some (JStr (lit "It is a subset of AI."));
           ans_citations := JArr [];
           ans_themes := JStr (lit "");
           ans_processingTime := Some (num 5000);
           ans_source := JStr (lit "RAG_SYSTEM");
           ans_model := None |}
  /\ tick (snd out) = 5%nat.
Proof. vm_compute. split; reflexivity. Qed.

End ClientFacts.

(* ===================================================================== *)
(** ** Sections of the context *)
(* ===================================================================== *)

Module ContextFacts.
Import ContextProcessor.

Lemma split_headings_concat (s : jsstring) : forall cur,
  concat (split_headings cur s) = cur ++ s.
Proof.
  induction s as [|c s IH]; intros cur; cbn [split_headings].
  - cbn. reflexivity.
  - destruct (atHeading (c :: s) && truthy cur).
    + cbn [concat]. rewrite IH. reflexivity.
    + rewrite IH, <- app_assoc. reflexivity.
Qed.

Lemma split_headings_head (s : jsstring) : forall cur,
  exists rest tl, split_headings cur s = (cur ++ rest) :: tl.
Proof.
  induction s as [|c s IH]; intros cur; cbn [split_headings].
  - exists [], []. rewrite app_nil_r. reflexivity.
  - destruct (atHeading (c :: s) && truthy cur).
    + exists [], (split_headings [c] s). rewrite app_nil_r. reflexivity.
    + destruct (IH (cur ++ [c])) as (rest & tl & ->).
      exists (c :: rest), tl. rewrite <- app_assoc. reflexivity.
Qed.

Lemma heading_opens_piece (c : N) (s : jsstring) :
  atHeading (c :: s) = true ->
  exists rest tl, split_headings [c] s = (c :: rest) :: tl
                  /\ atHeading (c :: rest) = true.
Proof.
  intros H. destruct s as [|b [|d s]]; try discriminate.
  pose proof H as H0. cbn [atHeading] in H.
  apply andb_true_iff in H as [H Hd]. apply andb_true_iff in H as [Hc Hb].
  apply N.eqb_eq in Hc, Hb. subst c b.
  assert (Hsp : (d =? 35)%N = false).
  { destruct (N.eqb_spec d 35) as [->|]; [discriminate | reflexivity]. }
  cbn [split_headings].
  assert (atHeading (35%N :: d :: s) = false) as ->.
  { destruct s; cbn [atHeading]; [reflexivity|].
    rewrite Hsp, andb_false_r. reflexivity. }
  assert (atHeading (d :: s) = false) as ->.
  { destruct s as [|x [|y s]]; cbn [atHeading]; try reflexivity.
    rewrite Hsp. reflexivity. }
  cbn [andb app].
  destruct (split_headings_head s [35; 35; d]%N) as (rest & tl & ->).
  exists (35%N :: d :: rest), tl. split; [reflexivity|].
  cbn [app atHeading]. cbn [atHeading] in H0. exact H0.
Qed.

Lemma split_headings_tail (s : jsstring) : forall cur,
  Forall (fun piece => atHeading piece = true) (tail (split_headings cur s)).
Proof.
  induction s as [|c s IH]; intros cur; cbn [split_headings].
  - constructor.
  - destruct (atHeading (c :: s) && truthy cur) eqn:H; [|apply IH].
    cbn [tail]. apply andb_true_iff in H as [H _].
    specialize (IH [c]).
    destruct (heading_opens_piece c s H) as (rest & tl & E & Hh).
    rewrite E in *. constructor; [exact Hh | exact IH].
Qed.

(** X24. Splitting at the headings loses nothing: the pieces, put end to end,
    are the context; every piece after the first opens with [##] and a
    white-space character, and the first is empty only when the context
    is. *)
Theorem split_headings_pieces (context : jsstring) :
  concat (split_headings [] context) = context
  /\ Forall (fun piece => atHeading piece = true)
       (tail (split_headings [] context))
  /\ (head (split_headings [] context) = Some [] -> context = []).
Proof.
  split; [apply (split_headings_concat context [])|].
  split; [apply split_headings_tail|].
  destruct context as [|c s]; [reflexivity|].
  cbn [split_headings truthy andb]. rewrite andb_false_r. cbn [app].
  destruct (split_headings_head s [c]) as (rest & tl & ->).
  discriminate.
Qed.

(** X25. [getTopRelevantContext] returns the context untouched, or exactly
    the first [k] of its non-blank sections joined by blank lines, with
    at least one section left out. *)
Theorem getTopRelevantContext_sections (context : jsstring) (k : Z) :
  0 <= k ->
  getTopRelevantContext context k = context
  \/ exists kept dropped,
       sectionsOf context = kept ++ dropped
       /\ dropped <> []
       /\ Z.of_nat (List.length kept) = k
       /\ getTopRelevantContext context k = join [10; 10]%N kept.
Proof.
  intros Hk. unfold getTopRelevantContext.
  destruct (_ <=? k) eqn:Hle; [left; reflexivity|]. right.
  apply Z.leb_gt in Hle.
  exists (slice0 (sectionsOf context) k),
    (drop (Z.to_nat k) (sectionsOf context)).
  unfold slice0.
  assert ((k <? 0) = false) as -> by lia.
  rewrite Z.min_l by lia.
  split; [symmetry; apply take_drop|].
  split.
  - intros E. apply (f_equal (@List.length _)) in E.
    rewrite length_drop in E. cbn in E. lia.
  - split; [|reflexivity]. rewrite length_take. lia.
Qed.

Lemma getTopRelevantContext_sections_witness :
  let context := sampleContext in
  getTopRelevantContext context 2 = context
  \/ exists kept dropped,
       sectionsOf context = kept ++ dropped
       /\ dropped <> []
       /\ Z.of_nat (List.length kept) = 2
       /\ getTopRelevantContext context 2 = join [10; 10]%N kept.
Proof. apply getTopRelevantContext_sections. lia. Defined.

End ContextFacts.

(* ===================================================================== *)
(** ** Validation of a payload *)
(* ===================================================================== *)

Module ValidationFacts.
Import Routes JsValues RagService.

Lemma nonempty_string (v : option json) :
  truthy_value v = true -> isString v = true ->
  exists s, v = Some (JStr s) /\ s <> [].
Proof.
  destruct v as [[| | |s| |]|]; try discriminate.
  intros H _. exists s. split; [reflexivity|]. destruct s; [discriminate|].
  discriminate.
Qed.

Lemma app_length_zero {A} (a b : list A) :
  (List.length (a ++ b) =? 0)%nat = true
  <-> (List.length a =? 0)%nat = true /\ (List.length b =? 0)%nat = true.
Proof. rewrite length_app, !Nat.eqb_eq. lia. Qed.

Lemma guarded_length_zero (b : bool) (e : jsstring) :
  (List.length (if b then [e] else []) =? 0)%nat = true <-> b = false.
Proof. destruct b; cbn; split; congruence. Qed.

(** X26. [validatePayload] accepts exactly the objects whose question and
    context are non-empty strings, whose [weakConcepts] is falsy or an
    array, and whose [Stats] is falsy or an array of exactly two
    arrays. *)
Theorem validatePayload_valid_iff (payload : option json) :
  valid (validatePayload payload) = true
  <-> (exists q, prop "question" payload = Some (JStr q) /\ q <> [])
      /\ (exists c, prop "context" payload = Some (JStr c) /\ c <> [])
      /\ (truthy_value (prop "weakConcepts" payload) = false
          \/ isArray (prop "weakConcepts" payload) = true)
      /\ (truthy_value (prop "Stats" payload) = false
          \/ exists a b, prop "Stats" payload = Some (JArr [JArr a; JArr b])).
Proof.
  unfold validatePayload.
  destruct (truthy_value payload) eqn:Hp; cbn [negb].
  2:{ cbn [valid]. split; [discriminate|]. intros [(q & Hq & _) _].
      destruct payload as [[| | | | |o]|]; try discriminate. }
  cbn [valid]. rewrite !app_length_zero, !guarded_length_zero.
  rewrite orb_false_iff, !negb_false_iff.
  rewrite orb_false_iff, !negb_false_iff.
  assert (Hstr : forall v,
             truthy_value v = true /\ isString v = true
             <-> exists s, v = Some (JStr s) /\ s <> []).
  { intros v. split.
    - intros [H1 H2]. apply nonempty_string; assumption.
    - intros (s & -> & Hs). destruct s; [contradiction|]. split; reflexivity. }
  rewrite !Hstr.
  assert (Hweak : truthy_value (prop "weakConcepts" payload)
                  && negb (isArray (prop "weakConcepts" payload)) = false
                  <-> truthy_value (prop "weakConcepts" payload) = false
                      \/ isArray (prop "weakConcepts" payload) = true).
  { rewrite andb_false_iff, negb_false_iff. reflexivity. }
  rewrite Hweak.
  assert (Hstats : (List.length (statsErrors (prop "Stats" payload)) =? 0)%nat
                   = true
                   <-> truthy_value (prop "Stats" payload) = false
                       \/ exists a b,
                            prop "Stats" payload = Some (JArr [JArr a; JArr b])).
  { unfold statsErrors. generalize (prop "Stats" payload). intros st.
    destruct (truthy_value st) eqn:Ht.
    2:{ split; [left; reflexivity | reflexivity]. }
    destruct st as [[| | | |items|]|]; cbn [List.length Nat.eqb];
      try (split; [discriminate | intros [H | (a' & b' & H)]; discriminate]).
    destruct items as [|x [|y [|z items]]]; cbn [List.length Nat.eqb negb];
      try (split; [discriminate | intros [H | (a' & b' & H)]; discriminate]).
    cbn [lookup list_lookup].
    destruct x as [|bx|nx|sx|a|ox], y as [|by'|ny|sy|b|oy];
      cbn [isArray negb app List.length Nat.eqb];
      try (split; [discriminate | intros [H | (a' & b' & H)]; discriminate]).
    split; [intros _; right; eauto | reflexivity]. }
  rewrite Hstats. tauto.
Qed.

Lemma valid_strings (payload : option json) :
  valid (validatePayload payload) = true ->
  (exists q, prop "question" payload = Some (JStr q) /\ q <> [])
  /\ (exists c, prop "context" payload = Some (JStr c) /\ c <> []).
Proof.
  unfold validatePayload.
  destruct (truthy_value payload); cbn [negb valid]; [|discriminate].
  rewrite !app_length_zero, !guarded_length_zero.
  rewrite !orb_false_iff, !negb_false_iff.
  intros ([H1 H2] & [H3 H4] & _).
  split; apply nonempty_string; assumption.
Qed.

(** X27. A payload [validatePayload] accepts is one the submit route accepts;
    the route also takes payloads the validator refuses. *)
Theorem valid_payload_accepted (payload : option json) now id sv :
  valid (validatePayload payload) = true ->
  code (snd (postAsk now id (bodyOf payload) sv)) = 200.
Proof.
  intros H. apply valid_strings in H.
  destruct H as ((q & Hq & Hqn) & (c & Hc & Hcn)).
  unfold postAsk, bodyOf. cbn [body_question body_context body_weakConcepts].
  rewrite Hq, Hc. cbn [truthy_value].
  destruct q; [contradiction|]. destruct c; [contradiction|]. reflexivity.
Qed.

Lemma valid_payload_accepted_witness :
  valid (validatePayload testPayload) = true
  /\ code (snd (postAsk 0 StoreSpec.sampleId (bodyOf testPayload) initial))
     = 200.
Proof.
  split; [vm_compute; reflexivity|].
  apply valid_payload_accepted. vm_compute. reflexivity.
Defined.

(** A numeric question passes the route's check and fails the
    validator's. *)
Example route_accepts_invalid_payload :
  valid (validatePayload numericQuestion) = false
  /\ code (snd (postAsk 0 StoreSpec.sampleId (bodyOf numericQuestion) initial))
     = 200.
Proof. split; vm_compute; reflexivity. Qed.

End ValidationFacts.

(* ===================================================================== *)
(** ** The WAV header *)
(* ===================================================================== *)

Module WavFacts.
Import JsValues Wav.

Lemma le32_read (v : Z) :
  0 <= v < 4294967296 ->
  v mod 256 + 256 * ((v / 256) mod 256 + 256 * ((v / 65536) mod 256
    + 256 * ((v / 16777216) mod 256 + 256 * 0))) = v.
Proof. intros H. Z.div_mod_to_equations. lia. Qed.

Lemma le16_read (v : Z) :
  0 <= v < 65536 ->
  v mod 256 + 256 * ((v / 256) mod 256 + 256 * 0) = v.
Proof. intros H. Z.div_mod_to_equations. lia. Qed.

Lemma header_fields (dataLength : Z) (o : options) :
  let h := createWavHeader dataLength o in
  List.length h = 44%nat
  /\ Forall (fun x => 0 <= x < 256) h
  /\ getString 0 4 h = map Z.of_N (lit "RIFF")
  /\ getString 8 8 h = map Z.of_N (lit "WAVEfmt ")
  /\ getString 36 4 h = map Z.of_N (lit "data")
  /\ getUint 4 4 h = (36 + dataLength) mod 4294967296
  /\ getUint 4 16 h = 16
  /\ getUint 2 20 h = 1
  /\ getUint 2 22 h = numChannels o mod 65536
  /\ getUint 4 24 h
     = (match sampleRate o with Some r => r | None => 0 end) mod 4294967296
  /\ getUint 4 28 h
     = toInteger (option_map
                    (fun rate => rate * numChannels o * bitsPerSample o)
                    (sampleRate o)) mod 4294967296
  /\ getUint 2 32 h
     = toInteger (Some (numChannels o * bitsPerSample o)) mod 65536
  /\ getUint 2 34 h = bitsPerSample o mod 65536
  /\ getUint 4 40 h = dataLength mod 4294967296.
Proof.
  cbv zeta. unfold createWavHeader.
  generalize (toInteger (option_map
                (fun rate => rate * numChannels o * bitsPerSample o)
                (sampleRate o))).
  generalize (toInteger (Some (numChannels o * bitsPerSample o))).
  generalize (match sampleRate o with Some r => r | None => 0 end).
  generalize (numChannels o). generalize (bitsPerSample o).
  intros bps nc sr ba br.
  cbv [setUint32 setUint16].
  change (16 mod 4294967296) with 16. change (1 mod 65536) with 1.
  pose proof (Z.mod_pos_bound (36 + dataLength) 4294967296 eq_refl) as Hc.
  pose proof (Z.mod_pos_bound dataLength 4294967296 eq_refl) as Hn.
  pose proof (Z.mod_pos_bound sr 4294967296 eq_refl) as Hsr.
  pose proof (Z.mod_pos_bound br 4294967296 eq_refl) as Hbr.
  pose proof (Z.mod_pos_bound nc 65536 eq_refl) as Hnc.
  pose proof (Z.mod_pos_bound ba 65536 eq_refl) as Hba.
  pose proof (Z.mod_pos_bound bps 65536 eq_refl) as Hbps.
  revert Hc Hn Hsr Hbr Hnc Hba Hbps.
  generalize ((36 + dataLength) mod 4294967296).
  generalize (dataLength mod 4294967296).
  generalize (sr mod 4294967296).
  generalize (br mod 4294967296).
  generalize (nc mod 65536).
  generalize (ba mod 65536).
  generalize (bps mod 65536).
  intros vbps vba vnc vbr vsr vn vc Hc Hn Hsr Hbr Hnc Hba Hbps.
  cbv [setUint8 writeString lit list_ascii_of_string
       map N_of_ascii repeat Nat.add].
  repeat split;
    first
      [ reflexivity
      | cbn; apply le32_read; assumption
      | cbn; apply le16_read; assumption
      | repeat constructor; try apply Z.mod_pos_bound; reflexivity ].
Qed.

(** X28. On numbers for which the arithmetic of the source is exact, the
    header is 44 bytes, every one of them written; read back, its fields
    are the arguments reduced to their width: the data size modulo 2^32,
    the chunk size 36 more modulo 2^32, the channel count and sample
    width modulo 2^16, the sample rate and the truncated byte rate modulo
    2^32, the truncated block alignment modulo 2^16. *)
Theorem createWavHeader_fields (dataLength : Z) (o : options) :
  exact dataLength o ->
  let h := createWavHeader dataLength o in
  List.length h = 44%nat
  /\ Forall (fun x => 0 <= x < 256) h
  /\ getString 0 4 h = map Z.of_N (lit "RIFF")
  /\ getString 8 8 h = map Z.of_N (lit "WAVEfmt ")
  /\ getString 36 4 h = map Z.of_N (lit "data")
  /\ getUint 4 4 h = (36 + dataLength) mod 4294967296
  /\ getUint 4 16 h = 16
  /\ getUint 2 20 h = 1
  /\ getUint 2 22 h = numChannels o mod 65536
  /\ getUint 4 24 h
     = (match sampleRate o with Some r => r | None => 0 end) mod 4294967296
  /\ getUint 4 28 h
     = toInteger (option_map
                    (fun rate => rate * numChannels o * bitsPerSample o)
                    (sampleRate o)) mod 4294967296
  /\ getUint 2 32 h
     = toInteger (Some (numChannels o * bitsPerSample o)) mod 65536
  /\ getUint 2 34 h = bitsPerSample o mod 65536
  /\ getUint 4 40 h = dataLength mod 4294967296.
Proof. intros _. apply header_fields. Qed.

Lemma createWavHeader_fields_witness :
  let o := {| numChannels := 1; sampleRate := Some 24000;
              bitsPerSample := 16 |} in
  let h := createWavHeader 48000 o in
  exact 48000 o
  /\ List.length h = 44%nat
  /\ Forall (fun x => 0 <= x < 256) h
  /\ getString 0 4 h = map Z.of_N (lit "RIFF")
  /\ getString 8 8 h = map Z.of_N (lit "WAVEfmt ")
  /\ getString 36 4 h = map Z.of_N (lit "data")
  /\ getUint 4 4 h = (36 + 48000) mod 4294967296
  /\ getUint 4 16 h = 16
  /\ getUint 2 20 h = 1
  /\ getUint 2 22 h = numChannels o mod 65536
  /\ getUint 4 24 h
     = (match sampleRate o with Some r => r | None => 0 end) mod 4294967296
  /\ getUint 4 28 h
     = toInteger (option_map
                    (fun rate => rate * numChannels o * bitsPerSample o)
                    (sampleRate o)) mod 4294967296
  /\ getUint 2 32 h
     = toInteger (Some (numChannels o * bitsPerSample o)) mod 65536
  /\ getUint 2 34 h = bitsPerSample o mod 65536
  /\ getUint 4 40 h = 48000 mod 4294967296.
Proof.
  assert (H : exact 48000 {| numChannels := 1; sampleRate := Some 24000;
                             bitsPerSample := 16 |})
    by (unfold exact; cbn; lia).
  split; [exact H|].
  apply (createWavHeader_fields 48000 _ H).
Defined.

Lemma digit_chars (d : Decimal.uint) :
  forallb (fun c => ((48 <=? c) && (c <=? 57))%N)
    (lit (NilEmpty.string_of_uint d)) = true.
Proof. induction d; cbn; try reflexivity; exact IHd. Qed.

Lemma digits_acc (d : Decimal.uint) : forall acc,
  digits (Some (Z.pos acc)) (lit (NilEmpty.string_of_uint d))
  = Some (Z.pos (Pos.of_uint_acc d acc)).
Proof.
  induction d; intros acc; cbn [NilEmpty.string_of_uint Pos.of_uint_acc];
    [reflexivity | ..];
    (etransitivity; [|apply IHd]); cbn; f_equal; f_equal; lia.
Qed.

Lemma digits_zero (d : Decimal.uint) :
  digits (Some 0) (lit (NilEmpty.string_of_uint d))
  = Some (Z.of_N (Pos.of_uint d)).
Proof.
  induction d; cbn [NilEmpty.string_of_uint Pos.of_uint];
    [reflexivity | exact IHd | ..];
    (etransitivity; [|apply digits_acc]); reflexivity.
Qed.

Lemma digits_first (s : jsstring) :
  s <> [] ->
  forallb (fun c => ((48 <=? c) && (c <=? 57))%N) s = true ->
  digits None s = digits (Some 0) s /\ trimStart s = s
  /\ exists c rest, s = c :: rest /\ (c =? 45)%N = false
                    /\ (c =? 43)%N = false.
Proof.
  destruct s as [|c rest]; [contradiction|]. intros _ H.
  cbn [forallb] in H. apply andb_true_iff in H as [Hc _].
  apply andb_true_iff in Hc as [H1 H2].
  apply N.leb_le in H1, H2.
  split.
  { cbn [digits]. unfold digitOf.
    apply N.leb_le in H1 as ->. apply N.leb_le in H2 as ->. reflexivity. }
  split.
  - cbn [trimStart]. unfold is_space.
    repeat match goal with
           | |- context [(?a <=? ?b)%N] =>
               destruct (N.leb_spec a b); try lia
           | |- context [(?a =? ?b)%N] =>
               destruct (N.eqb_spec a b); try lia
           end; reflexivity.
  - exists c, rest. split; [reflexivity|].
    split; apply N.eqb_neq; lia.
Qed.

Lemma string_of_uint_nonnil (d : Decimal.uint) :
  d <> Decimal.Nil -> lit (NilEmpty.string_of_uint d) <> [].
Proof. destruct d; [contradiction | ..]; discriminate. Qed.

Lemma parse_uint (d : Decimal.uint) :
  d <> Decimal.Nil ->
  parseInt (Some (lit (NilEmpty.string_of_uint d)))
  = Some (Z.of_N (Pos.of_uint d)).
Proof.
  intros Hd.
  destruct (digits_first _ (string_of_uint_nonnil d Hd) (digit_chars d))
    as (Hn & Ht & c & rest & E & H45 & H43).
  unfold parseInt. rewrite Ht. rewrite E in *. rewrite H45, H43.
  rewrite Hn. rewrite <- E. apply digits_zero.
Qed.

Lemma string_of_uint_nilzero (d : Decimal.uint) :
  d <> Decimal.Nil ->
  NilZero.string_of_uint d = NilEmpty.string_of_uint d.
Proof. destruct d; [contradiction | ..]; reflexivity. Qed.

(** [parseInt] reads back what a template literal prints. *)
Lemma parseInt_decimal (n : Z) : parseInt (Some (decimal n)) = Some n.
Proof.
  unfold decimal. destruct n as [|p|p]; cbn [Z.to_int NilZero.string_of_int].
  - reflexivity.
  - pose proof (Unsigned.to_uint_nonnil p) as Hp.
    rewrite string_of_uint_nilzero, parse_uint by exact Hp.
    rewrite DecimalPos.Unsigned.of_to. reflexivity.
  - pose proof (Unsigned.to_uint_nonnil p) as Hp.
    rewrite string_of_uint_nilzero by exact Hp.
    change (lit (String "-" (NilEmpty.string_of_uint (Pos.to_uint p))))
      with (45%N :: lit (NilEmpty.string_of_uint (Pos.to_uint p))).
    unfold parseInt. cbn [trimStart].
    change (is_space 45) with false. cbn [N.eqb Pos.eqb].
    destruct (digits_first _ (string_of_uint_nonnil _ Hp) (digit_chars _))
      as (Hn & _).
    rewrite Hn, digits_zero, DecimalPos.Unsigned.of_to. reflexivity.
Qed.

Lemma decimal_numeric (n : Z) : forallb numeric (decimal n) = true.
Proof.
  assert (H : forall d, forallb numeric (lit (NilEmpty.string_of_uint d)) = true).
  { intros d. induction d; cbn; try reflexivity; exact IHd. }
  unfold decimal. destruct n as [|p|p]; cbn [Z.to_int NilZero.string_of_int].
  - reflexivity.
  - rewrite string_of_uint_nilzero by apply Unsigned.to_uint_nonnil. apply H.
  - rewrite string_of_uint_nilzero by apply Unsigned.to_uint_nonnil.
    change (lit (String "-" (NilEmpty.string_of_uint (Pos.to_uint p))))
      with (45%N :: lit (NilEmpty.string_of_uint (Pos.to_uint p))).
    cbn [forallb]. rewrite H. reflexivity.
Qed.

Lemma forallb_weaken {A} (P Q : A -> bool) (l : list A) :
  (forall x, P x = true -> Q x = true) ->
  forallb P l = true -> forallb Q l = true.
Proof.
  intros HPQ. induction l as [|x l IH]; cbn; [reflexivity|].
  rewrite !andb_true_iff. intros [H1 H2]. split; [apply HPQ, H1 | apply IH, H2].
Qed.

Lemma numeric_not (sep : N) :
  numeric sep = false ->
  forall c, numeric c = true -> negb (c =? sep)%N = true.
Proof.
  intros Hs c Hc. apply negb_true_iff, N.eqb_neq. intros ->. congruence.
Qed.

Lemma numeric_not_space c : numeric c = true -> negb (is_space c) = true.
Proof.
  unfold numeric, is_space. intros H.
  apply orb_true_iff in H as [H | H].
  - apply N.eqb_eq in H as ->. reflexivity.
  - apply andb_true_iff in H as [H1 H2]. apply N.leb_le in H1, H2.
    repeat match goal with
           | |- context [(?a <=? ?b)%N] =>
               destruct (N.leb_spec a b); try lia
           | |- context [(?a =? ?b)%N] =>
               destruct (N.eqb_spec a b); try lia
           end; reflexivity.
Qed.

Lemma splitOn_none (sep : N) (a : jsstring) :
  forallb (fun c => negb (c =? sep)%N) a = true -> splitOn sep a = [a].
Proof.
  induction a as [|c a IH]; cbn [forallb splitOn]; [reflexivity|].
  intros H. apply andb_true_iff in H as [Hc Ha].
  apply negb_true_iff in Hc. rewrite Hc, (IH Ha). reflexivity.
Qed.

Lemma splitOn_app (sep : N) (a b : jsstring) :
  forallb (fun c => negb (c =? sep)%N) a = true ->
  splitOn sep (a ++ sep :: b) = a :: splitOn sep b.
Proof.
  induction a as [|c a IH]; cbn [forallb splitOn app].
  - intros _. rewrite N.eqb_refl. reflexivity.
  - intros H. apply andb_true_iff in H as [Hc Ha].
    apply negb_true_iff in Hc. rewrite Hc, (IH Ha). reflexivity.
Qed.

Lemma trimStart_plain (s : jsstring) :
  forallb (fun c => negb (is_space c)) s = true -> trimStart s = s.
Proof.
  destruct s as [|c s]; [reflexivity|]. cbn [forallb trimStart].
  intros H. apply andb_true_iff in H as [Hc _].
  apply negb_true_iff in Hc. rewrite Hc. reflexivity.
Qed.

Lemma trim_plain (s : jsstring) :
  forallb (fun c => negb (is_space c)) s = true -> trim s = s.
Proof.
  intros H. unfold trim, trimEnd. rewrite (trimStart_plain s H).
  rewrite trimStart_plain; [apply rev_involutive|].
  apply forallb_forall. intros c Hc. apply in_rev in Hc.
  rewrite forallb_forall in H. apply H, Hc.
Qed.

Lemma forallb_app_true {A} (P : A -> bool) (a b : list A) :
  forallb P a = true -> forallb P b = true -> forallb P (a ++ b) = true.
Proof. intros Ha Hb. rewrite forallb_app, Ha, Hb. reflexivity. Qed.

Lemma parse_linear_pcm (bits rate : Z) :
  parseMimeType
    (lit "audio/L" ++ decimal bits ++ lit ";codec=pcm;rate=" ++ decimal rate)
  = {| numChannels := 1; sampleRate := Some rate; bitsPerSample := bits |}.
Proof.
  pose proof (decimal_numeric bits) as Hb.
  pose proof (decimal_numeric rate) as Hr.
  pose proof (parseInt_decimal bits) as Pb.
  pose proof (parseInt_decimal rate) as Pr.
  revert Hb Hr Pb Pr. generalize (decimal bits), (decimal rate).
  intros db dr Hb Hr Pb Pr.
  assert (Hsp : forall d, forallb numeric d = true ->
                          forallb (fun c => negb (is_space c)) d = true)
    by (intros d; apply forallb_weaken, numeric_not_space).
  assert (Hno : forall sep d, numeric sep = false ->
                  forallb numeric d = true ->
                  forallb (fun c => negb (c =? sep)%N) d = true)
    by (intros sep d Hs; apply forallb_weaken, numeric_not, Hs).
  unfold parseMimeType.
  change (lit "audio/L" ++ db ++ lit ";codec=pcm;rate=" ++ dr)
    with ((lit "audio/L" ++ db) ++ 59%N :: lit "codec=pcm"
          ++ 59%N :: (lit "rate=" ++ dr)).
  rewrite splitOn_app
    by (apply forallb_app_true; [reflexivity | apply Hno; [reflexivity | exact Hb]]).
  change (lit "codec=pcm" ++ 59%N :: lit "rate=" ++ dr)
    with (lit "codec=pcm" ++ 59%N :: (lit "rate=" ++ dr)).
  rewrite splitOn_app by reflexivity.
  rewrite splitOn_none
    by (apply forallb_app_true; [reflexivity | apply Hno; [reflexivity | exact Hr]]).
  cbn [map].
  rewrite (trim_plain (lit "audio/L" ++ db))
    by (apply forallb_app_true; [reflexivity | apply Hsp, Hb]).
  rewrite (trim_plain (lit "rate=" ++ dr))
    by (apply forallb_app_true; [reflexivity | apply Hsp, Hr]).
  replace (trim (lit "codec=pcm")) with (lit "codec=pcm") by reflexivity.
  f_equal.
  - cbn [fold_left].
    replace (readParam (Some 24000) (lit "codec=pcm")) with (Some 24000)
      by reflexivity.
    unfold readParam.
    change (lit "rate=" ++ dr) with (lit "rate" ++ 61%N :: dr).
    rewrite splitOn_app by reflexivity.
    rewrite splitOn_none by (apply Hno; [reflexivity | exact Hr]).
    cbn [map lookup list_lookup].
    replace (trim (lit "rate")) with (lit "rate") by reflexivity.
    rewrite bool_decide_true by reflexivity.
    rewrite (trim_plain dr) by (apply Hsp, Hr). exact Pr.
  - change (lit "audio/L" ++ db) with (lit "audio" ++ 47%N :: (lit "L" ++ db)).
    rewrite splitOn_app by reflexivity.
    rewrite splitOn_none
      by (apply forallb_app_true; [reflexivity | apply Hno; [reflexivity | exact Hb]]).
    cbn [lookup list_lookup].
    change (lit "L" ++ db) with (76%N :: db).
    change (lit "L") with [76%N].
    cbn [truthy startsWith andb drop]. rewrite N.eqb_refl.
    assert (startsWith db [] = true) as -> by (destruct db; reflexivity).
    cbn [andb]. change (drop 0 db) with db. rewrite Pb. reflexivity.
Qed.

(** X29. The MIME type the speech model answers with is read back in full,
    for integers that binary64 holds exactly: the sample width after [L]
    and the rate after [rate=], with one channel. *)
Theorem parseMimeType_linear_pcm (bits rate : Z) :
  Z.abs bits < 2 ^ 53 -> Z.abs rate < 2 ^ 53 ->
  parseMimeType
    (lit "audio/L" ++ decimal bits ++ lit ";codec=pcm;rate=" ++ decimal rate)
  = {| numChannels := 1; sampleRate := Some rate; bitsPerSample := bits |}.
Proof. intros _ _. apply parse_linear_pcm. Qed.

Lemma parseMimeType_linear_pcm_witness :
  Z.abs 16 < 2 ^ 53 /\ Z.abs 24000 < 2 ^ 53
  /\ parseMimeType
       (lit "audio/L" ++ decimal 16 ++ lit ";codec=pcm;rate=" ++ decimal 24000)
     = {| numChannels := 1; sampleRate := Some 24000; bitsPerSample := 16 |}.
Proof.
  split; [reflexivity|]. split; [reflexivity|].
  apply parseMimeType_linear_pcm; reflexivity.
Defined.

Lemma parseMimeType_mono (mimeType : jsstring) :
  numChannels (parseMimeType mimeType) = 1.
Proof.
  unfold parseMimeType. destruct (map trim (splitOn 59 mimeType)); reflexivity.
Qed.

Section Blob.
Variable fromBase64 : jsstring -> list Z.

(** X30. The blob [convertToWav] builds is the 44-byte header followed by the
    decoded bytes.  Whatever the MIME type, the header declares PCM with
    one channel; the data size it declares is the length of the base64
    text, modulo 2^32. *)
Theorem convertToWav_header (rawData mimeType : jsstring) :
  let blob := convertToWav fromBase64 rawData mimeType in
  take 44 blob = createWavHeader (len rawData) (parseMimeType mimeType)
  /\ drop 44 blob = fromBase64 rawData
  /\ getUint 2 20 blob = 1
  /\ getUint 2 22 blob = 1
  /\ getUint 4 40 blob = len rawData mod 4294967296.
Proof.
  cbv zeta. unfold convertToWav.
  destruct (header_fields (len rawData) (parseMimeType mimeType))
    as (Hlen & _ & _ & _ & _ & _ & _ & Hfmt & Hch & _ & _ & _ & _ & Hdata).
  cbv zeta in *. rewrite parseMimeType_mono in Hch.
  revert Hlen Hfmt Hch Hdata.
  generalize (createWavHeader (len rawData) (parseMimeType mimeType)).
  generalize (fromBase64 rawData). intros data h Hlen Hfmt Hch Hdata.
  assert (Htake : take 44 (h ++ data) = h)
    by (rewrite take_app_le by lia; apply firstn_all2; lia).
  assert (Hread : forall w off, (off + w <= 44)%nat ->
            getUint w off (h ++ data) = getUint w off h).
  { intros w off Hw. unfold getUint. rewrite drop_app_le by lia.
    assert (Hl : (w <= List.length (drop off h))%nat)
      by (rewrite length_drop; lia).
    revert Hl. generalize (drop off h). clear. intros l.
    revert l. induction w as [|w IH]; intros l Hl; [destruct l; reflexivity|].
    destruct l as [|x l]; [cbn in Hl; lia|]. cbn [app readLE].
    rewrite IH by (cbn in Hl; lia). reflexivity. }
  split; [exact Htake|].
  split; [rewrite drop_app_length' by (symmetry; exact Hlen); reflexivity|].
  rewrite !Hread by lia. change (1 mod 65536) with 1 in Hch. auto.
Qed.

End Blob.

End WavFacts.
